(** * Task ordering and backward scheduling (task_sorting.py)

    A shallow embedding of [topological_sort_with_priority] and
    [schedule_tasks_with_priority], and the properties of the ordering
    engine and of the backward scheduler.

    Python objects live in a store: a [Task] is reached through a reference
    ([loc]), a Python list of tasks is a list of references, and the
    assignments [t.finish_time = finish], [t.start_time = start] update the
    store at that reference.

    The program is embedded twice.  In the first part every scalar
    ([deadline], [duration], [priority], [alpha], the time fields) is a
    Python int, as in the program's own example, embedded as [Z].  In the
    second part (module [Py]) a scalar is a Python int or float, with
    Python's mixed arithmetic, its rounding and its [OverflowError].  Ids
    are ints in both. *)

From stdpp Require Import gmap strings list relations.
From Stdlib Require Import Sorted SpecFloat.

Open Scope Z_scope.

(** ** Data model *)

(** [class Task]: the fields set by [__init__]. [None] in a time field is
    Python's [None] (unset). *)
Record Task := mkTask {
  id : Z;
  deadline : Z;
  duration : Z;
  priority : Z;
  status : string;
  dependencies : list Z;
  start_time : option Z;
  finish_time : option Z
}.

(** [Task.__init__(id, deadline, duration, priority, status, dependencies=None)]:
    [dependencies if dependencies else []], and both time fields start
    unset. *)
Definition Task_init (i d du p : Z) (s : string) (deps : option (list Z)) : Task :=
  mkTask i d du p s (default [] deps) None None.

Definition loc := nat.

(** The store: every reference denotes an object. *)
Definition heap := loc -> Task.

(** [t.finish_time = finish; t.start_time = start] on the object at [r]. *)
Definition set_times (h : heap) (r : loc) (start finish : Z) : heap :=
  fun r' =>
    if decide (r' = r)
    then mkTask (id (h r)) (deadline (h r)) (duration (h r)) (priority (h r))
                (status (h r)) (dependencies (h r)) (Some start) (Some finish)
    else h r'.

(** The exceptions of the program: [raise Exception(msg)], the
    [ValueError] of [max] on an empty sequence, and the [OverflowError] of
    arithmetic that converts an int too large for a float. *)
Inductive exn :=
  | Exception (msg : string)
  | ValueError
  | OverflowError.

(** The exception of line 73, which the specification calls CycleError. *)
Definition CycleError : exn :=
  Exception "Существует циклическая зависимость между задачами!".

(** Outcome of a call: a value, an exception, or a loop that is still
    running when the iteration budget of the model is used up. *)
Inductive outcome (A : Type) :=
  | Return (a : A)
  | Raise (e : exn)
  | Timeout.
Arguments Return {A} a.
Arguments Raise {A} e.
Arguments Timeout {A}.

(** ** [list.sort(key=...)]

    Python's sort is stable and compares keys only.  A stable sort is
    determined by its input ([stable_sort_unique] below), so insertion from
    the right (an element goes in front of the first element whose key is
    not smaller) computes the same list as the library sort. *)
Section list_sort.
Context {A : Type} (key : A -> Z).

Fixpoint sort_insert (x : A) (l : list A) : list A :=
  match l with
  | [] => [x]
  | y :: l' => if key x <=? key y then x :: y :: l' else y :: sort_insert x l'
  end.

Definition list_sort (l : list A) : list A := foldr sort_insert [] l.
End list_sort.

(** ** Ordering engine *)
Section ordering.
Variable h : heap.
Variable tasks : list loc.
Variable alpha : Z.

Definition tid (t : loc) : Z := id (h t).

(** [task_map = {t.id: t for t in tasks}]: a later task overwrites an
    earlier one with the same id. *)
Definition task_map : gmap Z loc :=
  foldl (fun m t => <[tid t := t]> m) ∅ tasks.

(** [in_degree = {t.id: 0 for t in tasks}] *)
Definition in_degree_init : gmap Z Z :=
  foldl (fun m t => <[tid t := 0]> m) ∅ tasks.

(** [graph = {t.id: [] for t in tasks}] *)
Definition graph_init : gmap Z (list Z) :=
  foldl (fun m t => <[tid t := []]> m) ∅ tasks.

(** Body of the inner [for dep_id in t.dependencies]. The subscripts
    [graph[dep_id]] and [in_degree[t.id]] are on keys of the dictionaries
    (section [dictionary_keys] below), so [!!!] never takes its default
    and no [KeyError] is left out. *)
Definition add_edge (t : loc) (st : gmap Z (list Z) * gmap Z Z) (dep_id : Z)
  : gmap Z (list Z) * gmap Z Z :=
  if decide (is_Some (task_map !! dep_id))
  then (<[dep_id := (st.1 !!! dep_id) ++ [tid t]]> st.1,
        <[tid t := st.2 !!! tid t + 1]> st.2)
  else st.

Definition add_edges (st : gmap Z (list Z) * gmap Z Z) (t : loc) :=
  foldl (add_edge t) st (dependencies (h t)).

(** The two nested [for] loops of lines 43-47. *)
Definition build : gmap Z (list Z) * gmap Z Z :=
  foldl add_edges (graph_init, in_degree_init) tasks.

Definition graph : gmap Z (list Z) := build.1.
Definition in_degree0 : gmap Z Z := build.2.

Definition effective_deadline (t : loc) : Z :=
  deadline (h t) - alpha * priority (h t).

(** Body of [for nbr_id in graph[current.id]]. *)
Definition relax_one (st : gmap Z Z * list loc) (nbr_id : Z) : gmap Z Z * list loc :=
  let in_degree := <[nbr_id := st.1 !!! nbr_id - 1]> st.1 in
  if decide (in_degree !!! nbr_id = 0)
  then (in_degree, st.2 ++ [task_map !!! nbr_id])
  else (in_degree, st.2).

Definition relax (nbrs : list Z) (st : gmap Z Z * list loc) : gmap Z Z * list loc :=
  foldl relax_one st nbrs.

(** State of the [while] loop. *)
Record kstate := mkK {
  in_degree : gmap Z Z;
  zero_in_degree : list loc;
  sorted_list : list loc
}.

(** Lines 54-57. *)
Definition kahn_init : kstate :=
  mkK in_degree0
      (list_sort effective_deadline
         (filter (fun t => in_degree0 !!! tid t = 0) tasks))
      [].

(** One iteration of [while zero_in_degree:]; [None] when the loop exits. *)
Definition kahn_step (s : kstate) : option kstate :=
  match zero_in_degree s with
  | [] => None
  | current :: rest =>
      let st := relax (graph !!! tid current) (in_degree s, rest) in
      Some (mkK st.1 (list_sort effective_deadline st.2)
                (sorted_list s ++ [current]))
  end.

(** The [while] loop, run for at most [fuel] iterations. *)
Fixpoint kahn_loop (fuel : nat) (s : kstate) : option kstate :=
  match kahn_step s with
  | None => Some s
  | Some s' =>
      match fuel with
      | O => None
      | S fuel' => kahn_loop fuel' s'
      end
  end.

(** Lines 57-75: the loop, then the length test. The loop gets
    [len(tasks)] iterations, which is always enough ([kahn_loop_total]
    below). *)
Definition topological_sort_with_priority : outcome (list loc) :=
  match kahn_loop (length tasks) kahn_init with
  | None => Timeout
  | Some s =>
      if decide (length (sorted_list s) ≠ length tasks)
      then Raise CycleError
      else Return (sorted_list s)
  end.
End ordering.

(** ** Backward scheduler *)

Definition valid_statuses : list string :=
  ["К выполнению"; "выполняется"; "на паузе"].

(** [max(t.deadline for t in tasks_ordered)]; [max] of an empty sequence
    raises [ValueError]. *)
Definition max_deadline (h : heap) (l : list loc) : option Z :=
  match l with
  | [] => None
  | t :: l' => Some (foldl (fun m t' => Z.max m (deadline (h t'))) (deadline (h t)) l')
  end.

(** [tasks_to_do = [t for t in tasks if t.status in valid_statuses]] *)
Definition tasks_to_do (h : heap) (tasks : list loc) : list loc :=
  filter (fun t => status (h t) ∈ valid_statuses) tasks.

(** Body of [for t in reversed(tasks_ordered)]; the state is the store and
    [current_time]. *)
Definition place (st : heap * Z) (t : loc) : heap * Z :=
  let finish := Z.min st.2 (deadline (st.1 t)) in
  let start := finish - duration (st.1 t) in
  (set_times st.1 t start finish, start).

(** The loop [for t in reversed(tasks_ordered)], started with
    [current_time]. *)
Definition backward (h : heap) (current_time : Z) (tasks_ordered : list loc)
  : heap * Z :=
  foldl place (h, current_time) (reverse tasks_ordered).

(** The result is the value returned or the exception raised, and the
    store after the call. *)
Definition schedule_tasks_with_priority (h : heap) (tasks : list loc) (alpha : Z)
  : outcome (list loc) * heap :=
  match tasks_to_do h tasks with
  | [] => (Return [], h)
  | _ =>
      match topological_sort_with_priority h (tasks_to_do h tasks) alpha with
      | Return tasks_ordered =>
          match max_deadline h tasks_ordered with
          | None => (Raise ValueError, h)
          | Some current_time =>
              (Return tasks_ordered, (backward h current_time tasks_ordered).1)
          end
      | Raise e => (Raise e, h)
      | Timeout => (Timeout, h)
      end
  end.

(** ** The example of the [__main__] block *)
Module Demo.
Definition raw : heap := fun r =>
  match r with
  | 0%nat => Task_init 1 50 10 3 "К выполнению" None
  | 1%nat => Task_init 2 55 5 5 "выполняется" None
  | 2%nat => Task_init 3 60 5 2 "К выполнению" None
  | 3%nat => Task_init 4 60 10 4 "на паузе" None
  | 4%nat => Task_init 5 100 5 1 "отменено" None
  | _ => Task_init 6 70 5 3 "К выполнению" (Some [4; 1])
  end.
Definition raw_tasks : list loc := [0; 1; 2; 3; 4; 5]%nat.
End Demo.

(** Two tasks that depend on each other. *)
Module Cyclic.
Definition store : heap := fun r =>
  match r with
  | 0%nat => Task_init 1 10 2 3 "К выполнению" (Some [2])
  | _ => Task_init 2 20 3 3 "выполняется" (Some [1])
  end.
Definition tasks : list loc := [0; 1]%nat.
End Cyclic.

(** Task 1 waits for task 3 and has the same effective deadline as
    task 2, which is ready from the start. *)
Module Tie.
Definition store : heap := fun r =>
  match r with
  | 0%nat => Task_init 1 20 1 1 "К выполнению" (Some [3])
  | 1%nat => Task_init 2 20 1 1 "К выполнению" None
  | _ => Task_init 3 10 1 1 "К выполнению" None
  end.
Definition tasks : list loc := [0; 1; 2]%nat.
End Tie.

(** Two tasks share id 3; tasks 1 and 2 depend on each other. *)
Module Duplicate.
Definition store : heap := fun r =>
  match r with
  | 0%nat => Task_init 3 10 1 1 "К выполнению" None
  | 1%nat => Task_init 3 10 1 1 "К выполнению" None
  | 2%nat => Task_init 1 20 1 1 "К выполнению" (Some [2; 3])
  | _ => Task_init 2 30 1 1 "К выполнению" (Some [1])
  end.
Definition tasks : list loc := [0; 1; 2; 3]%nat.
End Duplicate.

(** A dependency with a negative duration. *)
Module Negative.
Definition store : heap := fun r =>
  match r with
  | 0%nat => Task_init 1 10 (-100) 3 "К выполнению" None
  | _ => Task_init 2 10 1 3 "К выполнению" (Some [1])
  end.
Definition tasks : list loc := [0; 1]%nat.
End Negative.

(** ** Specification vocabulary *)

(** [a] is a dependency of the task with id [b], and both ids are present
    in [tasks]. *)
Definition dep_edge (h : heap) (tasks : list loc) (a b : Z) : Prop :=
  a ∈ (tid h <$> tasks) ∧ ∃ t, t ∈ tasks ∧ tid h t = b ∧ a ∈ dependencies (h t).

(** No id reaches itself along dependency edges. *)
Definition acyclic (h : heap) (tasks : list loc) : Prop :=
  ∀ a, ¬ tc (dep_edge h tasks) a a.

Definition has_cycle (h : heap) (tasks : list loc) : Prop :=
  ∃ a, tc (dep_edge h tasks) a a.

(** [a] and [b] occur in [l], and the position of [a] is smaller than the
    position of [b]. *)
Definition strictly_before (a b : loc) (l : list loc) : Prop :=
  a ∈ l ∧ b ∈ l ∧ ∀ i j, l !! i = Some a → l !! j = Some b → (i < j)%nat.

(** One iteration of the [while] loop takes [s1] to [s2]. *)
Definition kahn_iter (h : heap) (tasks : list loc) (alpha : Z) (s1 s2 : kstate) : Prop :=
  kahn_step h tasks alpha s1 = Some s2.

(** [after] is a rearrangement of [before] in which elements with the same
    key are in the order they have in [before]. *)
Definition keeps_ties {A} (key : A → Z) (before after : list A) : Prop :=
  after ≡ₚ before ∧
  ∀ k, filter (fun x => key x = k) after = filter (fun x => key x = k) before.


(** The tasks whose counter is zero before the loop starts, in input order. *)
Definition ready_at_start (h : heap) (tasks : list loc) : list loc :=
  filter (fun t => in_degree0 h tasks !!! tid h t = 0) tasks.

(** The time window of a task, when both time fields are set. *)
Definition window (t : Task) : option (Z * Z) :=
  match start_time t, finish_time t with
  | Some s, Some f => Some (s, f)
  | _, _ => None
  end.

(** The fields that scheduling does not assign. *)
Definition same_task (a b : Task) : Prop :=
  id a = id b ∧ deadline a = deadline b ∧ duration a = duration b ∧
  priority a = priority b ∧ status a = status b ∧ dependencies a = dependencies b.

(** The states the [while] loop goes through. *)
Definition kahn_reaches (h : heap) (tasks : list loc) (alpha : Z) (s : kstate) : Prop :=
  rtc (kahn_iter h tasks alpha) (kahn_init h tasks alpha) s.

(** Every task that has entered the pool is recorded once, and its counter
    is used up. *)
Definition once_inv (h : heap) (deg : gmap Z Z) (done pool : list loc) : Prop :=
  NoDup (done ++ pool) ∧ ∀ r, r ∈ done ++ pool → deg !!! tid h r ≤ 0.

(** Every dependency of an element of [l] that names a task of [tasks] is
    the id of an element at a smaller index. *)
Definition deps_first (h : heap) (tasks l : list loc) : Prop :=
  ∀ i t d, l !! i = Some t → d ∈ dependencies (h t) → d ∈ tid h <$> tasks →
           ∃ j r, (j < i)%nat ∧ l !! j = Some r ∧ tid h r = d.

(** Ascending keys from the front of the list. *)
Definition ascending {A} (key : A → Z) (l : list A) : Prop :=
  ∀ i j a b, l !! i = Some a → l !! j = Some b → (i < j)%nat → key a ≤ key b.

Definition key_le {A} (key : A → Z) (x y : A) : Prop := key x ≤ key y.

(** Number of entries of [l] equal to [x]. *)
Definition occurrences (x : Z) (l : list Z) : Z :=
  Z.of_nat (length (filter (fun y => y = x) l)).

(** Sum of [f] over a list of tasks. *)
Definition sum_over (f : loc → Z) (l : list loc) : Z :=
  foldr (fun t acc => f t + acc) 0 l.

(** Number of dependency entries of [t] that name a task of [tasks]. *)
Definition present_deps (h : heap) (tasks : list loc) (t : loc) : Z :=
  Z.of_nat (length (filter (fun d => d ∈ tid h <$> tasks) (dependencies (h t)))).

(** Number of dependency entries of [t] that name a task of [tasks] not yet
    in [done]. *)
Definition pending (h : heap) (tasks done : list loc) (t : loc) : Z :=
  Z.of_nat (length (filter (fun d => d ∈ (tid h <$> tasks) ∧ d ∉ (tid h <$> done))
                           (dependencies (h t)))).

(** The loop invariant of Kahn's algorithm when ids are unique. *)
Definition kahn_inv (h : heap) (tasks : list loc) (s : kstate) : Prop :=
  (∀ t, t ∈ tasks → in_degree s !!! tid h t = pending h tasks (sorted_list s) t) ∧
  (∀ t, t ∈ zero_in_degree s ↔
        t ∈ tasks ∧ (t ∉ sorted_list s) ∧ in_degree s !!! tid h t = 0) ∧
  (∀ t, t ∈ sorted_list s → t ∈ tasks) ∧
  once_inv h (in_degree s) (sorted_list s) (zero_in_degree s) ∧
  deps_first h tasks (sorted_list s).

(** Ids whose counter is still positive. *)
Definition waiting (h : heap) (tasks : list loc) (deg : gmap Z Z) : list Z :=
  filter (fun x => 0 < deg !!! x) (remove_dups ((tid h <$> tasks))).

(** The quantity that bounds the remaining iterations of the loop. *)
Definition budget (h : heap) (tasks : list loc) (s : kstate) : nat :=
  (length (zero_in_degree s) + length (waiting h tasks (in_degree s)))%nat.

(** ** The [__main__] loop *)

(** [for test_alpha in alphas: scheduled = schedule_tasks_with_priority(
    raw_tasks, alpha=test_alpha); for s in scheduled: print(s)], every run
    on the same task objects.  The first component is what has been printed:
    for each run, the states of the returned tasks right after that run.
    An exception ends the loop. *)
Fixpoint main_loop (h : heap) (raw_tasks : list loc) (alphas : list Z)
  : list (list Task) * outcome unit * heap :=
  match alphas with
  | [] => ([], Return tt, h)
  | test_alpha :: rest =>
      match schedule_tasks_with_priority h raw_tasks test_alpha with
      | (Return scheduled, h') =>
          let '(printed, o, h'') := main_loop h' raw_tasks rest in
          ((h' <$> scheduled) :: printed, o, h'')
      | (Raise e, h') => ([], Raise e, h')
      | (Timeout, h') => ([], Timeout, h')
      end
  end.

(** What one call on the store [h] returns, as it would be printed. *)
Definition report (h : heap) (tasks : list loc) (alpha : Z) : list Task :=
  match schedule_tasks_with_priority h tasks alpha with
  | (Return scheduled, h') => h' <$> scheduled
  | _ => []
  end.

(** What the ordering engine reads of a store: ids, deadlines, priorities
    and the dependency entries that name a task of [tasks]. *)
Definition same_ordering_input (h1 h2 : heap) (tasks : list loc) : Prop :=
  ∀ r, id (h1 r) = id (h2 r) ∧ deadline (h1 r) = deadline (h2 r) ∧
       priority (h1 r) = priority (h2 r) ∧
       filter (fun d => d ∈ tid h1 <$> tasks) (dependencies (h1 r))
       = filter (fun d => d ∈ tid h1 <$> tasks) (dependencies (h2 r)).

(** The store in which every dependency entry that names no task of
    [tasks] is removed. *)
Definition drop_dangling (h : heap) (tasks : list loc) : heap := fun r =>
  mkTask (id (h r)) (deadline (h r)) (duration (h r)) (priority (h r))
         (status (h r))
         (filter (fun d => d ∈ tid h <$> tasks) (dependencies (h r)))
         (start_time (h r)) (finish_time (h r)).

(** The durations of the tasks of [l], added up. *)
Definition total_duration (h : heap) (l : list loc) : Z :=
  sum_over (fun r => duration (h r)) l.

(** * The program on Python numbers

    The definitions above take every scalar as a Python [int].  The program
    itself is written for any numbers: [alpha] defaults to the float [1.0]
    and deadlines may be float timestamps.  This part embeds it on Python's
    [int] and [float]: arithmetic that mixes the two converts the [int] and
    may raise [OverflowError], floats round, and comparisons are those of
    Python.  On int inputs the two embeddings agree (section [int_inputs]
    below). *)

(** ** Python numbers *)

(** A number is an [int] or a [float]; a [float] is a binary64 number. *)
Inductive num :=
  | Int (z : Z)
  | Float (f : spec_float).

Definition f64_prec : Z := 53.
Definition f64_emax : Z := 1024.

(** The conversion of an [int] operand in mixed arithmetic: the nearest
    binary64 number, ties to even; [None] is [OverflowError: int too large
    to convert to float]. *)
Definition float_of_int (z : Z) : option spec_float :=
  match binary_normalize f64_prec f64_emax z 0 false with
  | S754_infinity _ => None
  | f => Some f
  end.

(** [a op b] for [+], [-], [*]: exact on two ints, binary64 on two floats,
    and on an int and a float after converting the int. [None] is
    [OverflowError]. *)
Definition py_arith (int_op : Z → Z → Z)
    (float_op : spec_float → spec_float → spec_float) (a b : num) : option num :=
  match a, b with
  | Int x, Int y => Some (Int (int_op x y))
  | Int x, Float g => f ← float_of_int x; Some (Float (float_op f g))
  | Float f, Int y => g ← float_of_int y; Some (Float (float_op f g))
  | Float f, Float g => Some (Float (float_op f g))
  end.

Definition py_add : num → num → option num :=
  py_arith Z.add (SFadd f64_prec f64_emax).
Definition py_sub : num → num → option num :=
  py_arith Z.sub (SFsub f64_prec f64_emax).
Definition py_mul : num → num → option num :=
  py_arith Z.mul (SFmul f64_prec f64_emax).

(** Python compares an int with a float exactly, without converting:
    the comparison of [z] with the value of [f], [None] for a NaN. *)
Definition int_cmp_float (z : Z) (f : spec_float) : option comparison :=
  match f with
  | S754_nan => None
  | S754_infinity s => Some (if s then Gt else Lt)
  | S754_zero _ => Some (z ?= 0)
  | S754_finite s m e =>
      let v := cond_Zopp s (Zpos m) in
      Some (if 0 <=? e then z ?= v * 2 ^ e else z * 2 ^ (- e) ?= v)
  end.

(** [a < b] *)
Definition py_lt (a b : num) : bool :=
  match a, b with
  | Int x, Int y => x <? y
  | Float f, Float g => SFltb f g
  | Int x, Float g =>
      match int_cmp_float x g with Some Lt => true | _ => false end
  | Float f, Int y =>
      match int_cmp_float y f with Some Gt => true | _ => false end
  end.

(** [a == b] *)
Definition py_eq (a b : num) : bool :=
  match a, b with
  | Int x, Int y => x =? y
  | Float f, Float g => SFeqb f g
  | Int x, Float g =>
      match int_cmp_float x g with Some Eq => true | _ => false end
  | Float f, Int y =>
      match int_cmp_float y f with Some Eq => true | _ => false end
  end.

(** [min(a, b)]: the first argument unless the second is smaller. *)
Definition py_min (a b : num) : num := if py_lt b a then b else a.

(** [max] of a sequence that starts with [a]: an item replaces the
    maximum so far when it is greater. *)
Definition py_max_from (a : num) (l : list num) : num :=
  foldl (fun m x => if py_lt m x then x else m) a l.

Definition is_int (a : num) : bool :=
  match a with Int _ => true | Float _ => false end.

(** A float other than NaN. *)
Definition is_float (a : num) : bool :=
  match a with Int _ | Float S754_nan => false | Float _ => true end.

(** The keys of one sort are ints, or they are floats none of which is a
    NaN; [<] is then a strict weak order on them. *)
Definition comparable_keys (ks : list num) : Prop :=
  forallb is_int ks = true ∨ forallb is_float ks = true.

(** The order of [<] on floats other than NaN, as the lexicographic order
    of three integers: sign class, exponent and mantissa. *)
Definition float_rank (f : spec_float) : Z * Z * Z :=
  match f with
  | S754_nan => (0, 0, 0)
  | S754_infinity true => (-2, 0, 0)
  | S754_infinity false => (2, 0, 0)
  | S754_zero _ => (0, 0, 0)
  | S754_finite true m e => (-1, - e, - Z.pos m)
  | S754_finite false m e => (1, e, Z.pos m)
  end.

Definition lex_lt (a b : Z * Z * Z) : Prop :=
  a.1.1 < b.1.1 ∨
  (a.1.1 = b.1.1 ∧ (a.1.2 < b.1.2 ∨ (a.1.2 = b.1.2 ∧ a.2 < b.2))).

(** ** [list.sort(key=...)] for any keys

    The stable sort that compares keys with [<] only, as Python's does:
    an element goes in front of the first element whose key is not
    smaller than its own. *)
Section sort_by.
Context {A K : Type} (lt : K → K → bool) (key : A → K).

Fixpoint insert_by (x : A) (l : list A) : list A :=
  match l with
  | [] => [x]
  | y :: l' => if lt (key y) (key x) then y :: insert_by x l' else x :: y :: l'
  end.

Definition sort_by (l : list A) : list A := foldr insert_by [] l.

(** [x] may stand before [y]: the key of [y] is not smaller. *)
Definition in_order (x y : A) : Prop := lt (key y) (key x) = false.

(** No element has a smaller key than an element before it. *)
Definition ascending_by (l : list A) : Prop :=
  ∀ i j a b, l !! i = Some a → l !! j = Some b → (i < j)%nat → in_order a b.

(** Neither key is smaller than the other. *)
Definition tied (x y : A) : Prop := in_order x y ∧ in_order y x.

#[global] Instance tied_dec (x y : A) : Decision (tied x y) :=
  and_dec (decide (lt (key y) (key x) = false)) (decide (lt (key x) (key y) = false)).

(** [after] is a rearrangement of [before] in which, for every element
    [a], the elements whose keys are tied with the key of [a] are in the
    order they have in [before]. *)
Definition keeps_ties_by (before after : list A) : Prop :=
  after ≡ₚ before ∧
  ∀ a, a ∈ before → filter (fun x => tied x a) after = filter (fun x => tied x a) before.

(** [<] is a strict weak order on the keys of [l]. *)
Definition weak_order_on (l : list A) : Prop :=
  (∀ a b, a ∈ l → b ∈ l → lt (key a) (key b) = true → lt (key b) (key a) = false) ∧
  (∀ a b c, a ∈ l → b ∈ l → c ∈ l → lt (key a) (key c) = true →
            lt (key a) (key b) = true ∨ lt (key b) (key c) = true).
End sort_by.

(** ** The ordering engine for any sort of the pool

    Lines 36-75 with the two calls [zero_in_degree.sort(key=...)] as the
    parameter [sort_pool], which returns the sorted list or the exception
    raised while computing a key.  The dictionaries and the inner loop are
    those of the first part: they read ids and dependencies only. *)
Section ordering_with.
Variable sort_pool : list loc → outcome (list loc).
Variable h : heap.
Variable tasks : list loc.

(** Lines 54-57. *)
Definition order_init : outcome kstate :=
  match sort_pool (filter (fun t => in_degree0 h tasks !!! tid h t = 0) tasks) with
  | Return pool => Return (mkK (in_degree0 h tasks) pool [])
  | Raise e => Raise e
  | Timeout => Timeout
  end.

(** One iteration of [while zero_in_degree:]; [None] when the loop
    exits. *)
Definition order_step (s : kstate) : option (outcome kstate) :=
  match zero_in_degree s with
  | [] => None
  | current :: rest =>
      let st := relax h tasks (graph h tasks !!! tid h current) (in_degree s, rest) in
      Some match sort_pool st.2 with
           | Return pool => Return (mkK st.1 pool (sorted_list s ++ [current]))
           | Raise e => Raise e
           | Timeout => Timeout
           end
  end.

Fixpoint order_loop (fuel : nat) (s : kstate) : outcome kstate :=
  match order_step s with
  | None => Return s
  | Some (Return s') =>
      match fuel with
      | O => Timeout
      | S fuel' => order_loop fuel' s'
      end
  | Some (Raise e) => Raise e
  | Some Timeout => Timeout
  end.

Definition order_with : outcome (list loc) :=
  match order_init with
  | Return s0 =>
      match order_loop (length tasks) s0 with
      | Return s =>
          if decide (length (sorted_list s) ≠ length tasks)
          then Raise CycleError
          else Return (sorted_list s)
      | Raise e => Raise e
      | Timeout => Timeout
      end
  | Raise e => Raise e
  | Timeout => Timeout
  end.

(** One iteration takes [s1] to [s2]. *)
Definition order_iter (s1 s2 : kstate) : Prop := order_step s1 = Some (Return s2).

(** The states the loop goes through. *)
Definition order_reaches (s : kstate) : Prop :=
  ∃ s0, order_init = Return s0 ∧ rtc order_iter s0 s.

(** The loop when the sort may leave the pool in any order: the start of
    the loop and one iteration.  Every invariant below that does not
    speak of the order of the pool is proved for these. *)
Definition any_start (s : kstate) : Prop :=
  in_degree s = in_degree0 h tasks ∧
  zero_in_degree s ≡ₚ filter (fun t => in_degree0 h tasks !!! tid h t = 0) tasks ∧
  sorted_list s = [].

Definition any_iter (s s' : kstate) : Prop :=
  ∃ current rest,
    zero_in_degree s = current :: rest ∧
    in_degree s' = (relax h tasks (graph h tasks !!! tid h current) (in_degree s, rest)).1 ∧
    zero_in_degree s' ≡ₚ
      (relax h tasks (graph h tasks !!! tid h current) (in_degree s, rest)).2 ∧
    sorted_list s' = sorted_list s ++ [current].

Definition any_reaches (s : kstate) : Prop :=
  ∃ s0, any_start s0 ∧ rtc any_iter s0 s.

(** The tasks that [for nbr_id in nbrs] appends to the pool, in the order
    of the loop: the task of [nbrs[i]] for every position [i] at which the
    counter of [nbrs[i]] reaches zero, that is, where the entries up to
    and including [i] hold that id as often as its counter says. *)
Definition released (deg : gmap Z Z) (nbrs : list Z) : list loc :=
  omap (fun i =>
          x ← nbrs !! i;
          if decide (occurrences x (take (S i) nbrs) = deg !!! x)
          then Some (task_map h tasks !!! x) else None)
       (seq 0 (length nbrs)).
End ordering_with.

(** The names of the first part that the second part gives to its own
    objects. *)
Abbreviation int_Task := Task (only parsing).
Abbreviation int_mkTask := mkTask (only parsing).
Abbreviation int_heap := heap (only parsing).
Abbreviation int_id := id (only parsing).
Abbreviation int_deadline := deadline (only parsing).
Abbreviation int_duration := duration (only parsing).
Abbreviation int_priority := priority (only parsing).
Abbreviation int_status := status (only parsing).
Abbreviation int_dependencies := dependencies (only parsing).
Abbreviation int_start_time := start_time (only parsing).
Abbreviation int_finish_time := finish_time (only parsing).

(** ** The program *)
Module Py.

(** [class Task] with numbers of either kind. *)
Record Task := mkTask {
  id : Z;
  deadline : num;
  duration : num;
  priority : num;
  status : string;
  dependencies : list Z;
  start_time : option num;
  finish_time : option num
}.

Definition Task_init (i : Z) (d du p : num) (s : string) (deps : option (list Z)) : Task :=
  mkTask i d du p s (default [] deps) None None.

Definition heap := loc → Task.

(** [t.finish_time = finish; t.start_time = start] on the object at [r]. *)
Definition set_times (h : heap) (r : loc) (start finish : num) : heap :=
  fun r' =>
    if decide (r' = r)
    then mkTask (id (h r)) (deadline (h r)) (duration (h r)) (priority (h r))
                (status (h r)) (dependencies (h r)) (Some start) (Some finish)
    else h r'.

(** The fields that scheduling does not assign. *)
Definition same_task (a b : Task) : Prop :=
  id a = id b ∧ deadline a = deadline b ∧ duration a = duration b ∧
  priority a = priority b ∧ status a = status b ∧ dependencies a = dependencies b.

(** The integer of an [int]; the dictionaries read ids and dependencies
    only, so a float is of no account there. *)
Definition int_part (a : num) : Z := match a with Int z => z | Float _ => 0 end.

(** The object with its [int] fields, as in the first part. *)
Definition erase_task (t : Task) : int_Task :=
  int_mkTask (id t) (int_part (deadline t)) (int_part (duration t))
             (int_part (priority t)) (status t) (dependencies t)
             (int_part <$> start_time t) (int_part <$> finish_time t).

Definition erase (h : heap) : int_heap := fun r => erase_task (h r).

(** An object of the first part as an object with [int] fields. *)
Definition of_int (t : int_Task) : Task :=
  mkTask (int_id t) (Int (int_deadline t)) (Int (int_duration t))
         (Int (int_priority t)) (int_status t) (int_dependencies t)
         (Int <$> int_start_time t) (Int <$> int_finish_time t).

(** A store of the first part as a store of objects with [int] fields. *)
Definition of_ints (h : int_heap) : heap := fun r => of_int (h r).

(** [effective_deadline(task)]: [task.deadline - alpha * task.priority];
    [None] is [OverflowError]. *)
Definition effective_deadline (h : heap) (alpha : num) (t : loc) : option num :=
  m ← py_mul alpha (priority (h t));
  py_sub (deadline (h t)) m.

(** The key of a task whose key can be computed. *)
Definition key (h : heap) (alpha : num) (t : loc) : num :=
  default (Int 0) (effective_deadline h alpha t).

(** [zero_in_degree.sort(key=effective_deadline)]: the keys of all
    elements are computed first, an exception among them ends the call
    and leaves the list as it is; then the list is sorted.  When [<] is a
    strict weak order on the keys (ints, or floats without a NaN:
    [py_lt_weak_order]) the sorted list is the one that every stable sort
    returns ([sort_by_unique]).  With a NaN among the keys Python's sort
    leaves a rearrangement that is not determined here: the theorems on
    the order of the pool assume comparable keys, and the others rest on
    lemmas that hold for every rearrangement (section [any_order]). *)
Definition sort_pool (h : heap) (alpha : num) (l : list loc) : outcome (list loc) :=
  match mapM (effective_deadline h alpha) l with
  | None => Raise OverflowError
  | Some _ => Return (sort_by py_lt (key h alpha) l)
  end.

Definition topological_sort_with_priority (h : heap) (tasks : list loc) (alpha : num)
  : outcome (list loc) :=
  order_with (sort_pool h alpha) (erase h) tasks.

(** [tasks_to_do = [t for t in tasks if t.status in valid_statuses]] *)
Definition tasks_to_do (h : heap) (tasks : list loc) : list loc :=
  filter (fun t => status (h t) ∈ valid_statuses) tasks.

(** [max(t.deadline for t in tasks_ordered)] *)
Definition max_deadline (h : heap) (l : list loc) : option num :=
  match l with
  | [] => None
  | t :: l' => Some (py_max_from (deadline (h t)) ((fun t' => deadline (h t')) <$> l'))
  end.

(** Body of [for t in reversed(tasks_ordered)]; [None] when
    [finish - t.duration] raises [OverflowError], before any assignment
    to [t]. *)
Definition place (st : heap * num) (t : loc) : option (heap * num) :=
  let finish := py_min st.2 (deadline (st.1 t)) in
  start ← py_sub finish (duration (st.1 t));
  Some (set_times st.1 t start finish, start).

(** The loop over [reversed(tasks_ordered)], given the reversed list.  An
    exception leaves the store with the assignments made so far. *)
Fixpoint backward (st : heap * num) (reversed : list loc) : outcome unit * heap :=
  match reversed with
  | [] => (Return tt, st.1)
  | t :: rest =>
      match place st t with
      | Some st' => backward st' rest
      | None => (Raise OverflowError, st.1)
      end
  end.

Definition schedule_tasks_with_priority (h : heap) (tasks : list loc) (alpha : num)
  : outcome (list loc) * heap :=
  match tasks_to_do h tasks with
  | [] => (Return [], h)
  | _ =>
      match topological_sort_with_priority h (tasks_to_do h tasks) alpha with
      | Return tasks_ordered =>
          match max_deadline h tasks_ordered with
          | None => (Raise ValueError, h)
          | Some current_time =>
              match backward (h, current_time) (reverse tasks_ordered) with
              | (Return _, h') => (Return tasks_ordered, h')
              | (Raise e, h') => (Raise e, h')
              | (Timeout, h') => (Timeout, h')
              end
          end
      | Raise e => (Raise e, h)
      | Timeout => (Timeout, h)
      end
  end.

(** [alpha] and the deadlines, durations and priorities of the tasks of
    [l] are all ints, or all floats. *)
Definition uniform (h : heap) (alpha : num) (l : list loc) : Prop :=
  ∀ t, t ∈ l →
       is_int (deadline (h t)) = is_int alpha ∧
       is_int (duration (h t)) = is_int alpha ∧
       is_int (priority (h t)) = is_int alpha.
End Py.




(** The float [1.0], the default of [alpha]. *)
Definition float_one : num := Float (SFone f64_prec f64_emax).

(** The float nearest to [p / q], as a decimal literal denotes it. *)
Definition float_ratio (p q : Z) : num :=
  Float (SFdiv f64_prec f64_emax
           (binary_normalize f64_prec f64_emax p 0 false)
           (binary_normalize f64_prec f64_emax q 0 false)).

(** One task whose int deadline is too large for a float. *)
Module Huge.
Definition store : Py.heap := fun _ =>
  Py.Task_init 1 (Int (10 ^ 400)) (Int 1) (Int 1) "К выполнению" None.
Definition tasks : list loc := [0]%nat.
End Huge.

(** Two tasks that depend on each other, and a ready task whose int
    deadline is too large for a float. *)
Module HugeCyclic.
Definition store : Py.heap := fun r =>
  match r with
  | 0%nat => Py.Task_init 1 (Int 10) (Int 2) (Int 3) "К выполнению" (Some [2])
  | 1%nat => Py.Task_init 2 (Int 20) (Int 3) (Int 3) "выполняется" (Some [1])
  | _ => Py.Task_init 3 (Int (10 ^ 400)) (Int 1) (Int 1) "К выполнению" None
  end.
Definition tasks : list loc := [0; 1; 2]%nat.
End HugeCyclic.

(** One task with float fields: deadline [0.9], duration [0.2]. *)
Module Rounding.
Definition store : Py.heap := fun _ =>
  Py.Task_init 1 (float_ratio 9 10) (float_ratio 2 10) (Int 1) "К выполнению" None.
Definition tasks : list loc := [0]%nat.
End Rounding.

(** Deadlines beyond 2^53 whose keys round: task 1 has the smaller exact
    key and the larger binary64 key. *)
Module Rounded.
Definition store : Py.heap := fun r =>
  match r with
  | 0%nat => Py.Task_init 1 (Int 9007199254740995) (Int 1) (Int 1) "К выполнению" None
  | _ => Py.Task_init 2 (Int 9007199254740997) (Int 1) (Int 2) "К выполнению" None
  end.
Definition tasks : list loc := [0; 1]%nat.
End Rounded.

(** Decides a closed decidable proposition by evaluation. *)
Ltac by_compute := apply (bool_decide_unpack _); vm_compute; exact I.

(** ** Properties of [list.sort] *)
Section list_sort_facts.
Context {A : Type} (key : A → Z).

Lemma sort_insert_perm x l : sort_insert key x l ≡ₚ x :: l.
Proof.
  induction l as [|y l IH]; simpl; [done|].
  case_match; [done|]. rewrite IH. apply Permutation_swap.
Qed.

Lemma list_sort_perm l : list_sort key l ≡ₚ l.
Proof.
  induction l as [|x l IH]; simpl; [done|].
  by rewrite sort_insert_perm, IH.
Qed.

Lemma list_sort_elem x l : x ∈ list_sort key l ↔ x ∈ l.
Proof. by rewrite list_sort_perm. Qed.

Lemma list_sort_length l : length (list_sort key l) = length l.
Proof. by rewrite list_sort_perm. Qed.

Lemma sort_insert_sorted x l :
  StronglySorted (key_le key) l → StronglySorted (key_le key) (sort_insert key x l).
Proof.
  induction 1 as [|y l Hs IH Hy]; simpl.
  - repeat constructor.
  - destruct (Z.leb_spec (key x) (key y)) as [Hle|Hlt].
    + constructor; [by constructor|].
      constructor; [done|].
      eapply Forall_impl; [exact Hy|]. unfold key_le. simpl. lia.
    + constructor; [done|].
      rewrite sort_insert_perm. constructor; [|done].
      unfold key_le. lia.
Qed.

Lemma list_sort_sorted l : StronglySorted (key_le key) (list_sort key l).
Proof.
  induction l; simpl; [constructor|]. by apply sort_insert_sorted.
Qed.

Lemma StronglySorted_ascending l : StronglySorted (key_le key) l → ascending key l.
Proof.
  induction 1 as [|y l Hs IH Hy]; intros i j a b Hi Hj Hij.
  - by rewrite lookup_nil in Hi.
  - destruct j as [|j]; [lia|]. simpl in Hj.
    destruct i as [|i]; simpl in Hi.
    + injection Hi as <-. rewrite Forall_forall in Hy.
      apply Hy. by eapply list_elem_of_lookup_2.
    + eapply IH; [done..|lia].
Qed.

Lemma list_sort_ascending l : ascending key (list_sort key l).
Proof. apply StronglySorted_ascending, list_sort_sorted. Qed.

(** Stability: elements with the same key keep their relative order. *)
Lemma sort_insert_stable k x l :
  StronglySorted (key_le key) l →
  filter (fun y => key y = k) (sort_insert key x l)
  = filter (fun y => key y = k) (x :: l).
Proof.
  induction 1 as [|y l Hs IH Hy]; simpl; [done|].
  destruct (Z.leb_spec (key x) (key y)) as [Hle|Hlt]; [done|].
  rewrite (filter_cons _ y), IH, !filter_cons.
  repeat case_decide; try done; lia.
Qed.

Lemma list_sort_stable k l :
  filter (fun y => key y = k) (list_sort key l) = filter (fun y => key y = k) l.
Proof.
  induction l as [|x l IH]; simpl; [done|].
  rewrite sort_insert_stable by apply list_sort_sorted.
  by rewrite !filter_cons, IH.
Qed.

(** A sorted list is determined by its elements key by key, so every
    stable sort returns the list that [list_sort] returns. *)
Lemma sorted_filters_eq l1 l2 :
  StronglySorted (key_le key) l1 → StronglySorted (key_le key) l2 →
  (∀ k, filter (fun y => key y = k) l1 = filter (fun y => key y = k) l2) →
  l1 = l2.
Proof.
  intros H1. revert l2. induction H1 as [|x l1 Hs1 IH Hx]; intros l2 H2 Hf.
  - destruct l2 as [|y l2]; [done|]. specialize (Hf (key y)).
    rewrite filter_cons_True in Hf by done. done.
  - destruct H2 as [|y l2 Hs2 Hy].
    { specialize (Hf (key x)). rewrite filter_cons_True in Hf by done. done. }
    assert (x ∈ y :: l2) as Hxin.
    { pose proof (Hf (key x)) as E. rewrite filter_cons_True in E by done.
      assert (x ∈ filter (fun z => key z = key x) (y :: l2)) as Hin
        by (rewrite <- E; by left).
      by apply list_elem_of_filter in Hin as [_ ?]. }
    assert (y ∈ x :: l1) as Hyin.
    { pose proof (Hf (key y)) as E. rewrite (filter_cons_True _ y) in E by done.
      assert (y ∈ filter (fun z => key z = key y) (x :: l1)) as Hin
        by (rewrite E; by left).
      by apply list_elem_of_filter in Hin as [_ ?]. }
    rewrite Forall_forall in Hx, Hy. unfold key_le in Hx, Hy.
    assert (key x = key y) as Hk.
    { apply elem_of_cons in Hxin as [->|Hxin]; [done|].
      apply elem_of_cons in Hyin as [->|Hyin]; [done|].
      specialize (Hx _ Hyin). specialize (Hy _ Hxin). lia. }
    pose proof (Hf (key x)) as E.
    rewrite !filter_cons_True in E by done. injection E as <- E.
    f_equal. apply IH; [done|]. intros k. specialize (Hf k).
    rewrite !filter_cons in Hf. destruct (decide (key x = k)); [|done].
    by injection Hf.
Qed.

Lemma stable_sort_unique l l' :
  StronglySorted (key_le key) l' →
  (∀ k, filter (fun y => key y = k) l' = filter (fun y => key y = k) l) →
  l' = list_sort key l.
Proof.
  intros Hs Hf. apply sorted_filters_eq; [done|apply list_sort_sorted|].
  intros k. by rewrite list_sort_stable.
Qed.

Lemma list_sort_id l : StronglySorted (key_le key) l → list_sort key l = l.
Proof.
  induction 1 as [|y l Hs IH Hy]; simpl; [done|].
  rewrite IH. destruct l as [|z l]; simpl; [done|].
  apply Forall_cons in Hy as [Hy _]. unfold key_le in Hy.
  destruct (Z.leb_spec (key y) (key z)); [done|lia].
Qed.
End list_sort_facts.

(** ** The dictionaries built before the loop *)
Section dictionaries.
Variable h : heap.

Lemma task_map_snoc l t :
  task_map h (l ++ [t]) = <[tid h t := t]> (task_map h l).
Proof. unfold task_map. by rewrite foldl_snoc. Qed.

Lemma task_map_Some l x r :
  task_map h l !! x = Some r → r ∈ l ∧ tid h r = x.
Proof.
  induction l as [|t l IH] using rev_ind.
  - unfold task_map. simpl. by rewrite lookup_empty.
  - rewrite task_map_snoc, lookup_insert. case_decide as Hx.
    + intros [= <-]. split; [|done]. apply elem_of_app. right. by left.
    + intros [? ?]%IH. split; [|done]. apply elem_of_app. by left.
Qed.

Lemma task_map_is_Some l x :
  is_Some (task_map h l !! x) ↔ x ∈ tid h <$> l.
Proof.
  induction l as [|t l IH] using rev_ind.
  - unfold task_map. simpl. rewrite lookup_empty, is_Some_alt.
    split; [done|]. by intros ?%elem_of_nil.
  - rewrite task_map_snoc, fmap_app, elem_of_app, lookup_insert. simpl.
    rewrite list_elem_of_singleton. case_decide as Hx.
    + split; [by right|]. by eexists.
    + rewrite IH. split; [by left|]. intros [?|?]; [done|congruence].
Qed.

Lemma task_map_unique l r :
  NoDup (tid h <$> l) → r ∈ l → task_map h l !! tid h r = Some r.
Proof.
  induction l as [|t l IH] using rev_ind; [by intros _ ?%elem_of_nil|].
  rewrite fmap_app, NoDup_app, elem_of_app, list_elem_of_singleton. simpl.
  intros (Hl & Hdisj & _) Hr. rewrite task_map_snoc, lookup_insert.
  case_decide as Hx; [|destruct Hr as [?| ->]; [by apply IH|done]].
  destruct Hr as [Hr| ->]; [|done]. exfalso.
  apply (Hdisj (tid h r)); [by apply list_elem_of_fmap_2|].
  rewrite Hx. by left.
Qed.

(** [task_map[x]] for an id [x] of the list is a task of the list with
    that id. *)
Lemma task_map_total l x :
  x ∈ tid h <$> l → task_map h l !!! x ∈ l ∧ tid h (task_map h l !!! x) = x.
Proof.
  intros [r Hr]%task_map_is_Some.
  rewrite (lookup_total_correct _ _ _ Hr). by apply task_map_Some.
Qed.

Lemma task_map_total_unique l r :
  NoDup (tid h <$> l) → r ∈ l → task_map h l !!! tid h r = r.
Proof. intros ??. by apply lookup_total_correct, task_map_unique. Qed.

Lemma tid_inj_on l r1 r2 :
  NoDup (tid h <$> l) → r1 ∈ l → r2 ∈ l → tid h r1 = tid h r2 → r1 = r2.
Proof.
  intros Hnd H1 H2 Heq.
  pose proof (task_map_unique l r1 Hnd H1) as E1.
  pose proof (task_map_unique l r2 Hnd H2) as E2.
  rewrite Heq in E1. congruence.
Qed.

Lemma graph_init_total l c : graph_init h l !!! c = [].
Proof.
  unfold graph_init. induction l as [|t l IH] using rev_ind; simpl.
  - by rewrite lookup_total_empty.
  - rewrite foldl_snoc, lookup_total_insert. by case_decide.
Qed.

Lemma in_degree_init_total l x :
  x ∈ tid h <$> l → in_degree_init h l !!! x = 0.
Proof.
  unfold in_degree_init. induction l as [|t l IH] using rev_ind; simpl.
  - by intros ?%elem_of_nil.
  - rewrite fmap_app, elem_of_app, foldl_snoc, lookup_total_insert. simpl.
    rewrite list_elem_of_singleton. case_decide; [done|].
    intros [?|?]; [by apply IH|congruence].
Qed.

Lemma occurrences_app x l k : occurrences x (l ++ k) = occurrences x l + occurrences x k.
Proof. unfold occurrences. rewrite filter_app, length_app. lia. Qed.

Lemma occurrences_cons x y l :
  occurrences x (y :: l) = (if decide (y = x) then 1 else 0) + occurrences x l.
Proof. unfold occurrences. rewrite filter_cons. case_decide; simpl; lia. Qed.

Lemma occurrences_nonneg x l : 0 ≤ occurrences x l.
Proof. unfold occurrences. lia. Qed.

Lemma occurrences_pos x l : 0 < occurrences x l ↔ x ∈ l.
Proof.
  induction l as [|y l IH]; rewrite ?occurrences_cons.
  - unfold occurrences. simpl. split; [lia|by intros ?%elem_of_nil].
  - rewrite elem_of_cons. pose proof (occurrences_nonneg x l).
    case_decide; [split; [by left|lia]|].
    rewrite <- IH. split; [right; lia|intros [?|?]; [congruence|lia]].
Qed.
End dictionaries.

Section build_facts.
Variable h : heap.
Variable tasks : list loc.

Lemma sum_over_ext (f g : loc → Z) l :
  (∀ t, f t = g t) → sum_over f l = sum_over g l.
Proof. intros E. induction l as [|t l IH]; simpl; [done|]. by rewrite E, IH. Qed.

Lemma sum_over_pos (g : loc → Z) l :
  0 < sum_over g l → ∃ t, t ∈ l ∧ 0 < g t.
Proof.
  induction l as [|t l IH]; simpl; [lia|]. intros Hpos.
  destruct (decide (0 < g t)) as [Hg|Hg].
  - exists t. split; [by left|done].
  - destruct IH as (t' & ? & ?); [lia|]. exists t'. split; [by right|done].
Qed.

Lemma sum_over_unique (f : loc → Z) l t :
  NoDup (tid h <$> l) → t ∈ l →
  sum_over (fun t' => if decide (tid h t' = tid h t) then f t' else 0) l = f t.
Proof.
  induction l as [|t' l IH]; [by intros _ ?%elem_of_nil|].
  rewrite fmap_cons, NoDup_cons, elem_of_cons. simpl.
  intros [Hnot Hnd] Ht. case_decide as Hid.
  - assert (sum_over (fun t' => if decide (tid h t' = tid h t) then f t' else 0) l = 0)
      as ->.
    { clear -Hnot Hid. induction l as [|u l IH]; simpl; [done|].
      rewrite fmap_cons, not_elem_of_cons in Hnot. destruct Hnot as [Hu Hl].
      rewrite IH by done. case_decide; [congruence|done]. }
    destruct Ht as [->|Ht]; [lia|]. exfalso. apply Hnot.
    rewrite Hid. by apply list_elem_of_fmap_2.
  - destruct Ht as [->|Ht]; [done|]. rewrite IH by done. lia.
Qed.

Lemma add_edge_deg t deps st x :
  (foldl (add_edge h tasks t) st deps).2 !!! x
  = st.2 !!! x
    + (if decide (tid h t = x)
       then Z.of_nat (length (filter (fun d => d ∈ tid h <$> tasks) deps))
       else 0).
Proof.
  revert st. induction deps as [|d deps IH]; intros st; simpl.
  { case_decide; lia. }
  rewrite IH. unfold add_edge. rewrite filter_cons.
  destruct (decide (is_Some (task_map h tasks !! d))) as [Hd|Hd];
    rewrite task_map_is_Some in Hd; simpl;
    destruct (decide (d ∈ tid h <$> tasks)); try done.
  rewrite lookup_total_insert. repeat case_decide; simpl length; subst; try lia; congruence.
Qed.

Lemma add_edge_graph t deps st c x :
  occurrences x ((foldl (add_edge h tasks t) st deps).1 !!! c)
  = occurrences x (st.1 !!! c)
    + (if decide (c ∈ tid h <$> tasks ∧ tid h t = x) then occurrences c deps else 0).
Proof.
  revert st. induction deps as [|d deps IH]; intros st; simpl.
  { case_decide; unfold occurrences; simpl; lia. }
  rewrite IH. unfold add_edge. rewrite occurrences_cons.
  destruct (decide (is_Some (task_map h tasks !! d))) as [Hd|Hd];
    rewrite task_map_is_Some in Hd; simpl.
  - rewrite lookup_total_insert. destruct (decide (d = c)) as [->|Hdc].
    + rewrite occurrences_app, occurrences_cons. unfold occurrences at 2. simpl.
      repeat case_decide; try lia; exfalso; intuition congruence.
    + repeat case_decide; try lia; exfalso; intuition congruence.
  - destruct (decide (d = c)) as [->|Hdc];
      repeat case_decide; try lia; exfalso; intuition congruence.
Qed.

Lemma build_deg l st x :
  (foldl (add_edges h tasks) st l).2 !!! x
  = st.2 !!! x
    + sum_over (fun t => if decide (tid h t = x) then present_deps h tasks t else 0) l.
Proof.
  revert st. induction l as [|t l IH]; intros st; simpl; [lia|].
  rewrite IH. unfold add_edges. rewrite add_edge_deg.
  unfold present_deps. lia.
Qed.

Lemma build_graph l st c x :
  occurrences x ((foldl (add_edges h tasks) st l).1 !!! c)
  = occurrences x (st.1 !!! c)
    + sum_over (fun t => if decide (c ∈ tid h <$> tasks ∧ tid h t = x)
                         then occurrences c (dependencies (h t)) else 0) l.
Proof.
  revert st. induction l as [|t l IH]; intros st; simpl; [lia|].
  rewrite IH. unfold add_edges. rewrite add_edge_graph. lia.
Qed.

(** [graph[c]] only lists ids of tasks of the list. *)
Lemma graph_elem c x : x ∈ graph h tasks !!! c → x ∈ tid h <$> tasks.
Proof.
  rewrite <- occurrences_pos. unfold graph, build. rewrite build_graph. simpl.
  rewrite graph_init_total. unfold occurrences at 1. simpl.
  intros (t & Ht & Hpos)%sum_over_pos.
  case_decide as Hc; [|lia]. destruct Hc as [_ <-].
  by apply list_elem_of_fmap_2.
Qed.

Lemma in_degree0_unique t :
  NoDup (tid h <$> tasks) → t ∈ tasks →
  in_degree0 h tasks !!! tid h t = present_deps h tasks t.
Proof.
  intros Hnd Ht. unfold in_degree0, build. rewrite build_deg. simpl.
  rewrite in_degree_init_total by by apply list_elem_of_fmap_2.
  by rewrite sum_over_unique.
Qed.

Lemma graph_unique c t :
  NoDup (tid h <$> tasks) → t ∈ tasks → c ∈ tid h <$> tasks →
  occurrences (tid h t) (graph h tasks !!! c) = occurrences c (dependencies (h t)).
Proof.
  intros Hnd Ht Hc. unfold graph, build. rewrite build_graph. simpl.
  rewrite graph_init_total. unfold occurrences at 1. simpl.
  rewrite <- (sum_over_unique (fun t => occurrences c (dependencies (h t))) tasks t)
    by done.
  change (Z.of_nat 0) with 0. rewrite Z.add_0_l.
  apply sum_over_ext. intros u. repeat case_decide; try done; exfalso; tauto.
Qed.
End build_facts.

(** ** The inner loop over [graph[current.id]] *)
Section relax_facts.
Variable h : heap.
Variable tasks : list loc.

Lemma relax_one_deg st y x :
  (relax_one h tasks st y).1 !!! x
  = st.1 !!! x - (if decide (y = x) then 1 else 0).
Proof.
  unfold relax_one. simpl.
  assert (<[y:=st.1 !!! y - 1]> st.1 !!! x
          = st.1 !!! x - (if decide (y = x) then 1 else 0)) as E.
  { rewrite lookup_total_insert. destruct (decide (y = x)); subst; lia. }
  by destruct (decide (<[y:=st.1 !!! y - 1]> st.1 !!! y = 0)).
Qed.

Lemma relax_one_pool st y :
  (relax_one h tasks st y).2
  = st.2 ++ (if decide (st.1 !!! y = 1) then [task_map h tasks !!! y] else []).
Proof.
  unfold relax_one. simpl. rewrite lookup_total_insert_eq.
  destruct (decide (st.1 !!! y - 1 = 0)), (decide (st.1 !!! y = 1));
    simpl; rewrite ?app_nil_r; try done; lia.
Qed.

Lemma relax_deg nbrs st x :
  (relax h tasks nbrs st).1 !!! x = st.1 !!! x - occurrences x nbrs.
Proof.
  unfold relax. revert st. induction nbrs as [|y nbrs IH]; intros st; simpl.
  - unfold occurrences. simpl. lia.
  - rewrite IH, relax_one_deg, occurrences_cons. lia.
Qed.

(** The pool only grows at its end; a task is appended when its counter
    goes from positive to zero during the loop. *)
Lemma relax_pool nbrs st :
  ∃ added,
    (relax h tasks nbrs st).2 = st.2 ++ added ∧
    ∀ r, r ∈ added ↔
         ∃ x, x ∈ nbrs ∧ r = task_map h tasks !!! x ∧
              0 < st.1 !!! x ≤ occurrences x nbrs.
Proof.
  unfold relax. revert st. induction nbrs as [|y nbrs IH]; intros st; simpl.
  { exists []. split; [by rewrite app_nil_r|]. intros r. split.
    - by intros ?%elem_of_nil.
    - by intros (x & ?%elem_of_nil & _). }
  destruct (IH (relax_one h tasks st y)) as (added & -> & Hadded).
  rewrite relax_one_pool, <- app_assoc. eexists. split; [done|].
  intros r. rewrite elem_of_app, Hadded. split.
  - intros [Hr|(x & Hx & -> & Hdeg)].
    + destruct (decide (st.1 !!! y = 1)) as [Hy|]; [|by apply elem_of_nil in Hr].
      apply list_elem_of_singleton in Hr as ->. exists y.
      split; [by left|]. split; [done|].
      rewrite occurrences_cons, decide_True by done.
      pose proof (occurrences_nonneg y nbrs). lia.
    + exists x. split; [by right|]. split; [done|].
      rewrite relax_one_deg in Hdeg. rewrite occurrences_cons.
      destruct (decide (y = x)); lia.
  - intros (x & Hx & -> & Hdeg). rewrite occurrences_cons in Hdeg.
    destruct (decide (y = x)) as [->|Hyx].
    + destruct (decide (st.1 !!! x = 1)) as [Hone|Hone]; [left; by left|].
      right. exists x. rewrite relax_one_deg, decide_True by done.
      split; [apply occurrences_pos; lia|]. split; [done|lia].
    + right. exists x. rewrite relax_one_deg, decide_False by done.
      apply elem_of_cons in Hx as [?|Hx]; [congruence|].
      split; [done|]. split; [done|lia].
Qed.
End relax_facts.

(** ** Termination of the [while] loop *)
Section termination.
Variable h : heap.
Variable tasks : list loc.
Variable alpha : Z.

Lemma filter_length_iff {A} (P Q : A → Prop)
    `{∀ x, Decision (P x)} `{∀ x, Decision (Q x)} (l : list A) :
  (∀ x, x ∈ l → (P x ↔ Q x)) → length (filter P l) = length (filter Q l).
Proof.
  induction l as [|x l IH]; intros E; [done|].
  rewrite !filter_cons.
  assert (P x ↔ Q x) as Ex by (apply E; by left).
  assert (length (filter P l) = length (filter Q l)) as El.
  { apply IH. intros y Hy. apply E. by right. }
  destruct (decide (P x)), (decide (Q x)); simpl; try lia; tauto.
Qed.

Lemma filter_length_drop {A} (P Q : A → Prop)
    `{∀ x, Decision (P x)} `{∀ x, Decision (Q x)} (l : list A) y :
  NoDup l → y ∈ l → P y → ¬ Q y → (∀ x, x ≠ y → (P x ↔ Q x)) →
  length (filter P l) = S (length (filter Q l)).
Proof.
  intros Hnd Hy HP HQ E. induction Hnd as [|x l Hx Hnd IH]; [by apply elem_of_nil in Hy|].
  rewrite !filter_cons. apply elem_of_cons in Hy as [<-|Hy].
  - rewrite decide_True, decide_False by done. simpl. f_equal.
    apply filter_length_iff. intros x Hxl. apply E. by intros ->.
  - assert (x ≠ y) as Hne by by intros ->.
    specialize (E x Hne). specialize (IH Hy).
    destruct (decide (P x)), (decide (Q x)); simpl; try lia; tauto.
Qed.

Lemma filter_remove_dups_length {A} `{EqDecision A} (P : A → Prop)
    `{∀ x, Decision (P x)} (l : list A) :
  (length (filter P (remove_dups l)) ≤ length (filter P l))%nat.
Proof.
  induction l as [|x l IH]; simpl; [done|].
  rewrite (filter_cons P x l).
  destruct (decide_rel elem_of x l); rewrite ?filter_cons;
    destruct (decide (P x)); simpl; lia.
Qed.

Lemma filter_fmap_length {A B} (f : A → B) (P : B → Prop)
    `{∀ x, Decision (P x)} (l : list A) :
  length (filter P (f <$> l)) = length (filter (fun x => P (f x)) l).
Proof.
  induction l as [|x l IH]; [done|].
  rewrite fmap_cons, !filter_cons. destruct (decide (P (f x))); simpl; lia.
Qed.

Lemma relax_one_budget st y :
  y ∈ tid h <$> tasks →
  (length (relax_one h tasks st y).2
   + length (waiting h tasks (relax_one h tasks st y).1))%nat
  = (length st.2 + length (waiting h tasks st.1))%nat.
Proof.
  intros Hy. rewrite relax_one_pool, length_app. unfold waiting.
  destruct (decide (st.1 !!! y = 1)) as [Hone|Hone]; simpl.
  - rewrite (filter_length_drop (fun x => 0 < st.1 !!! x)
               (fun x => 0 < (relax_one h tasks st y).1 !!! x) _ y); [lia|..].
    + apply NoDup_remove_dups.
    + by apply elem_of_remove_dups.
    + lia.
    + rewrite relax_one_deg, decide_True by done. lia.
    + intros x Hx. rewrite relax_one_deg, decide_False by done. lia.
  - rewrite (filter_length_iff (fun x => 0 < (relax_one h tasks st y).1 !!! x)
               (fun x => 0 < st.1 !!! x)); [lia|].
    intros x _. rewrite relax_one_deg. destruct (decide (y = x)); subst; lia.
Qed.

Lemma relax_budget nbrs st :
  (∀ y, y ∈ nbrs → y ∈ tid h <$> tasks) →
  (length (relax h tasks nbrs st).2
   + length (waiting h tasks (relax h tasks nbrs st).1))%nat
  = (length st.2 + length (waiting h tasks st.1))%nat.
Proof.
  unfold relax. revert st. induction nbrs as [|y nbrs IH]; intros st Hn; simpl; [done|].
  rewrite IH by (intros; apply Hn; by right).
  apply relax_one_budget, Hn. by left.
Qed.

(** Every iteration uses up one unit of the budget. *)
Lemma kahn_step_budget s s' :
  kahn_step h tasks alpha s = Some s' →
  budget h tasks s = S (budget h tasks s').
Proof.
  unfold kahn_step, budget. destruct (zero_in_degree s) as [|c rest]; [done|].
  intros [= <-]. simpl. rewrite list_sort_length.
  rewrite relax_budget by apply graph_elem. simpl. lia.
Qed.

Lemma kahn_init_budget :
  (budget h tasks (kahn_init h tasks alpha) ≤ length tasks)%nat.
Proof.
  unfold budget, kahn_init, waiting. simpl. rewrite list_sort_length.
  pose proof (filter_remove_dups_length
                (fun x => 0 < in_degree0 h tasks !!! x) (tid h <$> tasks)) as H1.
  rewrite filter_fmap_length in H1.
  assert (∀ l : list loc,
    (length (filter (fun t => in_degree0 h tasks !!! tid h t = 0%Z) l)
     + length (filter (fun t => (0 < in_degree0 h tasks !!! tid h t)%Z) l)
     ≤ length l)%nat) as H2.
  { induction l as [|x l IH]; [done|]. rewrite !filter_cons.
    repeat case_decide; simpl; lia. }
  specialize (H2 tasks). lia.
Qed.

Lemma kahn_loop_budget n s :
  (budget h tasks s ≤ n)%nat →
  ∃ k s', (k ≤ n)%nat ∧ kahn_loop h tasks alpha n s = Some s' ∧
          nsteps (kahn_iter h tasks alpha) k s s' ∧
          kahn_step h tasks alpha s' = None.
Proof.
  revert s. induction n as [|n IH]; intros s Hb; simpl.
  - destruct (kahn_step h tasks alpha s) as [s'|] eqn:E.
    + apply kahn_step_budget in E. lia.
    + exists 0%nat, s. repeat split; [done|constructor|done].
  - destruct (kahn_step h tasks alpha s) as [s'|] eqn:E.
    + pose proof (kahn_step_budget _ _ E).
      destruct (IH s') as (k & s'' & ? & ? & ? & ?); [lia|].
      exists (S k), s''. repeat split; [lia|done| |done].
      by econstructor.
    + exists 0%nat, s. repeat split; [lia|constructor|done].
Qed.

(** The loop exits after at most [length tasks] iterations. *)
Lemma kahn_loop_total :
  ∃ k s, (k ≤ length tasks)%nat ∧
         kahn_loop h tasks alpha (length tasks) (kahn_init h tasks alpha) = Some s ∧
         nsteps (kahn_iter h tasks alpha) k (kahn_init h tasks alpha) s ∧
         kahn_step h tasks alpha s = None.
Proof. apply kahn_loop_budget, kahn_init_budget. Qed.

Lemma kahn_step_None s :
  kahn_step h tasks alpha s = None ↔ zero_in_degree s = [].
Proof. unfold kahn_step. by destruct (zero_in_degree s). Qed.

Lemma kahn_iter_length s s' :
  kahn_iter h tasks alpha s s' →
  length (sorted_list s') = S (length (sorted_list s)).
Proof.
  unfold kahn_iter, kahn_step. destruct (zero_in_degree s); [done|].
  intros [= <-]. simpl. rewrite length_app. simpl. lia.
Qed.

Lemma kahn_nsteps_length k s s' :
  nsteps (kahn_iter h tasks alpha) k s s' →
  length (sorted_list s') = (k + length (sorted_list s))%nat.
Proof.
  induction 1 as [|n x y z Hxy _ IH]; [done|].
  rewrite IH, (kahn_iter_length _ _ Hxy). lia.
Qed.
End termination.

(** ** Counting the dependencies that are still to come *)
Section pending_facts.
Variable h : heap.
Variable tasks : list loc.

Lemma pending_nonneg done t : 0 ≤ pending h tasks done t.
Proof. unfold pending. lia. Qed.

Lemma pending_nil t : pending h tasks [] t = present_deps h tasks t.
Proof.
  unfold pending, present_deps. f_equal. apply filter_length_iff.
  intros d _. rewrite fmap_nil. split; [tauto|].
  intros ?. split; [done|]. apply not_elem_of_nil.
Qed.

Lemma pending_snoc done r t :
  tid h r ∈ tid h <$> tasks → tid h r ∉ tid h <$> done →
  pending h tasks (done ++ [r]) t
  = pending h tasks done t - occurrences (tid h r) (dependencies (h t)).
Proof.
  intros Hin Hnot. unfold pending, occurrences.
  induction (dependencies (h t)) as [|d l IH]; [done|].
  rewrite !filter_cons.
  assert ((d ∉ tid h <$> (done ++ [r])) ↔ (d ∉ tid h <$> done) ∧ d ≠ tid h r) as E.
  { rewrite fmap_app, elem_of_app. simpl. rewrite list_elem_of_singleton. tauto. }
  destruct (decide (d ∈ tid h <$> tasks ∧ d ∉ tid h <$> done ++ [r])) as [[? ?]|N1],
           (decide (d ∈ tid h <$> tasks ∧ d ∉ tid h <$> done)) as [[? ?]|N2],
           (decide (d = tid h r)) as [->|N3]; simpl length; try lia; exfalso; tauto.
Qed.

Lemma pending_zero done t d :
  pending h tasks done t = 0 → d ∈ dependencies (h t) → d ∈ tid h <$> tasks →
  d ∈ tid h <$> done.
Proof.
  unfold pending. intros Hz Hd Hin.
  assert (filter (fun d => d ∈ tid h <$> tasks ∧ d ∉ tid h <$> done)
                 (dependencies (h t)) = []) as Hnil by (apply nil_length_inv; lia).
  destruct (decide (d ∈ tid h <$> done)) as [|Hn]; [done|]. exfalso.
  eapply (filter_nil_not_elem_of _ _ d Hnil); [|done]. done.
Qed.

Lemma pending_pos done t :
  0 < pending h tasks done t →
  ∃ d, d ∈ dependencies (h t) ∧ d ∈ tid h <$> tasks ∧ d ∉ tid h <$> done.
Proof.
  unfold pending. intros Hpos.
  destruct (filter (fun d => d ∈ tid h <$> tasks ∧ d ∉ tid h <$> done)
                   (dependencies (h t))) as [|d l] eqn:E; [simpl in Hpos; lia|].
  assert (d ∈ filter (fun d => d ∈ tid h <$> tasks ∧ d ∉ tid h <$> done)
                     (dependencies (h t))) as Hd by (rewrite E; by left).
  apply list_elem_of_filter in Hd as [[? ?] ?]. by exists d.
Qed.
End pending_facts.

(** ** Invariants of the [while] loop *)
Section kahn_facts.
Variable h : heap.
Variable tasks : list loc.
Variable alpha : Z.

Lemma relax_one_once done st y :
  y ∈ tid h <$> tasks →
  once_inv h st.1 done st.2 →
  once_inv h (relax_one h tasks st y).1 done (relax_one h tasks st y).2.
Proof.
  intros Hy [Hnd Hle]. unfold once_inv.
  rewrite relax_one_pool.
  destruct (task_map_total h tasks y Hy) as [_ Htid].
  destruct (decide (st.1 !!! y = 1)) as [Hone|Hone].
  - split.
    + rewrite app_assoc. apply NoDup_app. split; [done|]. split; [|apply NoDup_singleton].
      intros r Hr ->%list_elem_of_singleton.
      specialize (Hle _ Hr). rewrite Htid in Hle. lia.
    + intros r. rewrite app_assoc, elem_of_app, list_elem_of_singleton.
      rewrite relax_one_deg. intros [Hr| ->].
      * specialize (Hle _ Hr). destruct (decide (y = tid h r)); lia.
      * rewrite Htid, decide_True by done. lia.
  - rewrite app_nil_r. split; [done|]. intros r Hr.
    specialize (Hle _ Hr). rewrite relax_one_deg.
    destruct (decide (y = tid h r)); lia.
Qed.

Lemma relax_once done nbrs st :
  (∀ y, y ∈ nbrs → y ∈ tid h <$> tasks) →
  once_inv h st.1 done st.2 →
  once_inv h (relax h tasks nbrs st).1 done (relax h tasks nbrs st).2.
Proof.
  unfold relax. revert st. induction nbrs as [|y nbrs IH]; intros st Hn Hinv; [done|].
  simpl. apply IH; [intros; apply Hn; by right|].
  apply relax_one_once; [apply Hn; by left|done].
Qed.

Lemma kahn_iter_once s s' :
  kahn_iter h tasks alpha s s' →
  once_inv h (in_degree s) (sorted_list s) (zero_in_degree s) →
  once_inv h (in_degree s') (sorted_list s') (zero_in_degree s').
Proof.
  unfold kahn_iter, kahn_step. destruct (zero_in_degree s) as [|c rest]; [done|].
  intros [= <-] Hinv. simpl.
  assert (once_inv h (in_degree s) (sorted_list s ++ [c]) rest) as Hinv'.
  { unfold once_inv in *. by rewrite <- app_assoc. }
  apply (relax_once (sorted_list s ++ [c]) (graph h tasks !!! tid h c)
           (in_degree s, rest) (graph_elem h tasks _)) in Hinv'.
  destruct Hinv' as [Hnd Hle]. split.
  - by rewrite list_sort_perm.
  - intros r Hr. apply Hle. rewrite elem_of_app in Hr |- *.
    by rewrite list_sort_elem in Hr.
Qed.

Lemma kahn_init_once :
  NoDup tasks →
  once_inv h (in_degree (kahn_init h tasks alpha))
           (sorted_list (kahn_init h tasks alpha))
           (zero_in_degree (kahn_init h tasks alpha)).
Proof.
  intros Hnd. unfold kahn_init, once_inv. simpl. split.
  - rewrite list_sort_perm. by apply NoDup_filter.
  - intros r [E _]%list_sort_elem%list_elem_of_filter. lia.
Qed.

(** The tasks in the pool and in the output are tasks of the input. *)
Lemma kahn_iter_sub s s' :
  kahn_iter h tasks alpha s s' →
  (∀ r, r ∈ sorted_list s ++ zero_in_degree s → r ∈ tasks) →
  ∀ r, r ∈ sorted_list s' ++ zero_in_degree s' → r ∈ tasks.
Proof.
  unfold kahn_iter, kahn_step. destruct (zero_in_degree s) as [|c rest]; [done|].
  intros [= <-] Hsub r. simpl.
  destruct (relax_pool h tasks (graph h tasks !!! tid h c) (in_degree s, rest))
    as (added & -> & Hadded). simpl.
  rewrite !elem_of_app, list_sort_elem, elem_of_app, list_elem_of_singleton, Hadded.
  intros [[Hr| ->]|[Hr|(x & Hx & -> & _)]].
  - apply Hsub, elem_of_app. by left.
  - apply Hsub, elem_of_app. right. by left.
  - apply Hsub, elem_of_app. right. by right.
  - apply task_map_total. by eapply graph_elem.
Qed.

Lemma kahn_reaches_ind (P : kstate → Prop) :
  P (kahn_init h tasks alpha) →
  (∀ s s', kahn_reaches h tasks alpha s → kahn_iter h tasks alpha s s' → P s → P s') →
  ∀ s, kahn_reaches h tasks alpha s → P s.
Proof. intros Hinit Hstep s Hs. eapply rtc_ind_r; eauto. Qed.

Lemma kahn_reaches_sub s :
  kahn_reaches h tasks alpha s →
  ∀ r, r ∈ sorted_list s ++ zero_in_degree s → r ∈ tasks.
Proof.
  revert s.
  apply (kahn_reaches_ind
           (fun s => ∀ r, r ∈ sorted_list s ++ zero_in_degree s → r ∈ tasks)).
  - unfold kahn_init. simpl. by intros r [_ ?]%list_sort_elem%list_elem_of_filter.
  - intros s s' _ Hstep IH. by eapply kahn_iter_sub.
Qed.

Lemma kahn_reaches_once s :
  NoDup tasks → kahn_reaches h tasks alpha s →
  once_inv h (in_degree s) (sorted_list s) (zero_in_degree s).
Proof.
  intros Hnd. revert s.
  apply (kahn_reaches_ind
           (fun s => once_inv h (in_degree s) (sorted_list s) (zero_in_degree s))).
  - by apply kahn_init_once.
  - intros s s' _ Hstep IH. by eapply kahn_iter_once.
Qed.
End kahn_facts.

(** ** Every subscript is on a key of its dictionary

    The model reads dictionaries with [!!!]; these lemmas show that the
    keys read are present, so that no [KeyError] is left out: the three
    dictionaries have the ids of [tasks] as keys, before and during the
    loop, and every id read is an id of [tasks] ([graph_elem],
    [kahn_reaches_sub]). *)
Section dictionary_keys.
Variable h : heap.
Variable tasks : list loc.
Variable alpha : Z.

Lemma init_dict_keys {V} (v : loc → V) (l : list loc) x :
  is_Some (foldl (fun m t => <[tid h t := v t]> m) (∅ : gmap Z V) l !! x)
  ↔ x ∈ tid h <$> l.
Proof.
  induction l as [|t l IH] using rev_ind.
  - simpl. rewrite lookup_empty, is_Some_alt. split; [done|by intros ?%elem_of_nil].
  - rewrite foldl_snoc, lookup_insert_is_Some', IH, fmap_app, elem_of_app. simpl.
    rewrite list_elem_of_singleton. intuition congruence.
Qed.

Lemma add_edge_keys t deps st :
  tid h t ∈ tid h <$> tasks →
  ((∀ x, is_Some (st.1 !! x) ↔ x ∈ tid h <$> tasks) ∧
   (∀ x, is_Some (st.2 !! x) ↔ x ∈ tid h <$> tasks)) →
  (∀ x, is_Some ((foldl (add_edge h tasks t) st deps).1 !! x) ↔ x ∈ tid h <$> tasks) ∧
  (∀ x, is_Some ((foldl (add_edge h tasks t) st deps).2 !! x) ↔ x ∈ tid h <$> tasks).
Proof.
  intros Ht. revert st. induction deps as [|d deps IH]; intros st Hst; [done|].
  simpl. apply IH. unfold add_edge.
  destruct (decide (is_Some (task_map h tasks !! d))) as [Hd|Hd]; [|done].
  apply task_map_is_Some in Hd. destruct Hst as [H1 H2]. simpl.
  split; intros x; rewrite lookup_insert_is_Some', ?H1, ?H2;
    (split; [intros [<-|?]; done|intros ?; by right]).
Qed.

Lemma build_keys :
  (∀ x, is_Some (graph h tasks !! x) ↔ x ∈ tid h <$> tasks) ∧
  (∀ x, is_Some (in_degree0 h tasks !! x) ↔ x ∈ tid h <$> tasks).
Proof.
  unfold graph, in_degree0, build.
  assert (∀ l st,
    (∀ t, t ∈ l → t ∈ tasks) →
    ((∀ x, is_Some (st.1 !! x) ↔ x ∈ tid h <$> tasks) ∧
     (∀ x, is_Some (st.2 !! x) ↔ x ∈ tid h <$> tasks)) →
    (∀ x, is_Some ((foldl (add_edges h tasks) st l).1 !! x) ↔ x ∈ tid h <$> tasks) ∧
    (∀ x, is_Some ((foldl (add_edges h tasks) st l).2 !! x) ↔ x ∈ tid h <$> tasks))
    as Hfold.
  { induction l as [|t l IH]; intros st Hl Hst; [done|]. simpl.
    apply IH; [intros; apply Hl; by right|]. unfold add_edges.
    apply add_edge_keys; [|done]. apply list_elem_of_fmap_2, Hl. by left. }
  apply Hfold; [done|]. split; intros x; apply init_dict_keys.
Qed.

Lemma graph_keys x : is_Some (graph h tasks !! x) ↔ x ∈ tid h <$> tasks.
Proof. apply build_keys. Qed.

Lemma in_degree_keys x : is_Some (in_degree0 h tasks !! x) ↔ x ∈ tid h <$> tasks.
Proof. apply build_keys. Qed.

Lemma relax_keys nbrs st :
  (∀ y, y ∈ nbrs → y ∈ tid h <$> tasks) →
  (∀ x, is_Some (st.1 !! x) ↔ x ∈ tid h <$> tasks) →
  ∀ x, is_Some ((relax h tasks nbrs st).1 !! x) ↔ x ∈ tid h <$> tasks.
Proof.
  unfold relax. revert st. induction nbrs as [|y nbrs IH]; intros st Hn Hst; [done|].
  simpl. apply IH; [intros; apply Hn; by right|].
  assert (y ∈ tid h <$> tasks) by (apply Hn; by left).
  intros x. unfold relax_one. simpl.
  destruct (decide (<[y:=st.1 !!! y - 1]> st.1 !!! y = 0)); simpl;
    rewrite lookup_insert_is_Some', Hst;
    (split; [intros [<-|?]; done|intros ?; by right]).
Qed.

(** During the loop [in_degree] keeps the keys it was built with. *)
Lemma kahn_reaches_keys s :
  kahn_reaches h tasks alpha s →
  ∀ x, is_Some (in_degree s !! x) ↔ x ∈ tid h <$> tasks.
Proof.
  revert s.
  apply (kahn_reaches_ind h tasks alpha
           (fun s => ∀ x, is_Some (in_degree s !! x) ↔ x ∈ tid h <$> tasks)).
  - apply in_degree_keys.
  - intros s s' _. unfold kahn_iter, kahn_step.
    destruct (zero_in_degree s); [done|]. intros [= <-] IH. simpl.
    apply relax_keys; [apply graph_elem|done].
Qed.
End dictionary_keys.

(** ** Kahn's invariant when ids are unique *)
Section kahn_unique.
Variable h : heap.
Variable tasks : list loc.
Variable alpha : Z.
Hypothesis Huniq : NoDup (tid h <$> tasks).

Lemma unique_NoDup : NoDup tasks.
Proof. by eapply NoDup_fmap_1. Qed.

Lemma tid_elem_unique (l : list loc) r :
  (∀ t, t ∈ l → t ∈ tasks) → r ∈ tasks → tid h r ∈ tid h <$> l → r ∈ l.
Proof.
  intros Hsub Hr (r' & Heq & Hr')%list_elem_of_fmap.
  by rewrite (tid_inj_on h tasks r r' Huniq Hr (Hsub _ Hr') Heq).
Qed.

Lemma kahn_init_inv : kahn_inv h tasks (kahn_init h tasks alpha).
Proof.
  unfold kahn_inv. split_and!.
  - intros t Ht. simpl. rewrite pending_nil. by apply in_degree0_unique.
  - intros t. simpl. rewrite list_sort_elem, list_elem_of_filter.
    split; [intros [? ?]; split_and!; [done|apply not_elem_of_nil|done]|tauto].
  - simpl. by intros t ?%elem_of_nil.
  - apply kahn_init_once, unique_NoDup.
  - intros i t d Hi. simpl in Hi. by rewrite lookup_nil in Hi.
Qed.

Lemma kahn_iter_inv s s' :
  kahn_iter h tasks alpha s s' → kahn_inv h tasks s → kahn_inv h tasks s'.
Proof.
  intros Hstep (Hdeg & Hpool & Hsub & Honce & Hfirst).
  pose proof (kahn_iter_once _ _ _ _ _ Hstep Honce) as Honce'.
  revert Hstep Honce'. unfold kahn_iter, kahn_step.
  destruct (zero_in_degree s) as [|c rest] eqn:Epool; [done|].
  intros [= <-] Honce'. simpl in *.
  assert (c ∈ tasks ∧ (c ∉ sorted_list s) ∧ in_degree s !!! tid h c = 0)
    as (Hc & Hcs & Hc0) by (apply Hpool; by left).
  assert (tid h c ∈ tid h <$> tasks) as Hcid by by apply list_elem_of_fmap_2.
  assert (tid h c ∉ tid h <$> sorted_list s) as Hcnot.
  { intros ?. apply Hcs. by apply tid_elem_unique. }
  assert (∀ t, t ∈ tasks →
            (relax h tasks (graph h tasks !!! tid h c) (in_degree s, rest)).1
              !!! tid h t
            = pending h tasks (sorted_list s ++ [c]) t) as Hdeg'.
  { intros t Ht. rewrite relax_deg, pending_snoc by done. simpl.
    rewrite Hdeg by done. by rewrite graph_unique. }
  destruct Honce as [Hnd Hle].
  apply NoDup_app in Hnd as (_ & _ & [Hcrest _]%NoDup_cons).
  unfold kahn_inv. simpl. split_and!; [done| | |done|].
  - intros t. rewrite list_sort_elem.
    destruct (relax_pool h tasks (graph h tasks !!! tid h c) (in_degree s, rest))
      as (added & Eadd & Hadded).
    rewrite Eadd. simpl in *. rewrite elem_of_app, Hadded. split.
    + intros [Ht|(x & Hx & -> & Hpos)].
      * assert (t ∈ tasks ∧ (t ∉ sorted_list s) ∧ in_degree s !!! tid h t = 0)
          as (Htt & Hts & Ht0) by (apply Hpool; by right).
        split_and!; [done| |].
        -- rewrite elem_of_app, list_elem_of_singleton. intros [?| ->]; done.
        -- pose proof (Hdeg' t Htt) as E. rewrite relax_deg in E. simpl in E.
           pose proof (pending_nonneg h tasks (sorted_list s ++ [c]) t).
           pose proof (occurrences_nonneg (tid h t) (graph h tasks !!! tid h c)).
           rewrite relax_deg. simpl. lia.
      * apply graph_elem in Hx.
        destruct (task_map_total h tasks x Hx) as [Htt Htid].
        split_and!; [done| |].
        -- intros Hin. assert (in_degree s !!! x ≤ 0); [|lia].
           rewrite <- Htid. apply Hle.
           rewrite elem_of_app in Hin |- *. rewrite list_elem_of_singleton in Hin.
           destruct Hin as [?| ->]; [by left|right; by left].
        -- pose proof (Hdeg' _ Htt) as E. rewrite Htid in E |- *.
           rewrite relax_deg in E |- *. simpl in *.
           pose proof (pending_nonneg h tasks (sorted_list s ++ [c])
                         (task_map h tasks !!! x)). lia.
    + intros (Htt & Hts & Ht0).
      rewrite elem_of_app, list_elem_of_singleton in Hts.
      rewrite relax_deg in Ht0. simpl in Ht0.
      pose proof (Hdeg t Htt) as E.
      pose proof (pending_nonneg h tasks (sorted_list s) t).
      destruct (decide (in_degree s !!! tid h t = 0)) as [Hz|Hz].
      * left. assert (t ∈ c :: rest) as [->|?]%elem_of_cons; [|tauto|done].
        apply Hpool. split_and!; [done|tauto|done].
      * right. exists (tid h t). split_and!.
        -- apply occurrences_pos. lia.
        -- symmetry. by apply task_map_total_unique.
        -- lia.
        -- lia.
  - intros t. rewrite elem_of_app, list_elem_of_singleton.
    intros [?| ->]; [by apply Hsub|done].
  - intros i t d Hi Hd Hin.
    apply lookup_snoc_Some in Hi as [[Hlt Hi]|[-> <-]].
    + destruct (Hfirst i t d Hi Hd Hin) as (j & r & ? & Hj & ?).
      exists j, r. split_and!; [done| |done].
      rewrite lookup_app_l; [done|]. by eapply lookup_lt_Some.
    + assert (d ∈ tid h <$> sorted_list s) as (r & -> & Hr)%list_elem_of_fmap.
      { eapply pending_zero; [|done..]. rewrite <- Hdeg by done. done. }
      apply list_elem_of_lookup_1 in Hr as [j Hj].
      exists j, r. split_and!; [by eapply lookup_lt_Some| |done].
      rewrite lookup_app_l; [done|]. by eapply lookup_lt_Some.
Qed.

Lemma kahn_reaches_inv s :
  kahn_reaches h tasks alpha s → kahn_inv h tasks s.
Proof.
  revert s. apply (kahn_reaches_ind h tasks alpha (kahn_inv h tasks)).
  - apply kahn_init_inv.
  - intros s s' _ Hstep IH. by eapply kahn_iter_inv.
Qed.
End kahn_unique.

(** ** A finite set in which every element has a predecessor has a cycle *)
Section no_source.
Context (R : relation Z) (S : list Z).
Hypothesis Hpred : ∀ x, x ∈ S → ∃ y, y ∈ S ∧ R y x.

Lemma chain_or_cycle n x :
  x ∈ S →
  (∃ a, tc R a a) ∨
  ∃ y p, length p = n ∧ NoDup (y :: p) ∧ (∀ z, z ∈ y :: p → z ∈ S) ∧
         ∀ z, z ∈ y :: p → rtc R y z.
Proof.
  intros Hx. induction n as [|n IH].
  - right. exists x, []. split_and!; [done|apply NoDup_singleton|..].
    + by intros z ->%list_elem_of_singleton.
    + by intros z ->%list_elem_of_singleton.
  - destruct IH as [?|(y & p & Hlen & Hnd & Hsub & Hreach)]; [by left|].
    destruct (Hpred y) as (y' & Hy' & Hstep); [apply Hsub; by left|].
    destruct (decide (y' ∈ y :: p)) as [Hin|Hout].
    + left. exists y. eapply tc_rtc_l; [by apply Hreach|by apply tc_once].
    + right. exists y', (y :: p). split_and!.
      * simpl. by rewrite Hlen.
      * by apply NoDup_cons.
      * intros z [->|?]%elem_of_cons; [done|by apply Hsub].
      * intros z [->|Hz]%elem_of_cons; [done|].
        eapply rtc_l; [done|by apply Hreach].
Qed.

Lemma no_source_cycle : S ≠ [] → ∃ a, tc R a a.
Proof.
  intros Hne.
  assert (∃ x, x ∈ S) as [x Hx].
  { clear Hpred. destruct S as [|x S']; [done|]. exists x. by left. }
  destruct (chain_or_cycle (length S) x) as [?|(y & p & Hlen & Hnd & Hsub & _)];
    [done..|].
  apply NoDup_submseteq with (k := S) in Hnd; [|done].
  apply submseteq_length in Hnd. simpl in Hnd. lia.
Qed.
End no_source.

(** ** What the ordering engine returns *)
Section sort_result.
Variable h : heap.
Variable tasks : list loc.
Variable alpha : Z.

(** The loop ends in a reachable state with an empty pool. *)
Lemma kahn_final :
  ∃ s, kahn_loop h tasks alpha (length tasks) (kahn_init h tasks alpha) = Some s ∧
       kahn_reaches h tasks alpha s ∧ zero_in_degree s = [] ∧
       (length (sorted_list s) ≤ length tasks)%nat.
Proof.
  destruct (kahn_loop_total h tasks alpha) as (k & s & Hk & Hloop & Hsteps & Hend).
  exists s. split_and!; [done| | |].
  - by eapply rtc_nsteps_2.
  - by apply kahn_step_None in Hend.
  - apply kahn_nsteps_length in Hsteps. simpl in Hsteps. lia.
Qed.

Lemma topological_sort_Return out :
  topological_sort_with_priority h tasks alpha = Return out →
  ∃ s, kahn_reaches h tasks alpha s ∧ zero_in_degree s = [] ∧
       sorted_list s = out ∧ length out = length tasks.
Proof.
  unfold topological_sort_with_priority.
  destruct kahn_final as (s & -> & Hs & Hend & _).
  case_decide as Hlen; [done|]. intros [= <-]. exists s.
  by split_and!.
Qed.

Lemma topological_sort_outcomes :
  (∃ out, topological_sort_with_priority h tasks alpha = Return out) ∨
  topological_sort_with_priority h tasks alpha = Raise CycleError.
Proof.
  unfold topological_sort_with_priority.
  destruct kahn_final as (s & -> & _).
  case_decide; [by right|left; by eexists].
Qed.

Lemma topological_sort_sub out :
  topological_sort_with_priority h tasks alpha = Return out →
  ∀ r, r ∈ out → r ∈ tasks.
Proof.
  intros (s & Hs & _ & <- & _)%topological_sort_Return r Hr.
  eapply kahn_reaches_sub; [done|]. apply elem_of_app. by left.
Qed.

Lemma topological_sort_NoDup out :
  NoDup tasks →
  topological_sort_with_priority h tasks alpha = Return out → NoDup out.
Proof.
  intros Hnd (s & Hs & Hend & <- & _)%topological_sort_Return.
  destruct (kahn_reaches_once h tasks alpha s Hnd Hs) as [H _].
  by apply NoDup_app in H as [? _].
Qed.

Lemma topological_sort_perm out :
  NoDup tasks →
  topological_sort_with_priority h tasks alpha = Return out → out ≡ₚ tasks.
Proof.
  intros Hnd Hout. apply submseteq_length_Permutation.
  - apply NoDup_submseteq; [by eapply topological_sort_NoDup|].
    by eapply topological_sort_sub.
  - apply topological_sort_Return in Hout as (s & _ & _ & _ & ->). done.
Qed.

Section unique_ids.
Hypothesis Huniq : NoDup (tid h <$> tasks).

Lemma topological_sort_deps_first out :
  topological_sort_with_priority h tasks alpha = Return out →
  deps_first h tasks out.
Proof.
  intros (s & Hs & _ & <- & _)%topological_sort_Return.
  by apply (kahn_reaches_inv h tasks alpha Huniq s Hs).
Qed.

Lemma deps_first_before out dep t :
  out ≡ₚ tasks → deps_first h tasks out →
  dep ∈ tasks → t ∈ tasks → tid h dep ∈ dependencies (h t) →
  strictly_before dep t out.
Proof.
  intros Hperm Hfirst Hdep Ht Hd. unfold strictly_before.
  split_and!; [by rewrite Hperm..|].
  intros i j Hi Hj.
  destruct (Hfirst j t (tid h dep) Hj Hd) as (j' & r & Hlt & Hj' & Hr).
  { by apply list_elem_of_fmap_2. }
  assert (r = dep) as ->.
  { eapply tid_inj_on; [done| |done..].
    rewrite <- Hperm. by eapply list_elem_of_lookup_2. }
  assert (NoDup out) as Hnd by (rewrite Hperm; by eapply NoDup_fmap_1).
  by rewrite (NoDup_lookup _ _ _ _ Hnd Hi Hj').
Qed.

(** When the loop ends with tasks left over, the left-over ids contain
    a cycle. *)
Lemma inv_leftover_cycle s :
  kahn_inv h tasks s → zero_in_degree s = [] →
  length (sorted_list s) ≠ length tasks → has_cycle h tasks.
Proof.
  intros (Hdeg & Hpool & Hsub & [Hnd _] & _) Hend Hlen.
  rewrite Hend, app_nil_r in Hnd.
  pose (S := filter (fun x => x ∉ tid h <$> sorted_list s) (tid h <$> tasks)).
  apply (no_source_cycle (dep_edge h tasks) S).
  - intros x [Hx (t & -> & Ht)%list_elem_of_fmap]%list_elem_of_filter.
    assert (t ∉ sorted_list s) as Hts.
    { intros ?. apply Hx. by apply list_elem_of_fmap_2. }
    assert (in_degree s !!! tid h t ≠ 0) as Hnz.
    { intros Hz. assert (t ∈ zero_in_degree s) as Hin by by apply Hpool.
      rewrite Hend in Hin. by apply elem_of_nil in Hin. }
    rewrite Hdeg in Hnz by done.
    pose proof (pending_nonneg h tasks (sorted_list s) t).
    destruct (pending_pos h tasks (sorted_list s) t) as (d & Hd & Hdin & Hdout);
      [lia|].
    exists d. split.
    + apply list_elem_of_filter. by split.
    + split; [done|]. by exists t.
  - destruct (Forall_Exists_dec (fun t => t ∈ sorted_list s)
                (fun t => t ∉ sorted_list s)
                (fun t => decide (t ∈ sorted_list s)) tasks) as [Hall|Hex].
    + exfalso. rewrite Forall_forall in Hall.
      pose proof (NoDup_submseteq _ _ (unique_NoDup h tasks Huniq) Hall) as Hle.
      apply submseteq_length in Hle.
      pose proof (NoDup_submseteq _ _ Hnd Hsub) as Hge.
      apply submseteq_length in Hge. lia.
    + apply Exists_exists in Hex as (t & Ht & Hts).
      intros Hnil.
      assert (tid h t ∈ S) as Hin; [|rewrite Hnil in Hin; by apply elem_of_nil in Hin].
      apply list_elem_of_filter. split; [|by apply list_elem_of_fmap_2].
      intros ?. apply Hts. by apply (tid_elem_unique h tasks Huniq).
Qed.

Lemma leftover_cycle s :
  kahn_reaches h tasks alpha s → zero_in_degree s = [] →
  length (sorted_list s) ≠ length tasks → has_cycle h tasks.
Proof.
  intros Hs. apply inv_leftover_cycle. by apply (kahn_reaches_inv h tasks alpha).
Qed.

(** An order that puts dependencies first puts the source of every
    path first. *)
Lemma deps_first_path out a b :
  out ≡ₚ tasks → deps_first h tasks out →
  tc (dep_edge h tasks) a b →
  ∀ i j ra rb, out !! i = Some ra → out !! j = Some rb →
               tid h ra = a → tid h rb = b → (i < j)%nat.
Proof.
  intros Hperm Hfirst Hab.
  assert (∀ a b i j ra rb, dep_edge h tasks a b →
            out !! i = Some ra → out !! j = Some rb →
            tid h ra = a → tid h rb = b → (i < j)%nat) as Hedge.
  { clear a b Hab. intros a b i j ra rb (Ha & t & Ht & Htb & Hd) Hi Hj Hra Hrb.
    assert (ra ∈ tasks) by (rewrite <- Hperm; by eapply list_elem_of_lookup_2).
    assert (rb ∈ tasks) by (rewrite <- Hperm; by eapply list_elem_of_lookup_2).
    assert (rb = t) as -> by (eapply tid_inj_on; [done..|congruence]).
    eapply (deps_first_before out ra t Hperm Hfirst); [done..|congruence|done|done]. }
  induction Hab as [a b Hstep|a b c Hstep Hbc IH]; intros i j ra rb Hi Hj Hra Hrb.
  - by eapply Hedge.
  - pose proof Hstep as (_ & t & Ht & Htb & _).
    rewrite <- Hperm in Ht. apply list_elem_of_lookup_1 in Ht as [k Hk].
    assert (i < k)%nat by by eapply Hedge.
    assert (k < j)%nat by by eapply IH. lia.
Qed.

(** A list that puts dependencies first shows that there is no cycle. *)
Lemma deps_first_acyclic out :
  out ≡ₚ tasks → deps_first h tasks out → ¬ has_cycle h tasks.
Proof.
  intros Hperm Hfirst [a Hcyc].
  assert (a ∈ tid h <$> tasks) as (r & -> & Hr)%list_elem_of_fmap.
  { assert (∀ x y, tc (dep_edge h tasks) x y → x ∈ tid h <$> tasks) as Hsrc
      by (intros x y [? ? [? _]|? ? ? [? _] _]; done).
    by eapply Hsrc. }
  rewrite <- Hperm in Hr. apply list_elem_of_lookup_1 in Hr as [i Hi].
  pose proof (deps_first_path out _ _ Hperm Hfirst Hcyc i i r r Hi Hi eq_refl eq_refl).
  lia.
Qed.

Lemma cycle_not_Return out :
  has_cycle h tasks → topological_sort_with_priority h tasks alpha ≠ Return out.
Proof.
  intros Hcyc Hout. apply (deps_first_acyclic out); [| |done].
  - apply (topological_sort_perm out (unique_NoDup h tasks Huniq) Hout).
  - by apply topological_sort_deps_first.
Qed.
End unique_ids.
End sort_result.

(** ** The backward pass *)
Section backward_facts.
Variable h : heap.
Variable T : Z.


Lemma backward_cons x l : backward h T (x :: l) = place (backward h T l) x.
Proof. unfold backward. by rewrite reverse_cons, foldl_snoc. Qed.

Lemma place_other st x r : r ≠ x → (place st x).1 r = st.1 r.
Proof. intros Hne. unfold place, set_times. simpl. by rewrite decide_False. Qed.

Lemma place_same st x : same_task ((place st x).1 x) (st.1 x).
Proof. unfold place, set_times. simpl. by rewrite decide_True. Qed.

Lemma place_window st x :
  window ((place st x).1 x)
  = Some (Z.min st.2 (deadline (st.1 x)) - duration (st.1 x),
          Z.min st.2 (deadline (st.1 x))).
Proof. unfold place, set_times, window. simpl. by rewrite decide_True. Qed.

Lemma place_cursor st x :
  (place st x).2 = Z.min st.2 (deadline (st.1 x)) - duration (st.1 x).
Proof. done. Qed.

Lemma same_task_refl a : same_task a a.
Proof. by unfold same_task. Qed.

Lemma same_task_trans a b c : same_task a b → same_task b c → same_task a c.
Proof. unfold same_task. intros (?&?&?&?&?&?) (?&?&?&?&?&?). split_and!; congruence. Qed.

(** Only the time fields change. *)
Lemma backward_same l r : same_task ((backward h T l).1 r) (h r).
Proof.
  induction l as [|x l IH]; [apply same_task_refl|].
  rewrite backward_cons. destruct (decide (r = x)) as [->|Hne].
  - eapply same_task_trans; [apply place_same|done].
  - by rewrite place_other.
Qed.

Lemma backward_deadline l r : deadline ((backward h T l).1 r) = deadline (h r).
Proof. by destruct (backward_same l r) as (?&?&?&?&?&?). Qed.

Lemma backward_duration l r : duration ((backward h T l).1 r) = duration (h r).
Proof. by destruct (backward_same l r) as (?&?&?&?&?&?). Qed.

(** Objects outside the list are not touched. *)
Lemma backward_frame l r : r ∉ l → (backward h T l).1 r = h r.
Proof.
  induction l as [|x l IH]; [done|].
  intros [Hne Hr]%not_elem_of_cons. rewrite backward_cons, place_other by done.
  by apply IH.
Qed.


Lemma backward_head x l :
  window ((backward h T (x :: l)).1 x)
  = Some ((backward h T (x :: l)).2,
          Z.min (backward h T l).2 (deadline (h x))).
Proof.
  rewrite backward_cons, place_window, place_cursor.
  by rewrite backward_deadline.
Qed.

(** Every task of the list gets a window that ends by its deadline and
    lasts for its duration. *)
Lemma backward_window l r :
  r ∈ l →
  ∃ s f, window ((backward h T l).1 r) = Some (s, f) ∧
         f ≤ deadline (h r) ∧ f = s + duration (h r).
Proof.
  induction l as [|x l IH]; [by intros ?%elem_of_nil|].
  intros Hr. destruct (decide (r = x)) as [->|Hne].
  - rewrite backward_head, backward_cons, place_cursor.
    rewrite backward_deadline, backward_duration.
    eexists _, _. split; [done|]. lia.
  - rewrite backward_cons, place_other by done.
    apply IH. by apply elem_of_cons in Hr as [?|?].
Qed.



End backward_facts.

Section sort_failure.
Variable h : heap.
Variable tasks : list loc.
Variable alpha : Z.

Lemma topological_sort_Raise e :
  topological_sort_with_priority h tasks alpha = Raise e →
  e = CycleError ∧
  ∃ s, kahn_reaches h tasks alpha s ∧ zero_in_degree s = [] ∧
       length (sorted_list s) ≠ length tasks.
Proof.
  unfold topological_sort_with_priority.
  destruct (kahn_final h tasks alpha) as (s & -> & Hs & Hend & _).
  case_decide as Hlen; [|done]. intros [= <-]. split; [done|]. by exists s.
Qed.

Lemma topological_sort_not_Timeout :
  topological_sort_with_priority h tasks alpha ≠ Timeout.
Proof.
  unfold topological_sort_with_priority.
  destruct (kahn_final h tasks alpha) as (s & -> & _). by case_decide.
Qed.
End sort_failure.

(** ** What the scheduler returns *)
Section schedule_facts.
Variable h : heap.
Variable tasks : list loc.
Variable alpha : Z.

Lemma elem_of_tasks_to_do r :
  r ∈ tasks_to_do h tasks ↔ status (h r) ∈ valid_statuses ∧ r ∈ tasks.
Proof. unfold tasks_to_do. by rewrite list_elem_of_filter. Qed.

Lemma max_deadline_Some l : l ≠ [] → is_Some (max_deadline h l).
Proof. destruct l; [done|]. intros _. by eexists. Qed.

Lemma schedule_nil :
  tasks_to_do h tasks = [] →
  schedule_tasks_with_priority h tasks alpha = (Return [], h).
Proof. unfold schedule_tasks_with_priority. by intros ->. Qed.

Lemma schedule_cons :
  tasks_to_do h tasks ≠ [] →
  schedule_tasks_with_priority h tasks alpha
  = match topological_sort_with_priority h (tasks_to_do h tasks) alpha with
    | Return tasks_ordered =>
        match max_deadline h tasks_ordered with
        | None => (Raise ValueError, h)
        | Some current_time =>
            (Return tasks_ordered, (backward h current_time tasks_ordered).1)
        end
    | Raise e => (Raise e, h)
    | Timeout => (Timeout, h)
    end.
Proof.
  unfold schedule_tasks_with_priority.
  by destruct (tasks_to_do h tasks) eqn:E.
Qed.

(** A successful call either had nothing to plan, or ran the ordering
    engine and then the backward pass from the largest deadline. *)
Lemma schedule_Return out h' :
  schedule_tasks_with_priority h tasks alpha = (Return out, h') →
  (tasks_to_do h tasks = [] ∧ out = [] ∧ h' = h) ∨
  ∃ T, topological_sort_with_priority h (tasks_to_do h tasks) alpha = Return out ∧
       max_deadline h out = Some T ∧ h' = (backward h T out).1.
Proof.
  destruct (decide (tasks_to_do h tasks = [])) as [E|E].
  - rewrite schedule_nil by done. intros [= <- <-]. by left.
  - rewrite schedule_cons by done.
    destruct (topological_sort_with_priority h (tasks_to_do h tasks) alpha)
      as [l| |] eqn:Hsort; [|done..].
    destruct (max_deadline h l) as [T|] eqn:Hmax; [|done].
    intros [= <- <-]. right. by exists T.
Qed.

Lemma schedule_sub out h' :
  schedule_tasks_with_priority h tasks alpha = (Return out, h') →
  ∀ r, r ∈ out → r ∈ tasks_to_do h tasks.
Proof.
  intros [(_ & -> & _)|(T & Hsort & _)]%schedule_Return r Hr.
  - by apply elem_of_nil in Hr.
  - by eapply topological_sort_sub.
Qed.

(** The heap after the call differs from the heap before it only at
    planned tasks. *)
Lemma schedule_frame r :
  r ∉ tasks_to_do h tasks →
  (schedule_tasks_with_priority h tasks alpha).2 r = h r.
Proof.
  intros Hr. destruct (decide (tasks_to_do h tasks = [])) as [E|E].
  - by rewrite schedule_nil.
  - rewrite schedule_cons by done.
    destruct (topological_sort_with_priority h (tasks_to_do h tasks) alpha)
      as [l| |] eqn:Hsort; [|done..].
    destruct (max_deadline h l); [|done]. simpl.
    apply backward_frame. intros ?. by eapply Hr, topological_sort_sub.
Qed.

(** The scheduler returns a list or signals a cycle; [max] is never
    applied to an empty sequence and the loop never runs on. *)
Lemma schedule_outcomes :
  (∃ out, (schedule_tasks_with_priority h tasks alpha).1 = Return out) ∨
  schedule_tasks_with_priority h tasks alpha = (Raise CycleError, h).
Proof.
  destruct (decide (tasks_to_do h tasks = [])) as [E|E].
  - rewrite schedule_nil by done. left. by eexists.
  - rewrite schedule_cons by done.
    destruct (topological_sort_with_priority h (tasks_to_do h tasks) alpha)
      as [l|e|] eqn:Hsort.
    + destruct (max_deadline_Some l) as [T ->]; [|left; by eexists].
      apply topological_sort_Return in Hsort as (_ & _ & _ & _ & Hlen).
      intros ->. destruct (tasks_to_do h tasks); done.
    + apply topological_sort_Raise in Hsort as [-> _]. by right.
    + by apply topological_sort_not_Timeout in Hsort.
Qed.
End schedule_facts.

(** ** The order of the pool *)
Section pool_order.
Variable h : heap.
Variable tasks : list loc.
Variable alpha : Z.

Lemma list_sort_keeps_ties {A} (key : A → Z) l : keeps_ties key l (list_sort key l).
Proof. split; [apply list_sort_perm|]. intros k. apply list_sort_stable. Qed.

Lemma kahn_reaches_ascending s :
  kahn_reaches h tasks alpha s →
  ascending (effective_deadline h alpha) (zero_in_degree s).
Proof.
  revert s.
  apply (kahn_reaches_ind h tasks alpha
           (fun s => ascending (effective_deadline h alpha) (zero_in_degree s))).
  - apply list_sort_ascending.
  - intros s s' _. unfold kahn_iter, kahn_step.
    destruct (zero_in_degree s); [done|]. intros [= <-] _. apply list_sort_ascending.
Qed.

Lemma ascending_head {A} (key : A → Z) x l :
  ascending key (x :: l) → ∀ y, y ∈ l → key x ≤ key y.
Proof.
  intros Hasc y [i Hi]%list_elem_of_lookup_1.
  apply (Hasc 0%nat (S i)); [done..|lia].
Qed.
End pool_order.

(** ** Windows of the returned tasks *)
Section schedule_windows.
Variable h : heap.
Variable tasks : list loc.
Variable alpha : Z.

Lemma filter_none {A} (P : A → Prop) `{∀ x, Decision (P x)} (l : list A) :
  (∀ x, x ∈ l → ¬ P x) → filter P l = [].
Proof.
  induction l as [|x l IH]; [done|]. intros Hl.
  rewrite filter_cons_False by (apply Hl; by left).
  apply IH. intros y Hy. apply Hl. by right.
Qed.

Lemma tasks_to_do_NoDup : NoDup tasks → NoDup (tasks_to_do h tasks).
Proof. unfold tasks_to_do. by apply NoDup_filter. Qed.



(** Every returned task has a window that ends by its deadline and lasts
    for its duration. *)
Lemma schedule_window out h' r :
  schedule_tasks_with_priority h tasks alpha = (Return out, h') → r ∈ out →
  same_task (h' r) (h r) ∧
  ∃ s f, window (h' r) = Some (s, f) ∧ f ≤ deadline (h r) ∧ f = s + duration (h r).
Proof.
  intros [(_ & -> & _)|(T & _ & _ & ->)]%schedule_Return Hr.
  - by apply elem_of_nil in Hr.
  - split; [apply backward_same|by apply backward_window].
Qed.


End schedule_windows.

(** ** Evaluation on concrete inputs *)

Lemma pair_eta {A B} (p : A * B) : p = (p.1, p.2).
Proof. by destruct p. Defined.

Lemma acyclic_of_Return h tasks alpha out :
  NoDup (tid h <$> tasks) →
  topological_sort_with_priority h tasks alpha = Return out → acyclic h tasks.
Proof.
  intros Huniq Hout a Hcyc.
  eapply (cycle_not_Return h tasks alpha Huniq out); [by exists a|done].
Qed.

Lemma demo_unique : NoDup (tid Demo.raw <$> Demo.raw_tasks).
Proof. by_compute. Qed.

Lemma demo_schedule alpha out :
  (schedule_tasks_with_priority Demo.raw Demo.raw_tasks alpha).1 = Return out →
  schedule_tasks_with_priority Demo.raw Demo.raw_tasks alpha
  = (Return out, (schedule_tasks_with_priority Demo.raw Demo.raw_tasks alpha).2).
Proof. intros <-. apply pair_eta. Qed.

(** The program's own example: the order for [alpha = 0] and [alpha = 5],
    and the windows for [alpha = 0]. *)
Example demo_order_alpha0 :
  (schedule_tasks_with_priority Demo.raw Demo.raw_tasks 0).1
  = Return [0; 1; 2; 3; 5]%nat.
Proof. vm_compute. reflexivity. Qed.

Example demo_order_alpha5 :
  (schedule_tasks_with_priority Demo.raw Demo.raw_tasks 5).1
  = Return [1; 0; 3; 2; 5]%nat.
Proof. vm_compute. reflexivity. Qed.

Example demo_windows_alpha0 :
  (fun r => window ((schedule_tasks_with_priority Demo.raw Demo.raw_tasks 0).2 r))
    <$> Demo.raw_tasks
  = [Some (30, 40); Some (40, 45); Some (45, 50); Some (50, 60); None; Some (65, 70)].
Proof. vm_compute. reflexivity. Qed.

(** Without unique ids a cycle can go unnoticed: the two tasks with id 3
    release task 1 although it still waits for task 2. *)
Example duplicate_ids_hide_cycle :
  has_cycle Duplicate.store Duplicate.tasks ∧
  topological_sort_with_priority Duplicate.store Duplicate.tasks 0
  = Return [0; 1; 2; 3]%nat.
Proof.
  split; [|vm_compute; reflexivity].
  exists 1. eapply tc_l; [|apply tc_once].
  - split; [by_compute|]. exists 3%nat. split_and!; [by_compute|done|by_compute].
  - split; [by_compute|]. exists 2%nat. split_and!; [by_compute|done|by_compute].
Qed.

(** * Properties of the program on Python numbers *)

(** ** Properties of [list.sort] for any keys *)
Section sort_by_facts.
Context {A K : Type} (lt : K → K → bool) (key : A → K).
Implicit Types l : list A.

Lemma insert_by_perm x l : insert_by lt key x l ≡ₚ x :: l.
Proof.
  induction l as [|y l IH]; simpl; [done|].
  case_match; [|done]. rewrite IH. apply Permutation_swap.
Qed.

Lemma sort_by_perm l : sort_by lt key l ≡ₚ l.
Proof.
  induction l as [|x l IH]; simpl; [done|].
  by rewrite insert_by_perm, IH.
Qed.

Lemma sort_by_elem x l : x ∈ sort_by lt key l ↔ x ∈ l.
Proof. by rewrite sort_by_perm. Qed.

Lemma sort_by_length l : length (sort_by lt key l) = length l.
Proof. by rewrite sort_by_perm. Qed.

Lemma sort_by_ext (key' : A → K) l :
  (∀ x, x ∈ l → key x = key' x) → sort_by lt key l = sort_by lt key' l.
Proof.
  induction l as [|x l IH]; intros E; simpl; [done|].
  rewrite <- IH by (intros; apply E; by right).
  assert (∀ y, y ∈ sort_by lt key l → key y = key' y) as E'.
  { intros y Hy. apply E. right. by apply sort_by_elem. }
  assert (key x = key' x) as Ex by (apply E; by left).
  revert E'. generalize (sort_by lt key l). intros l'.
  induction l' as [|y l' IH']; intros E'; simpl; [done|].
  rewrite <- Ex, <- (E' y) by by left.
  rewrite IH'; [done|]. intros; apply E'; by right.
Qed.

Lemma weak_order_sub l l' :
  (∀ x, x ∈ l' → x ∈ l) → weak_order_on lt key l → weak_order_on lt key l'.
Proof.
  intros Hsub [Hasym Htrans]. split.
  - intros a b Ha Hb. apply Hasym; by apply Hsub.
  - intros a b c Ha Hb Hc. apply Htrans; by apply Hsub.
Qed.

Lemma ascending_by_sorted l :
  StronglySorted (in_order lt key) l → ascending_by lt key l.
Proof.
  induction 1 as [|y l Hs IH Hy]; intros i j a b Hi Hj Hij.
  - by rewrite lookup_nil in Hi.
  - destruct j as [|j]; [lia|]. simpl in Hj.
    destruct i as [|i]; simpl in Hi.
    + injection Hi as <-. rewrite Forall_forall in Hy.
      apply Hy. by eapply list_elem_of_lookup_2.
    + eapply IH; [done..|lia].
Qed.

Lemma sorted_ascending_by l :
  ascending_by lt key l → StronglySorted (in_order lt key) l.
Proof.
  induction l as [|x l IH]; intros Hasc; constructor.
  - apply IH. intros i j a b Hi Hj Hij.
    apply (Hasc (S i) (S j)); [done..|lia].
  - apply Forall_forall. intros y [j Hj]%list_elem_of_lookup_1.
    apply (Hasc 0%nat (S j)); [done..|lia].
Qed.

Section weak_order.
Variable D : A → Prop.
Hypothesis Hasym : ∀ a b, D a → D b →
  lt (key a) (key b) = true → lt (key b) (key a) = false.
Hypothesis Htrans : ∀ a b c, D a → D b → D c →
  lt (key a) (key c) = true →
  lt (key a) (key b) = true ∨ lt (key b) (key c) = true.

Lemma in_order_refl a : D a → in_order lt key a a.
Proof.
  intros Ha. unfold in_order.
  destruct (lt (key a) (key a)) eqn:E; [|done]. by rewrite (Hasym a a) in E.
Qed.

Lemma in_order_trans a b c :
  D a → D b → D c →
  in_order lt key a b → in_order lt key b c → in_order lt key a c.
Proof.
  unfold in_order. intros Ha Hb Hc Hab Hbc.
  destruct (lt (key c) (key a)) eqn:E; [|done].
  destruct (Htrans c b a Hc Hb Ha E); congruence.
Qed.

Lemma tied_trans a b c :
  D a → D b → D c → tied lt key a b → tied lt key b c → tied lt key a c.
Proof.
  intros Ha Hb Hc [? ?] [? ?]. split; by eapply (in_order_trans _ b).
Qed.

Lemma insert_by_sorted x l :
  D x → Forall D l →
  StronglySorted (in_order lt key) l →
  StronglySorted (in_order lt key) (insert_by lt key x l).
Proof.
  intros Hx Hl Hs. induction Hs as [|y l Hs IH Hy]; simpl.
  - repeat constructor.
  - apply Forall_cons in Hl as [HDy Hl].
    destruct (lt (key y) (key x)) eqn:E.
    + constructor; [by apply IH|].
      rewrite insert_by_perm. constructor; [|done].
      by apply Hasym.
    + constructor; [by constructor|].
      constructor; [done|].
      rewrite Forall_forall in Hy, Hl |- *. intros z Hz.
      apply (in_order_trans x y z); [done|done|by apply Hl|done|by apply Hy].
Qed.

Lemma sort_by_sorted l :
  Forall D l → StronglySorted (in_order lt key) (sort_by lt key l).
Proof.
  induction 1 as [|x l Hx Hl IH]; simpl; [constructor|].
  apply insert_by_sorted; [done| |done].
  apply Forall_forall. intros y Hy. rewrite sort_by_elem in Hy.
  rewrite Forall_forall in Hl. by apply Hl.
Qed.

(** Stability: elements with tied keys keep their relative order. *)
Lemma insert_by_stable a x l :
  D a → D x → Forall D l →
  filter (fun y => tied lt key y a) (insert_by lt key x l)
  = filter (fun y => tied lt key y a) (x :: l).
Proof.
  intros Ha Hx Hl. induction Hl as [|y l Hy Hl IH]; simpl; [done|].
  destruct (lt (key y) (key x)) eqn:E; [|done].
  rewrite (filter_cons _ y), IH, !filter_cons.
  destruct (decide (tied lt key y a)) as [Hya|Hya],
           (decide (tied lt key x a)) as [Hxa|Hxa]; try done.
  exfalso.
  assert (tied lt key x y) as [Hxy _].
  { apply (tied_trans x a y); [done..|].
    destruct Hya. by split. }
  unfold in_order in Hxy. congruence.
Qed.

Lemma sort_by_stable a l :
  D a → Forall D l →
  filter (fun y => tied lt key y a) (sort_by lt key l)
  = filter (fun y => tied lt key y a) l.
Proof.
  intros Ha Hl. induction Hl as [|x l Hx Hl IH]; simpl; [done|].
  rewrite insert_by_stable; [|done..|].
  - by rewrite !filter_cons, IH.
  - apply Forall_forall. intros y Hy. rewrite sort_by_elem in Hy.
    rewrite Forall_forall in Hl. by apply Hl.
Qed.

(** A sorted list is determined by its groups of tied elements. *)
Lemma sorted_ties_eq l1 l2 :
  Forall D l1 → Forall D l2 →
  StronglySorted (in_order lt key) l1 → StronglySorted (in_order lt key) l2 →
  (∀ a, D a → filter (fun y => tied lt key y a) l1
              = filter (fun y => tied lt key y a) l2) →
  l1 = l2.
Proof.
  intros HD1 HD2 H1. revert l2 HD2.
  induction H1 as [|x l1 Hs1 IH Hx]; intros l2 HD2 H2 Hf.
  - destruct l2 as [|y l2]; [done|].
    apply Forall_cons in HD2 as [HDy _]. specialize (Hf y HDy).
    rewrite filter_cons_True in Hf; [done|].
    split; by apply in_order_refl.
  - apply Forall_cons in HD1 as [HDx HD1].
    assert (tied lt key x x) as Hxx by (split; by apply in_order_refl).
    destruct H2 as [|y l2 Hs2 Hy].
    { specialize (Hf x HDx). by rewrite filter_cons_True in Hf. }
    apply Forall_cons in HD2 as [HDy HD2].
    assert (tied lt key y y) as Hyy by (split; by apply in_order_refl).
    assert (x ∈ y :: l2) as Hxin.
    { pose proof (Hf x HDx) as E. rewrite filter_cons_True in E by done.
      assert (x ∈ filter (fun z => tied lt key z x) (y :: l2)) as Hin
        by (rewrite <- E; by left).
      by apply list_elem_of_filter in Hin as [_ ?]. }
    assert (y ∈ x :: l1) as Hyin.
    { pose proof (Hf y HDy) as E. rewrite (filter_cons_True _ y) in E by done.
      assert (y ∈ filter (fun z => tied lt key z y) (x :: l1)) as Hin
        by (rewrite E; by left).
      by apply list_elem_of_filter in Hin as [_ ?]. }
    rewrite Forall_forall in Hx, Hy.
    assert (tied lt key y x) as Hk.
    { apply elem_of_cons in Hxin as [->|Hxin]; [done|].
      apply elem_of_cons in Hyin as [->|Hyin]; [done|].
      split; [by apply Hy|by apply Hx]. }
    pose proof (Hf x HDx) as E.
    rewrite !filter_cons_True in E by done. injection E as <- E.
    f_equal. apply IH; [done..|]. intros a Ha. specialize (Hf a Ha).
    rewrite !filter_cons in Hf. destruct (decide (tied lt key x a)); [|done].
    by injection Hf.
Qed.
End weak_order.

Lemma weak_order_Forall l : Forall (fun x => x ∈ l) l.
Proof. by apply Forall_forall. Qed.

Lemma sort_by_ascending l :
  weak_order_on lt key l → ascending_by lt key (sort_by lt key l).
Proof.
  intros [Hasym Htrans]. apply ascending_by_sorted.
  apply (sort_by_sorted (fun x => x ∈ l)); [done..|apply weak_order_Forall].
Qed.

Lemma sort_by_keeps_ties l :
  weak_order_on lt key l → keeps_ties_by lt key l (sort_by lt key l).
Proof.
  intros [Hasym Htrans]. split; [apply sort_by_perm|]. intros a Ha.
  apply (sort_by_stable (fun x => x ∈ l)); [done..|apply weak_order_Forall].
Qed.

(** Every list that is ascending and keeps the ties of [l] is the list
    that [sort_by] returns: a stable sort is determined by its input. *)
Lemma sort_by_unique l l' :
  weak_order_on lt key l →
  ascending_by lt key l' → keeps_ties_by lt key l l' →
  l' = sort_by lt key l.
Proof.
  intros Hwo Hasc [Hperm Hties]. pose proof Hwo as [Hasym Htrans].
  apply (sorted_ties_eq (fun x => x ∈ l)); [done..| | | | |].
  - apply Forall_forall. intros x. by rewrite Hperm.
  - apply Forall_forall. intros x. by rewrite sort_by_elem.
  - by apply sorted_ascending_by.
  - apply sorted_ascending_by. by apply sort_by_ascending.
  - intros a Ha. rewrite Hties by done. symmetry.
    by apply sort_by_keeps_ties.
Qed.

(** The first element of an ascending list has a least key. *)
Lemma ascending_by_head x l :
  ascending_by lt key (x :: l) → ∀ y, y ∈ l → in_order lt key x y.
Proof.
  intros Hasc y [j Hj]%list_elem_of_lookup_1.
  apply (Hasc 0%nat (S j)); [done..|lia].
Qed.

Lemma sort_by_id l :
  StronglySorted (in_order lt key) l → sort_by lt key l = l.
Proof.
  induction 1 as [|y l Hs IH Hy]; simpl; [done|].
  rewrite IH. destruct l as [|z l]; simpl; [done|].
  apply Forall_cons in Hy as [Hy _]. unfold in_order in Hy. by rewrite Hy.
Qed.
End sort_by_facts.

(** ** Comparisons of Python numbers *)
Section number_facts.

Lemma SFltb_rank f g :
  f ≠ S754_nan → g ≠ S754_nan →
  SFltb f g = true ↔ lex_lt (float_rank f) (float_rank g).
Proof.
  intros Hf Hg. unfold SFltb, SFcompare, lex_lt.
  destruct f as [[]|[]| |[] m1 e1], g as [[]|[]| |[] m2 e2]; simpl; try done;
    try (split; [done|lia]); try (split; [lia|done]);
    try (split; [intros _; lia|done]);
    destruct (Z.compare_spec e1 e2); try (split; [intros _; lia|done]);
    try (split; [done|lia]);
    rewrite ?Pos.compare_cont_spec; simpl;
    destruct (Pos.compare_spec m1 m2); simpl;
    try (split; [intros _; lia|done]); try (split; [done|lia]).
Qed.

Lemma forallb_elem {A} (f : A → bool) (l : list A) x :
  forallb f l = true → x ∈ l → f x = true.
Proof.
  induction l as [|y l IH]; simpl; [by intros _ ?%elem_of_nil|].
  intros [? ?]%andb_true_iff [->|?]%elem_of_cons; [done|by apply IH].
Qed.

Lemma comparable_keys_sub (ks ks' : list num) :
  (∀ k, k ∈ ks' → k ∈ ks) → comparable_keys ks → comparable_keys ks'.
Proof.
  intros Hsub [H|H]; [left|right];
    (induction ks' as [|k ks' IH]; simpl; [done|]; apply andb_true_iff; split;
     [apply (forallb_elem _ ks); [done|apply Hsub; by left]
     |apply IH; intros; apply Hsub; by right]).
Qed.

Lemma py_lt_weak_order {A} (key : A → num) (l : list A) :
  comparable_keys (key <$> l) → weak_order_on py_lt key l.
Proof.
  intros [Hint|Hfl].
  - assert (∀ a, a ∈ l → ∃ z, key a = Int z) as H.
    { intros a Ha. apply (list_elem_of_fmap_2 key) in Ha.
      apply (forallb_elem _ _ _ Hint) in Ha. destruct (key a); [by eexists|done]. }
    split.
    + intros a b [x ->]%H [y ->]%H. simpl. lia.
    + intros a b c [x ->]%H [y ->]%H [z ->]%H. simpl. lia.
  - assert (∀ a, a ∈ l → ∃ f, key a = Float f ∧ f ≠ S754_nan) as H.
    { intros a Ha. apply (list_elem_of_fmap_2 key) in Ha.
      apply (forallb_elem _ _ _ Hfl) in Ha.
      destruct (key a) as [|f]; [done|]. exists f. split; [done|].
      by intros ->. }
    split.
    + intros a b (x & -> & Hx)%H (y & -> & Hy)%H. simpl.
      intros E%SFltb_rank; [|done..].
      destruct (SFltb y x) eqn:E'; [|done].
      apply SFltb_rank in E'; [|done..]. unfold lex_lt in *. lia.
    + intros a b c (x & -> & Hx)%H (y & -> & Hy)%H (z & -> & Hz)%H. simpl.
      intros E%SFltb_rank; [|done..].
      destruct (SFltb x y) eqn:E1; [by left|].
      destruct (SFltb y z) eqn:E2; [by right|]. exfalso.
      assert (¬ lex_lt (float_rank x) (float_rank y)) as N1.
      { intros ?%SFltb_rank; [congruence|done..]. }
      assert (¬ lex_lt (float_rank y) (float_rank z)) as N2.
      { intros ?%SFltb_rank; [congruence|done..]. }
      unfold lex_lt in *. lia.
Qed.

End number_facts.

(** ** The loop for any sort of the pool

    What the loop does to the counters and to the output does not depend
    on the order in which the sort leaves the pool: an iteration differs
    from an iteration of the first part only in the order of the new
    pool, and the invariants do not speak of that order. *)
Section any_order.
Variable h : heap.
Variable tasks : list loc.

Lemma kahn_inv_perm s s' :
  in_degree s' = in_degree s → sorted_list s' = sorted_list s →
  zero_in_degree s' ≡ₚ zero_in_degree s →
  kahn_inv h tasks s → kahn_inv h tasks s'.
Proof.
  intros Ed Es Ep (Hdeg & Hpool & Hsub & [Hnd Hle] & Hfirst).
  unfold kahn_inv, once_inv. rewrite Ed, Es. split_and!; [done| |done| | |done].
  - intros t. rewrite Ep. apply Hpool.
  - by rewrite Ep.
  - intros r. rewrite Ep. apply Hle.
Qed.

Lemma once_inv_perm deg done pool pool' :
  pool' ≡ₚ pool → once_inv h deg done pool → once_inv h deg done pool'.
Proof.
  intros Ep [Hnd Hle]. split; [by rewrite Ep|].
  intros r. rewrite Ep. apply Hle.
Qed.

Lemma budget_perm s s' :
  in_degree s' = in_degree s → zero_in_degree s' ≡ₚ zero_in_degree s →
  budget h tasks s' = budget h tasks s.
Proof. intros Ed Ep. unfold budget. by rewrite Ed, Ep. Qed.

Lemma any_start_kahn s0 :
  any_start h tasks s0 →
  in_degree s0 = in_degree (kahn_init h tasks 0) ∧
  sorted_list s0 = sorted_list (kahn_init h tasks 0) ∧
  zero_in_degree s0 ≡ₚ zero_in_degree (kahn_init h tasks 0).
Proof.
  intros (Ed & Ep & Es). simpl. split_and!; [done..|].
  by rewrite list_sort_perm.
Qed.

Lemma any_iter_kahn s s' :
  any_iter h tasks s s' →
  ∃ s'', kahn_iter h tasks 0 s s'' ∧
         in_degree s' = in_degree s'' ∧ sorted_list s' = sorted_list s'' ∧
         zero_in_degree s' ≡ₚ zero_in_degree s''.
Proof.
  intros (c & rest & Ep & Ed & Eperm & Es). eexists. split.
  - unfold kahn_iter, kahn_step. rewrite Ep. reflexivity.
  - simpl. split_and!; [done..|]. by rewrite list_sort_perm.
Qed.

(** Every iteration uses up one unit of the budget. *)
Lemma any_iter_budget s s' :
  any_iter h tasks s s' → budget h tasks s = S (budget h tasks s').
Proof.
  intros (s'' & Hstep & Ed & _ & Ep)%any_iter_kahn.
  rewrite (budget_perm s'' s') by done. by eapply kahn_step_budget.
Qed.

Lemma any_start_budget s0 :
  any_start h tasks s0 → (budget h tasks s0 ≤ length tasks)%nat.
Proof.
  intros (Ed & _ & Ep)%any_start_kahn.
  rewrite (budget_perm _ s0 Ed Ep). apply kahn_init_budget.
Qed.

Lemma any_iter_length s s' :
  any_iter h tasks s s' → length (sorted_list s') = S (length (sorted_list s)).
Proof.
  intros (c & rest & _ & _ & _ & ->). rewrite length_app. simpl. lia.
Qed.

Lemma any_reaches_ind (P : kstate → Prop) :
  (∀ s0, any_start h tasks s0 → P s0) →
  (∀ s s', any_reaches h tasks s → any_iter h tasks s s' → P s → P s') →
  ∀ s, any_reaches h tasks s → P s.
Proof.
  intros Hinit Hstep s (s0 & Hs0 & Hrtc).
  eapply (rtc_ind_r (fun s => P s) s0); [by apply Hinit| |done].
  intros y z Hy Hyz IH. eapply Hstep; [by exists s0|done..].
Qed.

(** The tasks in the pool and in the output are tasks of the input. *)
Lemma any_reaches_sub s :
  any_reaches h tasks s →
  ∀ r, r ∈ sorted_list s ++ zero_in_degree s → r ∈ tasks.
Proof.
  revert s. apply (any_reaches_ind
    (fun s => ∀ r, r ∈ sorted_list s ++ zero_in_degree s → r ∈ tasks)).
  - intros s0 (_ & Ep & ->) r. rewrite Ep. simpl.
    by intros [_ ?]%list_elem_of_filter.
  - intros s s' _ (s'' & Hstep & _ & Es & Ep)%any_iter_kahn IH r.
    rewrite Es, Ep. by apply (kahn_iter_sub h tasks 0 s s'').
Qed.

(** The list that an iteration hands to the sort holds tasks of the
    input. *)
Lemma any_reaches_relax_sub s current rest :
  any_reaches h tasks s → zero_in_degree s = current :: rest →
  ∀ r, r ∈ (relax h tasks (graph h tasks !!! tid h current) (in_degree s, rest)).2 →
       r ∈ tasks.
Proof.
  intros Hs Ep r Hr.
  apply (kahn_iter_sub h tasks 0 s
           (mkK (relax h tasks (graph h tasks !!! tid h current) (in_degree s, rest)).1
                (list_sort (effective_deadline h 0)
                   (relax h tasks (graph h tasks !!! tid h current) (in_degree s, rest)).2)
                (sorted_list s ++ [current]))).
  - unfold kahn_iter, kahn_step. by rewrite Ep.
  - by apply any_reaches_sub.
  - simpl. rewrite elem_of_app, list_sort_elem. by right.
Qed.

Lemma any_reaches_once s :
  NoDup tasks → any_reaches h tasks s →
  once_inv h (in_degree s) (sorted_list s) (zero_in_degree s).
Proof.
  intros Hnd. revert s. apply (any_reaches_ind
    (fun s => once_inv h (in_degree s) (sorted_list s) (zero_in_degree s))).
  - intros s0 (Ed & Es & Ep)%any_start_kahn. rewrite Ed, Es.
    apply (once_inv_perm _ _ _ _ Ep). by apply kahn_init_once.
  - intros s s' _ (s'' & Hstep & Ed & Es & Ep)%any_iter_kahn IH.
    rewrite Ed, Es. apply (once_inv_perm _ _ _ _ Ep).
    by apply (kahn_iter_once h tasks 0 s s'').
Qed.

(** During the loop [in_degree] keeps the keys it was built with. *)
Lemma any_reaches_keys s :
  any_reaches h tasks s →
  ∀ x, is_Some (in_degree s !! x) ↔ x ∈ tid h <$> tasks.
Proof.
  revert s. apply (any_reaches_ind
    (fun s => ∀ x, is_Some (in_degree s !! x) ↔ x ∈ tid h <$> tasks)).
  - intros s0 (-> & _). apply in_degree_keys.
  - intros s s' _ (c & rest & _ & -> & _) IH.
    apply relax_keys; [apply graph_elem|done].
Qed.

Lemma any_reaches_inv s :
  NoDup (tid h <$> tasks) → any_reaches h tasks s → kahn_inv h tasks s.
Proof.
  intros Huniq. revert s. apply (any_reaches_ind (kahn_inv h tasks)).
  - intros s0 (Ed & Es & Ep)%any_start_kahn.
    apply (kahn_inv_perm (kahn_init h tasks 0)); [done..|].
    by apply kahn_init_inv.
  - intros s s' _ (s'' & Hstep & Ed & Es & Ep)%any_iter_kahn IH.
    apply (kahn_inv_perm s''); [done..|].
    by apply (kahn_iter_inv h tasks 0 Huniq s).
Qed.
End any_order.

(** ** The ordering engine for any sort of the pool *)
Section order_facts.
Variable sort_pool : list loc → outcome (list loc).
Variable h : heap.
Variable tasks : list loc.
Hypothesis Hperm : ∀ l l', sort_pool l = Return l' → l' ≡ₚ l.
Hypothesis Hends : ∀ l, sort_pool l ≠ Timeout.

Lemma order_init_start s0 :
  order_init sort_pool h tasks = Return s0 → any_start h tasks s0.
Proof.
  unfold order_init.
  destruct (sort_pool _) as [pool| |] eqn:E; [|done..].
  intros [= <-]. split_and!; [done| |done]. by apply Hperm.
Qed.

Lemma order_iter_any s s' :
  order_iter sort_pool h tasks s s' → any_iter h tasks s s'.
Proof.
  unfold order_iter, order_step.
  destruct (zero_in_degree s) as [|c rest] eqn:Ep; [done|].
  destruct (sort_pool _) as [pool| |] eqn:E; [|done..].
  intros [= <-]. exists c, rest. split_and!; [done..| |done]. by apply Hperm.
Qed.

Lemma order_reaches_any s :
  order_reaches sort_pool h tasks s → any_reaches h tasks s.
Proof.
  intros (s0 & Hs0 & Hrtc). exists s0. split; [by apply order_init_start|].
  eapply rtc_subrel; [|done]. intros x y. apply order_iter_any.
Qed.

Lemma order_reaches_ind (P : kstate → Prop) :
  (∀ s0, order_init sort_pool h tasks = Return s0 → P s0) →
  (∀ s s', order_reaches sort_pool h tasks s →
           order_iter sort_pool h tasks s s' → P s → P s') →
  ∀ s, order_reaches sort_pool h tasks s → P s.
Proof.
  intros Hinit Hstep s (s0 & Hs0 & Hrtc).
  eapply (rtc_ind_r (fun s => P s) s0); [by apply Hinit| |done].
  intros y z Hy Hyz IH. eapply Hstep; [by exists s0|done..].
Qed.


Lemma order_step_cases s :
  match order_step sort_pool h tasks s with
  | None => zero_in_degree s = []
  | Some (Return s') => order_iter sort_pool h tasks s s'
  | Some (Raise e) =>
      ∃ current rest,
        zero_in_degree s = current :: rest ∧
        sort_pool (relax h tasks (graph h tasks !!! tid h current)
                     (in_degree s, rest)).2 = Raise e
  | Some Timeout => False
  end.
Proof.
  unfold order_iter, order_step.
  destruct (zero_in_degree s) as [|c rest] eqn:Ep; [done|].
  destruct (sort_pool _) as [pool|e|] eqn:Es; [done| |by destruct (Hends _ Es)].
  by exists c, rest.
Qed.

(** With a budget of [n] the loop exits within [n] iterations, at an
    empty pool or at a sort that raises. *)
Lemma order_loop_budget n s :
  (budget h tasks s ≤ n)%nat →
  (∃ s', order_loop sort_pool h tasks n s = Return s' ∧
         rtc (order_iter sort_pool h tasks) s s' ∧ zero_in_degree s' = []) ∨
  (∃ e s' current rest,
      order_loop sort_pool h tasks n s = Raise e ∧
      rtc (order_iter sort_pool h tasks) s s' ∧
      zero_in_degree s' = current :: rest ∧
      sort_pool (relax h tasks (graph h tasks !!! tid h current)
                   (in_degree s', rest)).2 = Raise e).
Proof.
  revert s. induction n as [|n IH]; intros s Hb; simpl;
    pose proof (order_step_cases s) as Hcase;
    destruct (order_step sort_pool h tasks s) as [[s'|e|]|] eqn:E; try done.
  - apply order_iter_any, any_iter_budget in E. lia.
  - right. destruct Hcase as (c & rest & ? & ?). by exists e, s, c, rest.
  - left. by exists s.
  - pose proof (any_iter_budget _ _ _ _ (order_iter_any _ _ E)).
    destruct (IH s') as [(s'' & ? & ? & ?)|(e & s'' & c & rest & ? & ? & ? & ?)];
      [lia|left|right].
    + exists s''. split_and!; [done| |done]. by eapply rtc_l.
    + exists e, s'', c, rest. split_and!; [done| |done..]. by eapply rtc_l.
  - right. destruct Hcase as (c & rest & ? & ?). by exists e, s, c, rest.
  - left. by exists s.
Qed.

(** The three ways in which the ordering ends: the loop empties the pool
    with every task in the output, or with tasks left over, or a sort
    raises. *)
Lemma order_with_cases :
  (∃ s, order_reaches sort_pool h tasks s ∧ zero_in_degree s = [] ∧
        length (sorted_list s) = length tasks ∧
        order_with sort_pool h tasks = Return (sorted_list s)) ∨
  (∃ s, order_reaches sort_pool h tasks s ∧ zero_in_degree s = [] ∧
        length (sorted_list s) ≠ length tasks ∧
        order_with sort_pool h tasks = Raise CycleError) ∨
  (∃ e l, order_with sort_pool h tasks = Raise e ∧ sort_pool l = Raise e ∧
          ∀ r, r ∈ l → r ∈ tasks).
Proof.
  unfold order_with.
  destruct (order_init sort_pool h tasks) as [s0|e|] eqn:E0.
  - pose proof (order_init_start _ E0) as Hs0.
    destruct (order_loop_budget (length tasks) s0 (any_start_budget _ _ _ Hs0))
      as [(s & -> & Hrtc & Hend)|(e & s & c & rest & -> & Hrtc & Ep & Hsort)].
    + assert (order_reaches sort_pool h tasks s) by by exists s0.
      case_decide as Hlen.
      * right; left. by exists s.
      * left. exists s. split_and!; [done..|lia|done].
    + right; right. eexists e, _. split_and!; [done..|].
      apply any_reaches_relax_sub; [|done].
      apply order_reaches_any. by exists s0.
  - right; right. revert E0. unfold order_init.
    destruct (sort_pool _) as [pool|e'|] eqn:Es; [done| |done].
    intros [= <-]. eexists e', _. split_and!; [done..|].
    by intros r [_ ?]%list_elem_of_filter.
  - revert E0. unfold order_init.
    destruct (sort_pool _) as [pool| |] eqn:Es; [done|done|by destruct (Hends _ Es)].
Qed.

Lemma order_with_Return out :
  order_with sort_pool h tasks = Return out →
  ∃ s, order_reaches sort_pool h tasks s ∧ zero_in_degree s = [] ∧
       sorted_list s = out ∧ length out = length tasks.
Proof.
  destruct order_with_cases
    as [(s & ? & ? & ? & ->)|[(s & ? & ? & ? & ->)|(e & l & -> & _)]]; [|done..].
  intros [= <-]. by exists s.
Qed.

Lemma order_with_not_Timeout : order_with sort_pool h tasks ≠ Timeout.
Proof.
  by destruct order_with_cases
    as [(s & ? & ? & ? & ->)|[(s & ? & ? & ? & ->)|(e & l & -> & _)]].
Qed.

Lemma order_with_sub out :
  order_with sort_pool h tasks = Return out → ∀ r, r ∈ out → r ∈ tasks.
Proof.
  intros (s & Hs & _ & <- & _)%order_with_Return r Hr.
  eapply any_reaches_sub; [by apply order_reaches_any|].
  apply elem_of_app. by left.
Qed.

Lemma order_with_NoDup out :
  NoDup tasks → order_with sort_pool h tasks = Return out → NoDup out.
Proof.
  intros Hnd (s & Hs & Hend & <- & _)%order_with_Return.
  destruct (any_reaches_once h tasks s Hnd (order_reaches_any _ Hs)) as [H _].
  by apply NoDup_app in H as [? _].
Qed.

Lemma order_with_perm out :
  NoDup tasks → order_with sort_pool h tasks = Return out → out ≡ₚ tasks.
Proof.
  intros Hnd Hout. apply submseteq_length_Permutation.
  - apply NoDup_submseteq; [by eapply order_with_NoDup|].
    by eapply order_with_sub.
  - apply order_with_Return in Hout as (s & _ & _ & _ & ->). done.
Qed.

Section unique_ids.
Hypothesis Huniq : NoDup (tid h <$> tasks).

Lemma order_with_deps_first out :
  order_with sort_pool h tasks = Return out → deps_first h tasks out.
Proof.
  intros (s & Hs & _ & <- & _)%order_with_Return.
  by apply (any_reaches_inv h tasks s Huniq (order_reaches_any _ Hs)).
Qed.

Lemma order_with_no_cycle out :
  order_with sort_pool h tasks = Return out → ¬ has_cycle h tasks.
Proof.
  intros Hout. apply (deps_first_acyclic h tasks Huniq out).
  - by apply order_with_perm; [eapply unique_NoDup|].
  - by apply order_with_deps_first.
Qed.

(** An exception is the one of line 73, raised for a cycle, or the
    exception of a sort. *)
Lemma order_with_Raise e :
  order_with sort_pool h tasks = Raise e →
  (e = CycleError ∧ has_cycle h tasks) ∨
  (∃ l, sort_pool l = Raise e ∧ ∀ r, r ∈ l → r ∈ tasks).
Proof.
  destruct order_with_cases
    as [(s & ? & ? & ? & ->)|[(s & Hs & ? & ? & ->)|(e' & l & -> & ? & ?)]];
    [done| |].
  - intros [= <-]. left. split; [done|].
    apply (inv_leftover_cycle h tasks Huniq s); [|done..].
    by apply any_reaches_inv; [|apply order_reaches_any].
  - intros [= <-]. right. by exists l.
Qed.
End unique_ids.
End order_facts.

(** ** The tasks that an iteration appends to the pool *)
Section released_facts.
Variable h : heap.
Variable tasks : list loc.

Lemma released_snoc deg nbrs y :
  released h tasks deg (nbrs ++ [y])
  = released h tasks deg nbrs
    ++ (if decide (deg !!! y - occurrences y nbrs = 1)
        then [task_map h tasks !!! y] else []).
Proof.
  unfold released. rewrite length_app. simpl.
  rewrite Nat.add_1_r, seq_S, omap_app. simpl. f_equal.
  - apply list_omap_ext, Forall2_same_length_lookup. split; [done|].
    intros i a b Ha Hb. assert (a = b) as <- by congruence.
    apply lookup_seq in Ha as [-> Hlt]. simpl.
    rewrite lookup_app_l by done.
    destruct (nbrs !! i) as [x|]; simpl; [|done].
    by rewrite take_app_le by lia.
  - rewrite lookup_app_r by done. rewrite Nat.sub_diag. simpl.
    rewrite firstn_all2 by (rewrite length_app; simpl; lia).
    rewrite occurrences_app.
    assert (occurrences y [y] = 1) as ->.
    { unfold occurrences. by rewrite filter_cons_True. }
    destruct (decide (occurrences y nbrs + 1 = deg !!! y)),
             (decide (deg !!! y - occurrences y nbrs = 1)); try done; lia.
Qed.

(** The inner loop appends exactly the released tasks, in the order of
    [graph[current.id]]. *)
Lemma relax_released nbrs deg pool :
  (relax h tasks nbrs (deg, pool)).2 = pool ++ released h tasks deg nbrs.
Proof.
  induction nbrs as [|y nbrs IH] using rev_ind.
  - simpl. by rewrite app_nil_r.
  - unfold relax in *. rewrite foldl_snoc, relax_one_pool, IH, released_snoc.
    rewrite <- app_assoc. do 2 f_equal.
    pose proof (relax_deg h tasks nbrs (deg, pool) y) as E. unfold relax in E.
    rewrite E. done.
Qed.
End released_facts.

(** ** The ordering engine on Python numbers *)
Section py_order.
Variable h : Py.heap.
Variable alpha : num.

Lemma sort_pool_computable l :
  (∀ t, t ∈ l → is_Some (Py.effective_deadline h alpha t)) →
  Py.sort_pool h alpha l = Return (sort_by py_lt (Py.key h alpha) l).
Proof.
  intros Hl. unfold Py.sort_pool.
  destruct (mapM_is_Some_2 (Py.effective_deadline h alpha) l) as [ks ->]; [|done].
  by apply Forall_forall.
Qed.

Lemma sort_pool_Return l l' :
  Py.sort_pool h alpha l = Return l' →
  l' = sort_by py_lt (Py.key h alpha) l ∧
  ∀ t, t ∈ l → Py.effective_deadline h alpha t = Some (Py.key h alpha t).
Proof.
  unfold Py.sort_pool.
  destruct (mapM (Py.effective_deadline h alpha) l) as [ks|] eqn:E; [|done].
  intros [= <-]. split; [done|]. intros t Ht.
  assert (is_Some (mapM (Py.effective_deadline h alpha) l)) as Hs by by eexists.
  apply mapM_is_Some_1 in Hs. rewrite Forall_forall in Hs.
  destruct (Hs t Ht) as [k Hk]. simpl in Hk. unfold Py.key. by rewrite Hk.
Qed.

Lemma sort_pool_Raise l e :
  Py.sort_pool h alpha l = Raise e →
  e = OverflowError ∧ ∃ t, t ∈ l ∧ Py.effective_deadline h alpha t = None.
Proof.
  unfold Py.sort_pool.
  destruct (mapM (Py.effective_deadline h alpha) l) as [ks|] eqn:E; [done|].
  intros [= <-]. split; [done|].
  apply mapM_None_1, Exists_exists in E. done.
Qed.

Lemma sort_pool_perm l l' : Py.sort_pool h alpha l = Return l' → l' ≡ₚ l.
Proof. intros [-> _]%sort_pool_Return. apply sort_by_perm. Qed.

Lemma sort_pool_ends l : Py.sort_pool h alpha l ≠ Timeout.
Proof. unfold Py.sort_pool. by destruct (mapM _ l). Qed.

Variable tasks : list loc.

Lemma py_reaches_any s :
  order_reaches (Py.sort_pool h alpha) (Py.erase h) tasks s →
  any_reaches (Py.erase h) tasks s.
Proof. apply order_reaches_any, sort_pool_perm. Qed.

(** The call returns a list, raises the exception of line 73, or raises
    the [OverflowError] of a sort key. *)
Lemma py_sort_outcomes :
  (∃ out, Py.topological_sort_with_priority h tasks alpha = Return out) ∨
  Py.topological_sort_with_priority h tasks alpha = Raise CycleError ∨
  (Py.topological_sort_with_priority h tasks alpha = Raise OverflowError ∧
   ∃ t, t ∈ tasks ∧ Py.effective_deadline h alpha t = None).
Proof.
  unfold Py.topological_sort_with_priority.
  destruct (order_with_cases (Py.sort_pool h alpha) (Py.erase h) tasks
              sort_pool_perm sort_pool_ends)
    as [(s & _ & _ & _ & ->)|[(s & _ & _ & _ & ->)|(e & l & -> & Hl & Hsub)]].
  - left. by eexists.
  - right. by left.
  - right. right. apply sort_pool_Raise in Hl as (-> & t & Ht & Hnone).
    split; [done|]. exists t. split; [by apply Hsub|done].
Qed.

Lemma py_sort_perm out :
  NoDup tasks →
  Py.topological_sort_with_priority h tasks alpha = Return out → out ≡ₚ tasks.
Proof. apply order_with_perm; [apply sort_pool_perm|apply sort_pool_ends]. Qed.

Lemma py_sort_sub out :
  Py.topological_sort_with_priority h tasks alpha = Return out →
  ∀ r, r ∈ out → r ∈ tasks.
Proof. apply order_with_sub; [apply sort_pool_perm|apply sort_pool_ends]. Qed.

Lemma py_sort_length out :
  Py.topological_sort_with_priority h tasks alpha = Return out →
  length out = length tasks.
Proof.
  intros (s & _ & _ & _ & ?)%order_with_Return;
    [done|apply sort_pool_perm|apply sort_pool_ends].
Qed.

Section unique_ids.
Hypothesis Huniq : NoDup (tid (Py.erase h) <$> tasks).

Lemma py_sort_deps_first out :
  Py.topological_sort_with_priority h tasks alpha = Return out →
  deps_first (Py.erase h) tasks out.
Proof.
  by apply order_with_deps_first; [apply sort_pool_perm|apply sort_pool_ends|].
Qed.

Lemma py_sort_no_cycle out :
  Py.topological_sort_with_priority h tasks alpha = Return out →
  ¬ has_cycle (Py.erase h) tasks.
Proof.
  by apply order_with_no_cycle; [apply sort_pool_perm|apply sort_pool_ends|].
Qed.

Lemma py_sort_Raise e :
  Py.topological_sort_with_priority h tasks alpha = Raise e →
  (e = CycleError ∧ has_cycle (Py.erase h) tasks) ∨
  (e = OverflowError ∧ ∃ t, t ∈ tasks ∧ Py.effective_deadline h alpha t = None).
Proof.
  intros [?|(l & Hl & Hsub)]%order_with_Raise;
    [by left|right|apply sort_pool_perm|apply sort_pool_ends|done].
  apply sort_pool_Raise in Hl as (-> & t & Ht & Hnone).
  split; [done|]. exists t. split; [by apply Hsub|done].
Qed.
End unique_ids.
End py_order.

(** ** The backward pass on Python numbers *)
Section py_backward.

Lemma py_same_task_refl a : Py.same_task a a.
Proof. by repeat split. Qed.

Lemma py_same_task_trans a b c :
  Py.same_task a b → Py.same_task b c → Py.same_task a c.
Proof.
  unfold Py.same_task. intros (?&?&?&?&?&?) (?&?&?&?&?&?).
  split_and!; congruence.
Qed.

Lemma py_set_times_same h t s f r : Py.same_task (Py.set_times h t s f r) (h r).
Proof.
  unfold Py.set_times. destruct (decide (r = t)) as [->|]; by repeat split.
Qed.

Lemma py_place_Some st t st' :
  Py.place st t = Some st' →
  ∃ s, py_sub (py_min st.2 (Py.deadline (st.1 t))) (Py.duration (st.1 t)) = Some s ∧
       st' = (Py.set_times st.1 t s (py_min st.2 (Py.deadline (st.1 t))), s).
Proof.
  unfold Py.place.
  destruct (py_sub _ _) as [s|]; simpl; [|done]. intros [= <-]. by exists s.
Qed.

(** Whatever the outcome, the pass changes time fields only. *)
Lemma py_backward_same st l r :
  Py.same_task ((Py.backward st l).2 r) (st.1 r).
Proof.
  revert st. induction l as [|t l IH]; intros st; simpl.
  - apply py_same_task_refl.
  - destruct (Py.place st t) as [st'|] eqn:E; [|apply py_same_task_refl].
    apply py_place_Some in E as (s & _ & ->).
    eapply py_same_task_trans; [apply IH|]. apply py_set_times_same.
Qed.

Lemma py_backward_frame st l r :
  r ∉ l → (Py.backward st l).2 r = st.1 r.
Proof.
  revert st. induction l as [|t l IH]; intros st Hr; simpl; [done|].
  apply not_elem_of_cons in Hr as [Hne Hr].
  destruct (Py.place st t) as [st'|] eqn:E; [|done].
  apply py_place_Some in E as (s & _ & ->).
  rewrite IH by done. simpl. unfold Py.set_times. by rewrite decide_False.
Qed.

(** When the pass ends normally, every task of the list has a window
    whose start is [finish - duration] as Python computes it. *)
Lemma py_backward_window st l u h' r :
  Py.backward st l = (Return u, h') → r ∈ l →
  ∃ s f, Py.start_time (h' r) = Some s ∧ Py.finish_time (h' r) = Some f ∧
         py_sub f (Py.duration (st.1 r)) = Some s.
Proof.
  revert st. induction l as [|t l IH]; intros st Hb Hr; [by apply elem_of_nil in Hr|].
  simpl in Hb. destruct (Py.place st t) as [st'|] eqn:E; [|done].
  apply py_place_Some in E as (s & Hs & ->).
  destruct (decide (r ∈ l)) as [Hin|Hout].
  - destruct (IH _ Hb Hin) as (s' & f' & ? & ? & Hsub). exists s', f'.
    split_and!; [done..|].
    destruct (py_set_times_same st.1 t s (py_min st.2 (Py.deadline (st.1 t))) r)
      as (_ & _ & <- & _). done.
  - apply elem_of_cons in Hr as [->|?]; [|done].
    pose proof (py_backward_frame
                  (Py.set_times st.1 t s (py_min st.2 (Py.deadline (st.1 t))), s)
                  l t Hout) as Ef.
    rewrite Hb in Ef. simpl in Ef.
    rewrite Ef. unfold Py.set_times. rewrite decide_True by done. simpl.
    by exists s, (py_min st.2 (Py.deadline (st.1 t))).
Qed.
End py_backward.

(** ** The scheduler on Python numbers *)
Section py_schedule.
Variable h : Py.heap.
Variable tasks : list loc.
Variable alpha : num.

Lemma py_schedule_nil :
  Py.tasks_to_do h tasks = [] →
  Py.schedule_tasks_with_priority h tasks alpha = (Return [], h).
Proof. unfold Py.schedule_tasks_with_priority. by intros ->. Qed.

Lemma py_schedule_cons :
  Py.tasks_to_do h tasks ≠ [] →
  Py.schedule_tasks_with_priority h tasks alpha
  = match Py.topological_sort_with_priority h (Py.tasks_to_do h tasks) alpha with
    | Return tasks_ordered =>
        match Py.max_deadline h tasks_ordered with
        | None => (Raise ValueError, h)
        | Some current_time =>
            match Py.backward (h, current_time) (reverse tasks_ordered) with
            | (Return _, h') => (Return tasks_ordered, h')
            | (Raise e, h') => (Raise e, h')
            | (Timeout, h') => (Timeout, h')
            end
        end
    | Raise e => (Raise e, h)
    | Timeout => (Timeout, h)
    end.
Proof.
  unfold Py.schedule_tasks_with_priority.
  by destruct (Py.tasks_to_do h tasks).
Qed.

Lemma py_backward_outcomes st l :
  (Py.backward st l).1 = Return tt ∨ (Py.backward st l).1 = Raise OverflowError.
Proof.
  revert st. induction l as [|t l IH]; intros st; simpl; [by left|].
  destruct (Py.place st t); [apply IH|by right].
Qed.

(** A call that returns a list has ordered the plannable tasks and run
    the backward pass to its end. *)
Lemma py_schedule_Return out h' :
  Py.schedule_tasks_with_priority h tasks alpha = (Return out, h') →
  (Py.tasks_to_do h tasks = [] ∧ out = [] ∧ h' = h) ∨
  (∃ T, Py.topological_sort_with_priority h (Py.tasks_to_do h tasks) alpha
        = Return out ∧
        Py.max_deadline h out = Some T ∧
        Py.backward (h, T) (reverse out) = (Return tt, h')).
Proof.
  destruct (decide (Py.tasks_to_do h tasks = [])) as [E|E].
  - rewrite py_schedule_nil by done. intros [= <- <-]. by left.
  - rewrite py_schedule_cons by done.
    destruct (Py.topological_sort_with_priority _ _ _) as [l| |]; [|done..].
    destruct (Py.max_deadline h l) as [T|] eqn:ET; [|done].
    destruct (Py.backward (h, T) (reverse l)) as [[[]| |] h''] eqn:Eb; [|done..].
    intros [= <- <-]. right. by exists T.
Qed.

(** Only the time fields of an object change in a call. *)
Lemma py_schedule_same r :
  Py.same_task ((Py.schedule_tasks_with_priority h tasks alpha).2 r) (h r).
Proof.
  destruct (decide (Py.tasks_to_do h tasks = [])) as [E|E].
  - rewrite py_schedule_nil by done. apply py_same_task_refl.
  - rewrite py_schedule_cons by done.
    destruct (Py.topological_sort_with_priority _ _ _) as [l| |];
      [|apply py_same_task_refl..].
    destruct (Py.max_deadline h l) as [T|]; [|apply py_same_task_refl].
    pose proof (py_backward_same (h, T) (reverse l) r) as Hs.
    by destruct (Py.backward (h, T) (reverse l)) as [[| |] h''].
Qed.

(** A call that does not return a list raises the exception of line 73
    or an [OverflowError]. *)
Lemma py_schedule_outcomes :
  (∃ out, (Py.schedule_tasks_with_priority h tasks alpha).1 = Return out) ∨
  Py.schedule_tasks_with_priority h tasks alpha = (Raise CycleError, h) ∨
  (Py.schedule_tasks_with_priority h tasks alpha).1 = Raise OverflowError.
Proof.
  destruct (decide (Py.tasks_to_do h tasks = [])) as [E|E].
  { rewrite py_schedule_nil by done. left. by eexists. }
  rewrite py_schedule_cons by done.
  destruct (py_sort_outcomes h alpha (Py.tasks_to_do h tasks))
    as [[out Hout]|[->|[-> _]]]; [|right; by left|right; by right].
  rewrite Hout.
  pose proof (py_sort_length _ _ _ _ Hout) as Hlen.
  destruct out as [|t out].
  { destruct (Py.tasks_to_do h tasks); done. }
  simpl.
  destruct (py_backward_outcomes
              (h, py_max_from (Py.deadline (h t))
                    ((fun t' => Py.deadline (h t')) <$> out))
              (reverse (t :: out))) as [Hb|Hb];
    destruct (Py.backward _ _) as [[[]| |] h'']; simpl in Hb; try done.
  - left. by eexists.
  - right. right. simpl. congruence.
Qed.
End py_schedule.

(** ** The pool on Python numbers *)
Section py_pool.
Variable h : Py.heap.
Variable tasks : list loc.
Variable alpha : num.
Hypothesis Hkeys : comparable_keys (Py.key h alpha <$> tasks).

Lemma py_weak_order l :
  (∀ r, r ∈ l → r ∈ tasks) → weak_order_on py_lt (Py.key h alpha) l.
Proof.
  intros Hsub. apply py_lt_weak_order.
  apply (comparable_keys_sub (Py.key h alpha <$> tasks)); [|done].
  intros k (r & -> & Hr)%list_elem_of_fmap. by apply list_elem_of_fmap_2, Hsub.
Qed.

Lemma py_order_init_pool s0 :
  order_init (Py.sort_pool h alpha) (Py.erase h) tasks = Return s0 →
  zero_in_degree s0
  = sort_by py_lt (Py.key h alpha) (ready_at_start (Py.erase h) tasks) ∧
  ∀ r, r ∈ zero_in_degree s0 →
       Py.effective_deadline h alpha r = Some (Py.key h alpha r).
Proof.
  unfold order_init.
  destruct (Py.sort_pool h alpha _) as [pool| |] eqn:E; [|done..].
  intros [= <-]. simpl. apply sort_pool_Return in E as [-> Hc].
  split; [done|]. intros r Hr. apply Hc. by rewrite sort_by_elem in Hr.
Qed.

Lemma py_order_iter_pool s s' :
  order_iter (Py.sort_pool h alpha) (Py.erase h) tasks s s' →
  ∃ current rest,
    zero_in_degree s = current :: rest ∧
    sorted_list s' = sorted_list s ++ [current] ∧
    zero_in_degree s'
    = sort_by py_lt (Py.key h alpha)
        (rest ++ released (Py.erase h) tasks (in_degree s)
                   (graph (Py.erase h) tasks !!! Py.id (h current))) ∧
    ∀ r, r ∈ zero_in_degree s' →
         Py.effective_deadline h alpha r = Some (Py.key h alpha r).
Proof.
  unfold order_iter, order_step.
  destruct (zero_in_degree s) as [|c rest] eqn:Ep; [done|].
  destruct (Py.sort_pool h alpha _) as [pool| |] eqn:E; [|done..].
  intros [= <-]. simpl. apply sort_pool_Return in E as [-> Hc].
  exists c, rest. rewrite relax_released in *. split_and!; [done..|].
  intros r Hr. apply Hc. by rewrite sort_by_elem in Hr.
Qed.

(** The pool is sorted whenever the loop tests it. *)
Lemma py_pool_ascending s :
  order_reaches (Py.sort_pool h alpha) (Py.erase h) tasks s →
  ascending_by py_lt (Py.key h alpha) (zero_in_degree s).
Proof.
  intros (s0 & Hs0 & Hrtc).
  assert (order_reaches (Py.sort_pool h alpha) (Py.erase h) tasks s) as Hs
    by by exists s0.
  pose proof (any_reaches_sub _ _ _ (py_reaches_any h alpha tasks s Hs)) as Hsub.
  destruct (rtc_inv_r _ _ Hrtc) as [->|(s1 & _ & Hstep)].
  - apply py_order_init_pool in Hs0 as [E _]. rewrite E in Hsub |- *.
    apply sort_by_ascending, py_weak_order.
    intros r Hr. apply Hsub, elem_of_app. right. by apply sort_by_elem.
  - apply py_order_iter_pool in Hstep as (c & rest & _ & _ & E & _).
    rewrite E in Hsub |- *.
    apply sort_by_ascending, py_weak_order.
    intros r Hr. apply Hsub, elem_of_app. right. by apply sort_by_elem.
Qed.
End py_pool.

Lemma py_acyclic_of_Return (h : Py.heap) tasks alpha out :
  NoDup (tid (Py.erase h) <$> tasks) →
  Py.topological_sort_with_priority h tasks alpha = Return out →
  acyclic (Py.erase h) tasks.
Proof.
  intros Huniq Hout a Hcyc.
  apply (py_sort_no_cycle h alpha tasks Huniq out Hout). by exists a.
Qed.

Lemma py_schedule_eta (h : Py.heap) tasks alpha out :
  (Py.schedule_tasks_with_priority h tasks alpha).1 = Return out →
  Py.schedule_tasks_with_priority h tasks alpha
  = (Return out, (Py.schedule_tasks_with_priority h tasks alpha).2).
Proof. intros <-. apply pair_eta. Qed.

Lemma no_dependencies_acyclic (h : heap) tasks :
  (∀ t, t ∈ tasks → dependencies (h t) = []) → acyclic h tasks.
Proof.
  intros Hnone a Hcyc.
  assert (∀ x y, ¬ dep_edge h tasks x y) as Hno.
  { intros x y (_ & t & Ht & _ & Hd). rewrite (Hnone t Ht) in Hd.
    by apply elem_of_nil in Hd. }
  destruct Hcyc as [? ? He|? ? ? He _]; by apply Hno in He.
Qed.

Lemma huge_cyclic_has_cycle :
  has_cycle (Py.erase HugeCyclic.store)
            (Py.tasks_to_do HugeCyclic.store HugeCyclic.tasks).
Proof.
  exists 1. eapply tc_l; [|apply tc_once].
  - split; [by_compute|]. exists 1%nat. split_and!; [by_compute|done|by_compute].
  - split; [by_compute|]. exists 0%nat. split_and!; [by_compute|done|by_compute].
Qed.

Lemma py_cyclic_has_cycle :
  has_cycle (Py.erase (Py.of_ints Cyclic.store))
            (Py.tasks_to_do (Py.of_ints Cyclic.store) Cyclic.tasks).
Proof.
  exists 1. eapply tc_l; [|apply tc_once].
  - split; [by_compute|]. exists 1%nat. split_and!; [by_compute|done|by_compute].
  - split; [by_compute|]. exists 0%nat. split_and!; [by_compute|done|by_compute].
Qed.

(** ** The claims *)

(** C1 (as the code has it). For a task list with unique ids and an
    acyclic dependency relation (over the ids present in the list), when
    the sort key [deadline - alpha * priority] of every task can be
    computed, [topological_sort_with_priority] returns a permutation of
    the input in which, for every dependency edge between two tasks of
    the list, the dependency is strictly before its dependent. *)
Theorem C1_topological_order (h : Py.heap) tasks alpha :
  NoDup (tid (Py.erase h) <$> tasks) → acyclic (Py.erase h) tasks →
  (∀ t, t ∈ tasks → is_Some (Py.effective_deadline h alpha t)) →
  ∃ out, Py.topological_sort_with_priority h tasks alpha = Return out ∧
         out ≡ₚ tasks ∧
         ∀ dep t, dep ∈ tasks → t ∈ tasks →
                  Py.id (h dep) ∈ Py.dependencies (h t) →
                  strictly_before dep t out.
Proof.
  intros Huniq Hacyc Hkeys.
  destruct (py_sort_outcomes h alpha tasks)
    as [[out Hout]|[Hraise|[_ (t & Ht & Hnone)]]].
  - exists out.
    pose proof (py_sort_perm h alpha tasks out
                  (unique_NoDup (Py.erase h) tasks Huniq) Hout) as Hperm.
    split_and!; [done..|]. intros dep t Hdep Ht Hd.
    apply (deps_first_before (Py.erase h) tasks Huniq); [done| |done..].
    by eapply py_sort_deps_first.
  - apply (py_sort_Raise h alpha tasks Huniq) in Hraise
      as [[_ [a Ha]]|[? _]]; [|done].
    by destruct (Hacyc a).
  - destruct (Hkeys t Ht) as [k Hk]. congruence.
Qed.

Lemma C1_witness :
  ∃ out, Py.topological_sort_with_priority (Py.of_ints Demo.raw) Demo.raw_tasks
           float_one = Return out ∧
         out ≡ₚ Demo.raw_tasks ∧
         ∀ dep t, dep ∈ Demo.raw_tasks → t ∈ Demo.raw_tasks →
                  Py.id (Py.of_ints Demo.raw dep)
                    ∈ Py.dependencies (Py.of_ints Demo.raw t) →
                  strictly_before dep t out.
Proof.
  apply (C1_topological_order (Py.of_ints Demo.raw) Demo.raw_tasks float_one).
  - by_compute.
  - apply (py_acyclic_of_Return _ _ float_one [0; 1; 3; 2; 5; 4]%nat); [by_compute|].
    vm_compute. reflexivity.
  - apply Forall_forall. by_compute.
Defined.

(** C1 as stated fails: with the default [alpha = 1.0], a single task
    whose int deadline is too large for a float makes the first sort
    raise [OverflowError]. *)
Lemma C1_overflow_in_sort_key :
  ¬ ∀ (h : Py.heap) tasks alpha,
      NoDup (tid (Py.erase h) <$> tasks) → acyclic (Py.erase h) tasks →
      ∃ out, Py.topological_sort_with_priority h tasks alpha = Return out ∧
             out ≡ₚ tasks ∧
             ∀ dep t, dep ∈ tasks → t ∈ tasks →
                      Py.id (h dep) ∈ Py.dependencies (h t) →
                      strictly_before dep t out.
Proof.
  intros H. destruct (H Huge.store Huge.tasks float_one) as (out & Hout & _).
  - by_compute.
  - by apply no_dependencies_acyclic.
  - assert (Py.topological_sort_with_priority Huge.store Huge.tasks float_one
            = Raise OverflowError) as E by (vm_compute; reflexivity).
    congruence.
Qed.

(** C2 (as the code has it). When the dependency relation of the
    plannable tasks (unique ids) has a cycle, [schedule_tasks_with_priority]
    returns no list and the store is the store it was called with: no
    [start_time] or [finish_time] is assigned.  The exception is the cycle
    error of line 73, or the [OverflowError] of a sort key that cannot be
    computed; when every key can be computed it is the cycle error. *)
Theorem C2_cycle_error (h : Py.heap) tasks alpha :
  NoDup (tid (Py.erase h) <$> Py.tasks_to_do h tasks) →
  has_cycle (Py.erase h) (Py.tasks_to_do h tasks) →
  Py.schedule_tasks_with_priority h tasks alpha = (Raise CycleError, h) ∨
  (Py.schedule_tasks_with_priority h tasks alpha = (Raise OverflowError, h) ∧
   ∃ t, t ∈ Py.tasks_to_do h tasks ∧ Py.effective_deadline h alpha t = None).
Proof.
  intros Huniq Hcyc.
  assert (Py.tasks_to_do h tasks ≠ []) as Hne.
  { intros Enil. destruct Hcyc as [a Ha]. rewrite Enil in Ha.
    assert (∀ x y, tc (dep_edge (Py.erase h) []) x y → False) as Hno;
      [|by eapply Hno].
    intros x y [? ? [?%elem_of_nil _]|? ? ? [?%elem_of_nil _] _]; done. }
  rewrite py_schedule_cons by done.
  destruct (py_sort_outcomes h alpha (Py.tasks_to_do h tasks))
    as [[out Hout]|[->|[-> ?]]]; [|by left|by right].
  by destruct (py_sort_no_cycle h alpha _ Huniq out Hout).
Qed.

Lemma C2_witness :
  Py.schedule_tasks_with_priority (Py.of_ints Cyclic.store) Cyclic.tasks float_one
  = (Raise CycleError, Py.of_ints Cyclic.store) ∨
  (Py.schedule_tasks_with_priority (Py.of_ints Cyclic.store) Cyclic.tasks float_one
   = (Raise OverflowError, Py.of_ints Cyclic.store) ∧
   ∃ t, t ∈ Py.tasks_to_do (Py.of_ints Cyclic.store) Cyclic.tasks ∧
        Py.effective_deadline (Py.of_ints Cyclic.store) float_one t = None).
Proof.
  apply (C2_cycle_error (Py.of_ints Cyclic.store) Cyclic.tasks float_one).
  - by_compute.
  - apply py_cyclic_has_cycle.
Defined.

(** C2 as stated fails: with the default [alpha = 1.0], two tasks that
    depend on each other and a ready task whose int deadline is too large
    for a float, the first sort raises [OverflowError] before the cycle
    is looked for. *)
Lemma C2_overflow_before_cycle_error :
  ¬ ∀ (h : Py.heap) tasks alpha,
      NoDup (tid (Py.erase h) <$> Py.tasks_to_do h tasks) →
      has_cycle (Py.erase h) (Py.tasks_to_do h tasks) →
      (Py.schedule_tasks_with_priority h tasks alpha).1 = Raise CycleError.
Proof.
  intros H.
  pose proof (H HugeCyclic.store HugeCyclic.tasks float_one) as E.
  assert ((Py.schedule_tasks_with_priority HugeCyclic.store HugeCyclic.tasks
             float_one).1 = Raise OverflowError) as E'
    by (vm_compute; reflexivity).
  rewrite E' in E. discriminate E; [by_compute|apply huge_cyclic_has_cycle].
Qed.




(** With a negative duration the dependency does start after its
    dependent. *)
Example negative_duration_starts_later :
  (schedule_tasks_with_priority Negative.store Negative.tasks 0).1 = Return [0; 1]%nat ∧
  start_time ((schedule_tasks_with_priority Negative.store Negative.tasks 0).2 0%nat)
  = Some 109 ∧
  start_time ((schedule_tasks_with_priority Negative.store Negative.tasks 0).2 1%nat)
  = Some 9.
Proof. split_and!; vm_compute; reflexivity. Qed.




Example tie_order :
  topological_sort_with_priority Tie.store Tie.tasks 0 = Return [2; 1; 0]%nat.
Proof. vm_compute. reflexivity. Qed.





(** C7 (as the code has it). Every returned task has both time fields
    set, and [start_time] is [finish_time - duration] as Python computes
    it: exact when [finish_time] and [duration] are ints, so that
    [finish_time = start_time + duration]; rounded to the nearest float
    otherwise. *)
Theorem C7_window_is_duration (h : Py.heap) tasks alpha out h' r :
  Py.schedule_tasks_with_priority h tasks alpha = (Return out, h') →
  r ∈ out →
  ∃ s f, Py.start_time (h' r) = Some s ∧ Py.finish_time (h' r) = Some f ∧
         py_sub f (Py.duration (h' r)) = Some s ∧
         ∀ zf zd, f = Int zf → Py.duration (h' r) = Int zd →
                  ∃ zs, s = Int zs ∧ zf = zs + zd.
Proof.
  intros Hsched Hr.
  pose proof (py_schedule_same h tasks alpha r) as (_ & _ & Ed & _).
  rewrite Hsched in Ed. simpl in Ed.
  apply py_schedule_Return in Hsched as [(_ & -> & _)|(T & _ & _ & Hb)];
    [by apply elem_of_nil in Hr|].
  destruct (py_backward_window (h, T) (reverse out) tt h' r Hb)
    as (s & f & Hs & Hf & Hsub); [by apply elem_of_reverse|].
  simpl in Hsub. rewrite <- Ed in Hsub.
  exists s, f. split_and!; [done..|].
  intros zf zd -> Hd. rewrite Hd in Hsub. injection Hsub as <-.
  exists (zf - zd). split; [done|lia].
Qed.

Lemma C7_witness :
  ∃ s f,
    Py.start_time ((Py.schedule_tasks_with_priority Rounding.store Rounding.tasks
                      float_one).2 0%nat) = Some s ∧
    Py.finish_time ((Py.schedule_tasks_with_priority Rounding.store Rounding.tasks
                       float_one).2 0%nat) = Some f ∧
    py_sub f (Py.duration ((Py.schedule_tasks_with_priority Rounding.store
                              Rounding.tasks float_one).2 0%nat)) = Some s ∧
    ∀ zf zd, f = Int zf →
             Py.duration ((Py.schedule_tasks_with_priority Rounding.store
                             Rounding.tasks float_one).2 0%nat) = Int zd →
             ∃ zs, s = Int zs ∧ zf = zs + zd.
Proof.
  apply (C7_window_is_duration Rounding.store Rounding.tasks float_one [0]%nat).
  - apply py_schedule_eta. vm_compute. reflexivity.
  - by_compute.
Defined.

(** C7 as stated fails: a task with deadline [0.9] and duration [0.2] gets
    [finish_time = 0.9] and [start_time = 0.7], and
    [start_time + duration] is [0.8999999999999999]. *)
Lemma C7_rounded_start :
  ¬ ∀ (h : Py.heap) tasks alpha out h' r s f,
      Py.schedule_tasks_with_priority h tasks alpha = (Return out, h') →
      r ∈ out →
      Py.start_time (h' r) = Some s → Py.finish_time (h' r) = Some f →
      ∃ x, py_add s (Py.duration (h' r)) = Some x ∧ py_eq f x = true.
Proof.
  intros H.
  destruct (H Rounding.store Rounding.tasks float_one [0]%nat
              (Py.schedule_tasks_with_priority Rounding.store Rounding.tasks
                 float_one).2 0%nat
              (Float (S754_finite false 6305039478318694 (-53)))
              (float_ratio 9 10)) as (x & Hx & Heq).
  - apply py_schedule_eta. vm_compute. reflexivity.
  - by_compute.
  - vm_compute. reflexivity.
  - vm_compute. reflexivity.
  - vm_compute in Hx. injection Hx as <-. vm_compute in Heq. discriminate.
Qed.

(** C8. A task whose status is not one of the three plannable ones (so a
    cancelled, done or deleted task) is not in the list returned by
    [schedule_tasks_with_priority], and the call leaves the object as it
    was, time fields included; any object the call changes is a plannable
    task of the input. *)
Theorem C8_filtered_out_untouched h tasks alpha r :
  status (h r) ∉ valid_statuses →
  (∀ out, (schedule_tasks_with_priority h tasks alpha).1 = Return out → r ∉ out) ∧
  (schedule_tasks_with_priority h tasks alpha).2 r = h r ∧
  (∀ r', (schedule_tasks_with_priority h tasks alpha).2 r' ≠ h r' →
         r' ∈ tasks_to_do h tasks).
Proof.
  intros Hst.
  assert (r ∉ tasks_to_do h tasks) as Hr by by intros [? _]%elem_of_tasks_to_do.
  split_and!.
  - intros out Hout Hin. apply Hr.
    eapply (schedule_sub h tasks alpha out); [|done].
    rewrite <- Hout. apply pair_eta.
  - by apply schedule_frame.
  - intros r' Hne. destruct (decide (r' ∈ tasks_to_do h tasks)) as [|Hout]; [done|].
    by apply (schedule_frame h tasks alpha) in Hout.
Qed.

Lemma C8_witness :
  (∀ out, (schedule_tasks_with_priority Demo.raw Demo.raw_tasks 5).1 = Return out →
          4%nat ∉ out) ∧
  (schedule_tasks_with_priority Demo.raw Demo.raw_tasks 5).2 4%nat = Demo.raw 4%nat ∧
  (∀ r', (schedule_tasks_with_priority Demo.raw Demo.raw_tasks 5).2 r' ≠ Demo.raw r' →
         r' ∈ tasks_to_do Demo.raw Demo.raw_tasks).
Proof.
  apply (C8_filtered_out_untouched Demo.raw Demo.raw_tasks 5 4%nat).
  by_compute.
Defined.

(** C9. When the task list is empty, or no task of it has a plannable
    status, [schedule_tasks_with_priority] returns the empty list, raises
    nothing and changes nothing, for every [alpha]. *)
Theorem C9_nothing_to_plan h tasks alpha :
  (∀ r, r ∈ tasks → status (h r) ∉ valid_statuses) →
  schedule_tasks_with_priority h tasks alpha = (Return [], h).
Proof.
  intros Hall. apply schedule_nil. unfold tasks_to_do.
  apply filter_none. intros r Hr. by apply Hall.
Qed.

Lemma C9_witness :
  schedule_tasks_with_priority Demo.raw [4; 4]%nat 3 = (Return [], Demo.raw) ∧
  schedule_tasks_with_priority Demo.raw [] 3 = (Return [], Demo.raw).
Proof.
  split.
  - apply (C9_nothing_to_plan Demo.raw [4; 4]%nat 3).
    apply Forall_forall. by_compute.
  - apply (C9_nothing_to_plan Demo.raw [] 3).
    apply Forall_forall. by_compute.
Defined.



(** ** Further properties of the ordering engine *)

(** *** The result depends only on what the engine reads *)
Section ordering_input.
Variable h1 h2 : heap.
Variable tasks : list loc.
Variable alpha : Z.
Hypothesis Hin : same_ordering_input h1 h2 tasks.

Lemma foldl_pointwise {A B} (f g : A → B → A) (l : list B) (a : A) :
  (∀ a b, f a b = g a b) → foldl f a l = foldl g a l.
Proof.
  intros E. revert a. induction l as [|b l IH]; intros a; simpl; [done|].
  by rewrite E, IH.
Qed.

Lemma input_tid r : tid h1 r = tid h2 r.
Proof. unfold tid. by destruct (Hin r) as (? & _). Qed.

Lemma input_tids (l : list loc) : tid h1 <$> l = tid h2 <$> l.
Proof. apply list_fmap_ext. intros. apply input_tid. Qed.

Lemma input_task_map l : task_map h1 l = task_map h2 l.
Proof.
  unfold task_map. apply foldl_pointwise. intros m t. by rewrite input_tid.
Qed.

Lemma input_graph_init l : graph_init h1 l = graph_init h2 l.
Proof.
  unfold graph_init. apply foldl_pointwise. intros m t. by rewrite input_tid.
Qed.

Lemma input_in_degree_init l : in_degree_init h1 l = in_degree_init h2 l.
Proof.
  unfold in_degree_init. apply foldl_pointwise. intros m t. by rewrite input_tid.
Qed.

Lemma input_add_edge t st d : add_edge h1 tasks t st d = add_edge h2 tasks t st d.
Proof. unfold add_edge. by rewrite input_task_map, input_tid. Qed.

(** Entries that name no task of the list leave both dictionaries as they
    are. *)
Lemma add_edge_skip h t st deps :
  foldl (add_edge h tasks t) st deps
  = foldl (add_edge h tasks t) st (filter (fun d => d ∈ tid h <$> tasks) deps).
Proof.
  revert st. induction deps as [|d deps IH]; intros st; [done|].
  rewrite filter_cons. destruct (decide (d ∈ tid h <$> tasks)) as [Hd|Hd]; simpl.
  - apply IH.
  - rewrite <- IH. f_equal. unfold add_edge.
    rewrite decide_False; [done|]. by rewrite task_map_is_Some.
Qed.

Lemma input_add_edges st t : add_edges h1 tasks st t = add_edges h2 tasks st t.
Proof.
  unfold add_edges. rewrite (add_edge_skip h1), (add_edge_skip h2).
  destruct (Hin t) as (_ & _ & _ & ->).
  rewrite (list_filter_iff (fun d => d ∈ tid h2 <$> tasks)
             (fun d => d ∈ tid h1 <$> tasks)) by (intros d; by rewrite input_tids).
  apply foldl_pointwise, input_add_edge.
Qed.

Lemma input_build : build h1 tasks = build h2 tasks.
Proof.
  unfold build. rewrite input_graph_init, input_in_degree_init.
  apply foldl_pointwise, input_add_edges.
Qed.

Lemma input_effective_deadline r :
  effective_deadline h1 alpha r = effective_deadline h2 alpha r.
Proof. unfold effective_deadline. by destruct (Hin r) as (_ & -> & -> & _). Qed.

Lemma list_sort_ext {A} (k1 k2 : A → Z) l :
  (∀ x, k1 x = k2 x) → list_sort k1 l = list_sort k2 l.
Proof.
  intros E. induction l as [|x l IH]; simpl; [done|]. rewrite IH.
  generalize (list_sort k2 l). intros l'.
  induction l' as [|y l' IH']; simpl; [done|]. by rewrite !E, IH'.
Qed.

Lemma input_relax nbrs st : relax h1 tasks nbrs st = relax h2 tasks nbrs st.
Proof.
  unfold relax. apply foldl_pointwise. intros st' y. unfold relax_one.
  by rewrite input_task_map.
Qed.

Lemma input_kahn_init : kahn_init h1 tasks alpha = kahn_init h2 tasks alpha.
Proof.
  unfold kahn_init, in_degree0. rewrite input_build.
  rewrite (list_sort_ext _ _ _ input_effective_deadline).
  do 2 f_equal. apply list_filter_iff. intros t. by rewrite input_tid.
Qed.

Lemma input_kahn_step s : kahn_step h1 tasks alpha s = kahn_step h2 tasks alpha s.
Proof.
  unfold kahn_step, graph. destruct (zero_in_degree s) as [|c rest]; [done|].
  rewrite input_build, input_tid, input_relax.
  by rewrite (list_sort_ext _ _ _ input_effective_deadline).
Qed.

Lemma input_kahn_loop n s : kahn_loop h1 tasks alpha n s = kahn_loop h2 tasks alpha n s.
Proof.
  revert s. induction n as [|n IH]; intros s; simpl; rewrite input_kahn_step; [done|].
  destruct (kahn_step h2 tasks alpha s); [apply IH|done].
Qed.

Lemma input_topological_sort :
  topological_sort_with_priority h1 tasks alpha
  = topological_sort_with_priority h2 tasks alpha.
Proof.
  unfold topological_sort_with_priority. by rewrite input_kahn_loop, input_kahn_init.
Qed.
End ordering_input.

(** ** Further properties of the scheduler *)

(** *** Time fields already present are not read *)
Section store_independence.
Variable h1 h2 : heap.
Hypothesis Hst : ∀ r, same_task (h1 r) (h2 r).

Lemma static_ordering_input l : same_ordering_input h1 h2 l.
Proof. intros r. destruct (Hst r) as (? & ? & _ & ? & _ & ->). done. Qed.

Lemma static_tasks_to_do tasks : tasks_to_do h1 tasks = tasks_to_do h2 tasks.
Proof.
  unfold tasks_to_do. apply list_filter_iff. intros r.
  by destruct (Hst r) as (_ & _ & _ & _ & -> & _).
Qed.

Lemma static_max_deadline l : max_deadline h1 l = max_deadline h2 l.
Proof.
  destruct l as [|t l]; simpl; [done|]. f_equal.
  destruct (Hst t) as (_ & -> & _).
  apply foldl_pointwise. intros m r. by destruct (Hst r) as (_ & -> & _).
Qed.

Lemma same_task_sym a b : same_task a b → same_task b a.
Proof. unfold same_task. intros (?&?&?&?&?&?). by split_and!. Qed.

(** The backward pass on two stores that agree on the static fields moves
    the cursor alike, and leaves equal objects at the tasks it places. *)
Lemma static_backward T l :
  (backward h1 T l).2 = (backward h2 T l).2 ∧
  ∀ r, r ∈ l → (backward h1 T l).1 r = (backward h2 T l).1 r.
Proof.
  induction l as [|x l [IHc IHo]]; [split; [done|by intros r ?%elem_of_nil]|].
  rewrite !backward_cons.
  assert (Z.min (backward h1 T l).2 (deadline ((backward h1 T l).1 x))
          = Z.min (backward h2 T l).2 (deadline ((backward h2 T l).1 x))) as Ef.
  { rewrite !backward_deadline, IHc. by destruct (Hst x) as (_ & -> & _). }
  assert (duration ((backward h1 T l).1 x) = duration ((backward h2 T l).1 x)) as Ed.
  { rewrite !backward_duration. by destruct (Hst x) as (_ & _ & -> & _). }
  split.
  - rewrite !place_cursor. by rewrite Ef, Ed.
  - intros r Hr. destruct (decide (r = x)) as [->|Hne].
    + unfold place, set_times. simpl. rewrite !decide_True by done.
      rewrite Ef, Ed.
      assert (same_task ((backward h1 T l).1 x) ((backward h2 T l).1 x))
        as (E1 & E2 & _ & E4 & E5 & E6).
      { eapply same_task_trans; [apply backward_same|].
        eapply same_task_trans; [apply Hst|]. apply same_task_sym, backward_same. }
      by rewrite E1, E2, E4, E5, E6.
    + rewrite !place_other by done. apply IHo.
      by apply elem_of_cons in Hr as [?|?].
Qed.
End store_independence.

(** Only the time fields of an object change in a call. *)
Lemma schedule_same h tasks alpha r :
  same_task ((schedule_tasks_with_priority h tasks alpha).2 r) (h r).
Proof.
  destruct (decide (tasks_to_do h tasks = [])) as [E|E].
  - rewrite schedule_nil by done. apply same_task_refl.
  - rewrite schedule_cons by done.
    destruct (topological_sort_with_priority h (tasks_to_do h tasks) alpha)
      as [l| |]; [|apply same_task_refl..].
    destruct (max_deadline h l); [|apply same_task_refl]. apply backward_same.
Qed.

(** On two stores that agree on the static fields a call has the same
    outcome and leaves equal objects at the returned tasks. *)
Lemma schedule_static_agree h1 h2 tasks alpha :
  (∀ r, same_task (h1 r) (h2 r)) →
  (schedule_tasks_with_priority h1 tasks alpha).1
  = (schedule_tasks_with_priority h2 tasks alpha).1 ∧
  ∀ out, (schedule_tasks_with_priority h1 tasks alpha).1 = Return out →
         ∀ r, r ∈ out →
              (schedule_tasks_with_priority h1 tasks alpha).2 r
              = (schedule_tasks_with_priority h2 tasks alpha).2 r.
Proof.
  intros Hst.
  pose proof (static_tasks_to_do h1 h2 Hst tasks) as Etd.
  pose proof (input_topological_sort h1 h2 (tasks_to_do h1 tasks) alpha
                (static_ordering_input h1 h2 Hst _)) as Esort.
  destruct (decide (tasks_to_do h1 tasks = [])) as [E|E].
  - rewrite (schedule_nil h1), (schedule_nil h2) by congruence.
    split; [done|]. by intros out [= <-] r ?%elem_of_nil.
  - rewrite (schedule_cons h1), (schedule_cons h2) by congruence.
    rewrite <- Etd, <- Esort.
    destruct (topological_sort_with_priority h1 (tasks_to_do h1 tasks) alpha)
      as [l| |]; [|split; [done|by intros]..].
    rewrite <- (static_max_deadline h1 h2 Hst).
    destruct (max_deadline h1 l) as [T|]; [|split; [done|by intros]].
    simpl. split; [done|]. intros out [= <-] r Hr.
    by apply static_backward.
Qed.

(** X6. A call does not read the time fields: on two stores whose objects
    agree on id, deadline, duration, priority, status and dependencies,
    [schedule_tasks_with_priority] has the same outcome, and the returned
    tasks are in the same state after the call. *)
Theorem X6_schedule_ignores_time_fields h1 h2 tasks alpha :
  (∀ r, same_task (h1 r) (h2 r)) →
  (schedule_tasks_with_priority h1 tasks alpha).1
  = (schedule_tasks_with_priority h2 tasks alpha).1 ∧
  report h1 tasks alpha = report h2 tasks alpha.
Proof.
  intros Hst.
  destruct (schedule_static_agree h1 h2 tasks alpha Hst) as [Eo Eh].
  split; [done|]. unfold report.
  rewrite (pair_eta (schedule_tasks_with_priority h1 tasks alpha)).
  rewrite (pair_eta (schedule_tasks_with_priority h2 tasks alpha)).
  rewrite <- Eo.
  destruct (schedule_tasks_with_priority h1 tasks alpha).1 as [out| |] eqn:E;
    [|done..].
  apply list_fmap_ext. intros i r Hi. apply (Eh out eq_refl).
  by eapply list_elem_of_lookup_2.
Qed.

Lemma X6_witness :
  (schedule_tasks_with_priority
     (schedule_tasks_with_priority Demo.raw Demo.raw_tasks 0).2 Demo.raw_tasks 5).1
  = (schedule_tasks_with_priority Demo.raw Demo.raw_tasks 5).1 ∧
  report (schedule_tasks_with_priority Demo.raw Demo.raw_tasks 0).2 Demo.raw_tasks 5
  = report Demo.raw Demo.raw_tasks 5.
Proof.
  apply (X6_schedule_ignores_time_fields
           (schedule_tasks_with_priority Demo.raw Demo.raw_tasks 0).2
           Demo.raw Demo.raw_tasks 5).
  intros r. apply schedule_same.
Defined.

(** *** What a call returns and what it leaves behind *)
Section schedule_more.
Variable h : heap.


End schedule_more.

(** X2. When no task is listed twice, the list returned by
    [schedule_tasks_with_priority] is a rearrangement of the plannable
    tasks of the input: each of them is returned once, and nothing else. *)
Theorem X2_returns_the_plannable_tasks h tasks alpha out h' :
  NoDup tasks →
  schedule_tasks_with_priority h tasks alpha = (Return out, h') →
  out ≡ₚ tasks_to_do h tasks ∧
  ∀ r, r ∈ out ↔ r ∈ tasks ∧ status (h r) ∈ valid_statuses.
Proof.
  intros Hnd Hsched.
  assert (out ≡ₚ tasks_to_do h tasks) as Hperm.
  { apply schedule_Return in Hsched as [(-> & -> & _)|(T & Hsort & _)]; [done|].
    eapply topological_sort_perm; [|done]. by apply tasks_to_do_NoDup. }
  split; [done|]. intros r. rewrite Hperm, elem_of_tasks_to_do. tauto.
Qed.

Lemma X2_witness :
  [1; 0; 3; 2; 5]%nat ≡ₚ tasks_to_do Demo.raw Demo.raw_tasks ∧
  ∀ r, r ∈ [1; 0; 3; 2; 5]%nat ↔
       r ∈ Demo.raw_tasks ∧ status (Demo.raw r) ∈ valid_statuses.
Proof.
  apply (X2_returns_the_plannable_tasks Demo.raw Demo.raw_tasks 5 _
           (schedule_tasks_with_priority Demo.raw Demo.raw_tasks 5).2).
  - by_compute.
  - apply demo_schedule. vm_compute. reflexivity.
Defined.

(** *** Inputs whose numbers are of one kind *)
Section py_uniform.

Lemma py_min_kind k a b :
  is_int a = k → is_int b = k → is_int (py_min a b) = k.
Proof. unfold py_min. by destruct (py_lt b a). Qed.

Lemma py_max_from_kind k a l :
  is_int a = k → (∀ x, x ∈ l → is_int x = k) → is_int (py_max_from a l) = k.
Proof.
  unfold py_max_from. revert a. induction l as [|x l IH]; intros a Ha Hl; [done|].
  simpl. apply IH; [|intros; apply Hl; by right].
  destruct (py_lt a x); [apply Hl; by left|done].
Qed.

Lemma py_sub_kind k a b :
  is_int a = k → is_int b = k → ∃ c, py_sub a b = Some c ∧ is_int c = k.
Proof. destruct a, b; simpl; intros <-; try done; by eexists. Qed.

Lemma py_mul_kind k a b :
  is_int a = k → is_int b = k → ∃ c, py_mul a b = Some c ∧ is_int c = k.
Proof. destruct a, b; simpl; intros <-; try done; by eexists. Qed.

Lemma uniform_keys h alpha l t :
  Py.uniform h alpha l → t ∈ l → is_Some (Py.effective_deadline h alpha t).
Proof.
  intros Hu Ht. destruct (Hu t Ht) as (Hd & _ & Hp). unfold Py.effective_deadline.
  destruct (py_mul_kind (is_int alpha) alpha (Py.priority (h t)))
    as (m & -> & Hm); [done..|]. simpl.
  destruct (py_sub_kind (is_int alpha) (Py.deadline (h t)) m) as (c & -> & _);
    by eauto.
Qed.

Lemma py_place_kind k (st : Py.heap * num) t :
  is_int st.2 = k → is_int (Py.deadline (st.1 t)) = k →
  is_int (Py.duration (st.1 t)) = k →
  ∃ s, Py.place st t
       = Some (Py.set_times st.1 t s (py_min st.2 (Py.deadline (st.1 t))), s) ∧
       is_int s = k.
Proof.
  intros Hc Hd Hu. unfold Py.place.
  destruct (py_sub_kind k (py_min st.2 (Py.deadline (st.1 t)))
              (Py.duration (st.1 t))) as (s & Hs & Hk);
    [by apply py_min_kind|done|].
  exists s. by rewrite Hs.
Qed.

Lemma py_backward_kind k l (st : Py.heap * num) :
  is_int st.2 = k →
  (∀ t, t ∈ l → is_int (Py.deadline (st.1 t)) = k ∧
                is_int (Py.duration (st.1 t)) = k) →
  (Py.backward st l).1 = Return tt.
Proof.
  revert st. induction l as [|t l IH]; intros st Hc Hl; [done|].
  destruct (Hl t) as [Hd Hu]; [by left|].
  destruct (py_place_kind k st t Hc Hd Hu) as (s & E & Hs).
  cbn [Py.backward]. rewrite E.
  apply IH; [done|]. intros r Hr. simpl.
  destruct (py_set_times_same st.1 t s (py_min st.2 (Py.deadline (st.1 t))) r)
    as (_ & -> & -> & _).
  apply Hl. by right.
Qed.
End py_uniform.

(** X3. A call that does not return a list raises the exception of line
    73 or an [OverflowError]; the model's other outcomes ([ValueError]
    from [max], a loop that runs on) do not occur.  The exception of line
    73 leaves the store as it was, and with unique ids among the plannable
    tasks it is no false alarm: their dependency relation has a cycle.
    When [alpha] and the deadlines, durations and priorities of the
    plannable tasks are all ints, or all floats, there is no
    [OverflowError]. *)
Theorem X3_failure_is_a_cycle (h : Py.heap) tasks alpha o h' :
  Py.schedule_tasks_with_priority h tasks alpha = (o, h') →
  (∀ out, o ≠ Return out) →
  (o = Raise CycleError ∨ o = Raise OverflowError) ∧
  (o = Raise CycleError →
   h' = h ∧
   (NoDup (tid (Py.erase h) <$> Py.tasks_to_do h tasks) →
    has_cycle (Py.erase h) (Py.tasks_to_do h tasks))) ∧
  (Py.uniform h alpha (Py.tasks_to_do h tasks) → o = Raise CycleError).
Proof.
  intros Hsched Hno.
  destruct (decide (Py.tasks_to_do h tasks = [])) as [E|E].
  { rewrite py_schedule_nil in Hsched by done. injection Hsched as <- <-.
    by destruct (Hno []). }
  rewrite py_schedule_cons in Hsched by done.
  destruct (Py.topological_sort_with_priority h (Py.tasks_to_do h tasks) alpha)
    as [l|e|] eqn:Hsort.
  - pose proof (py_sort_length _ _ _ _ Hsort) as Hlen.
    pose proof (py_sort_sub _ _ _ _ Hsort) as Hsub.
    destruct l as [|t l]; [by destruct (Py.tasks_to_do h tasks)|].
    simpl in Hsched.
    pose proof (py_backward_outcomes
                  (h, py_max_from (Py.deadline (h t))
                        ((fun t' => Py.deadline (h t')) <$> l))
                  (reverse (t :: l))) as Hb.
    pose proof (py_backward_kind (is_int alpha) (reverse (t :: l))
                  (h, py_max_from (Py.deadline (h t))
                        ((fun t' => Py.deadline (h t')) <$> l))) as Hk.
    destruct (Py.backward _ _) as [[[]| |] h''];
      simpl in Hb; injection Hsched as <- <-.
    + by destruct (Hno (t :: l)).
    + destruct Hb as [?|[= ->]]; [done|]. split_and!; [by right|done|].
      intros Hu. discriminate Hk.
      * simpl. apply py_max_from_kind; [apply Hu, Hsub; by left|].
        intros x (r & -> & Hr)%list_elem_of_fmap. apply Hu, Hsub. by right.
      * intros r Hr. rewrite elem_of_reverse in Hr. simpl.
        destruct (Hu r (Hsub r Hr)) as (? & ? & _). done.
    + by destruct Hb.
  - injection Hsched as <- <-.
    destruct (py_sort_outcomes h alpha (Py.tasks_to_do h tasks))
      as [[out Hout]|[Hc|[Ho (t & Ht & Hnone)]]]; [congruence|..].
    + assert (e = CycleError) as -> by congruence.
      split_and!; [by left| |done]. intros _. split; [done|]. intros Huniq.
      by apply (py_sort_Raise h alpha _ Huniq) in Hsort as [[_ ?]|[? _]].
    + assert (e = OverflowError) as -> by congruence.
      split_and!; [by right|done|]. intros Hu.
      destruct (uniform_keys h alpha _ t Hu Ht) as [k Hk]. congruence.
  - by apply order_with_not_Timeout in Hsort;
      [|apply sort_pool_perm|apply sort_pool_ends].
Qed.

Lemma X3_witness :
  has_cycle (Py.erase (Py.of_ints Cyclic.store))
            (Py.tasks_to_do (Py.of_ints Cyclic.store) Cyclic.tasks).
Proof.
  destruct (X3_failure_is_a_cycle (Py.of_ints Cyclic.store) Cyclic.tasks float_one
              (Raise CycleError) (Py.of_ints Cyclic.store)) as (_ & Hcyc & _).
  - vm_compute. reflexivity.
  - intros out. discriminate.
  - apply Hcyc; [done|]. by_compute.
Defined.

(** X4. A call never changes the id, deadline, duration, priority, status
    or dependencies of any object, and it leaves every object either
    exactly as it was or with both time fields set. *)
Theorem X4_static_fields_kept h tasks alpha r :
  same_task ((schedule_tasks_with_priority h tasks alpha).2 r) (h r) ∧
  ((schedule_tasks_with_priority h tasks alpha).2 r = h r ∨
   ∃ s f, start_time ((schedule_tasks_with_priority h tasks alpha).2 r) = Some s ∧
          finish_time ((schedule_tasks_with_priority h tasks alpha).2 r) = Some f).
Proof.
  split; [apply schedule_same|].
  destruct (schedule_outcomes h tasks alpha) as [[out Hout]|Hraise].
  - pose proof (pair_eta (schedule_tasks_with_priority h tasks alpha)) as E.
    rewrite Hout in E. destruct (decide (r ∈ out)) as [Hr|Hr].
    + right. destruct (schedule_window h tasks alpha out _ r E Hr)
        as (_ & s & f & Hw & _). exists s, f. unfold window in Hw.
      destruct (start_time _), (finish_time _); by simplify_eq.
    + left. apply schedule_Return in E as [(_ & _ & ->)|(T & _ & _ & ->)]; [done|].
      by apply backward_frame.
  - left. by rewrite Hraise.
Qed.



(** *** The start of the first task *)
Section py_first_start.
Variable h : Py.heap.

Lemma sum_over_app g l1 l2 : sum_over g (l1 ++ l2) = sum_over g l1 + sum_over g l2.
Proof. induction l1 as [|x l1 IH]; simpl; [done|]. rewrite IH. lia. Qed.

Lemma sum_over_reverse g l : sum_over g (reverse l) = sum_over g l.
Proof.
  induction l as [|x l IH]; [done|].
  rewrite reverse_cons, sum_over_app, IH. simpl. lia.
Qed.

Lemma py_max_from_int a l :
  is_int a = true → (∀ x, x ∈ l → is_int x = true) →
  ∃ T, py_max_from a l = Int T.
Proof.
  intros Ha Hl. pose proof (py_max_from_kind true a l Ha Hl) as Hk.
  destruct (py_max_from a l); [by eexists|done].
Qed.

(** With int deadlines and durations the cursor is an int, and the task
    placed last starts at or before the cursor's first value minus the
    durations of the tasks placed. *)
Lemma py_backward_int l :
  ∀ (st : Py.heap * num) c x, st.2 = Int c →
    (∀ r, Py.same_task (st.1 r) (h r)) →
    (∀ r, r ∈ l → is_int (Py.deadline (h r)) = true ∧
                  is_int (Py.duration (h r)) = true) →
    last l = Some x →
    ∃ h' s, Py.backward st l = (Return tt, h') ∧
            Py.start_time (h' x) = Some (Int s) ∧
            s ≤ c - total_duration (Py.erase h) l.
Proof.
  induction l as [|t l IH]; intros st c x Hc Hsame Hint Hlast; [done|].
  assert (total_duration (Py.erase h) (t :: l)
          = Py.int_part (Py.duration (h t)) + total_duration (Py.erase h) l)
    as -> by done.
  cbn [Py.backward]. destruct (Hint t) as [Hd Hu]; [by left|].
  destruct (Hsame t) as (_ & Ed & Eu & _).
  unfold Py.place. rewrite Ed, Eu, Hc.
  destruct (Py.deadline (h t)) as [d|] eqn:Edl; [|done].
  destruct (Py.duration (h t)) as [u|] eqn:Edu; [|done].
  assert (py_min (Int c) (Int d) = Int (Z.min c d)) as ->.
  { unfold py_min. simpl. destruct (Z.ltb_spec d c); f_equal; lia. }
  simpl.
  destruct l as [|t' l].
  - injection Hlast as <-. simpl. eexists _, (Z.min c d - u).
    split_and!; [done| |change (total_duration (Py.erase h) []) with 0; lia].
    unfold Py.set_times. by rewrite decide_True.
  - destruct (IH (Py.set_times st.1 t (Int (Z.min c d - u)) (Int (Z.min c d)),
                  Int (Z.min c d - u)) (Z.min c d - u) x)
      as (h' & s & Hb & Hs & Hle); [done| | |done|].
    + intros r. eapply py_same_task_trans; [apply py_set_times_same|apply Hsame].
    + intros r Hr. apply Hint. by right.
    + exists h', s. split_and!; [done..|]. lia.
Qed.
End py_first_start.

(** X8. When the deadlines and durations of the returned tasks are ints,
    the first task of the returned list starts no later than the largest
    deadline minus the total duration of the returned tasks: when the work
    does not fit before the horizon the start is pushed back, below zero
    if need be. *)
Theorem X8_first_start_bound (h : Py.heap) tasks alpha x out h' :
  Py.schedule_tasks_with_priority h tasks alpha = (Return (x :: out), h') →
  (∀ r, r ∈ x :: out → is_int (Py.deadline (h r)) = true ∧
                       is_int (Py.duration (h r)) = true) →
  ∃ s T, Py.max_deadline h (x :: out) = Some (Int T) ∧
         Py.start_time (h' x) = Some (Int s) ∧
         s ≤ T - total_duration (Py.erase h) (x :: out).
Proof.
  intros Hsched Hint.
  apply py_schedule_Return in Hsched as [(_ & ? & _)|(T' & _ & Hmax & Hb)]; [done|].
  assert (∃ T, T' = Int T) as [T ->].
  { simpl in Hmax. injection Hmax as <-. apply py_max_from_int.
    - apply Hint. by left.
    - intros d (r & -> & Hr)%list_elem_of_fmap. apply Hint. by right. }
  destruct (py_backward_int h (reverse (x :: out)) (h, Int T) T x)
    as (h'' & s & Hb' & Hs & Hle); [done| | | |].
  - intros r. apply py_same_task_refl.
  - intros r Hr. rewrite elem_of_reverse in Hr. by apply Hint.
  - by rewrite reverse_cons, last_snoc.
  - assert (h'' = h') as -> by congruence.
    exists s, T. split_and!; [done..|].
    unfold total_duration in *. by rewrite sum_over_reverse in Hle.
Qed.

Lemma X8_witness :
  ∃ s T, Py.max_deadline (Py.of_ints Demo.raw) [0; 1; 3; 2; 5]%nat = Some (Int T) ∧
         Py.start_time ((Py.schedule_tasks_with_priority (Py.of_ints Demo.raw)
                           Demo.raw_tasks float_one).2 0%nat) = Some (Int s) ∧
         s ≤ T - total_duration (Py.erase (Py.of_ints Demo.raw)) [0; 1; 3; 2; 5]%nat.
Proof.
  apply (X8_first_start_bound (Py.of_ints Demo.raw) Demo.raw_tasks float_one
           0%nat [1; 3; 2; 5]%nat).
  - apply py_schedule_eta. vm_compute. reflexivity.
  - apply Forall_forall. by_compute.
Defined.

(** *** The [__main__] loop on shared objects *)
Lemma main_loop_from h0 h tasks alphas :
  (∀ r, same_task (h0 r) (h r)) →
  (∀ a, a ∈ alphas → ∃ out, (schedule_tasks_with_priority h tasks a).1 = Return out) →
  ∃ h', main_loop h0 tasks alphas = (report h tasks <$> alphas, Return tt, h') ∧
        ∀ r, same_task (h' r) (h r).
Proof.
  revert h0. induction alphas as [|a rest IH]; intros h0 Hst Hok.
  - exists h0. by split.
  - destruct (Hok a) as [out Hout]; [by left|].
    destruct (schedule_static_agree h0 h tasks a Hst) as [Eo Eh].
    rewrite Hout in Eo. simpl.
    destruct (schedule_tasks_with_priority h0 tasks a) as [o h1] eqn:E.
    simpl in Eo. subst o.
    destruct (IH h1) as (h' & -> & Hst').
    + intros r. eapply same_task_trans; [|apply Hst].
      change h1 with ((Return out, h1).2). rewrite <- E. apply schedule_same.
    + intros a' Ha'. apply Hok. by right.
    + exists h'. split; [|done]. do 3 f_equal.
      unfold report.
      rewrite (pair_eta (schedule_tasks_with_priority h tasks a)), Hout.
      apply list_fmap_ext. intros i r Hi. apply (Eh out eq_refl).
      by eapply list_elem_of_lookup_2.
Qed.

(** X10. When each run returns, the [__main__] loop prints for every
    [alpha] what a call on the objects as first constructed would give:
    the windows written by one run do not influence the next.  The loop
    ends normally and has changed time fields only. *)
Theorem X10_main_loop_runs_are_independent h raw_tasks alphas :
  (∀ a, a ∈ alphas →
        ∃ out, (schedule_tasks_with_priority h raw_tasks a).1 = Return out) →
  ∃ h', main_loop h raw_tasks alphas = (report h raw_tasks <$> alphas, Return tt, h') ∧
        ∀ r, same_task (h' r) (h r).
Proof.
  intros Hok. apply main_loop_from; [|done].
  intros r. apply same_task_refl.
Qed.

Lemma X10_witness :
  ∃ h', main_loop Demo.raw Demo.raw_tasks [0; 5]
        = (report Demo.raw Demo.raw_tasks <$> [0; 5], Return tt, h') ∧
        ∀ r, same_task (h' r) (Demo.raw r).
Proof.
  apply (X10_main_loop_runs_are_independent Demo.raw Demo.raw_tasks [0; 5]).
  apply Forall_forall. repeat constructor; eexists; vm_compute; reflexivity.
Defined.

(** X7. Dependency entries that name no task of the list have no effect on
    the ordering: removing them from every task gives the same result. *)
Theorem X7_dangling_dependencies_ignored h tasks alpha :
  topological_sort_with_priority (drop_dangling h tasks) tasks alpha
  = topological_sort_with_priority h tasks alpha.
Proof.
  symmetry. apply input_topological_sort. intros r. unfold drop_dangling. simpl.
  split_and!; [done..|].
  rewrite list_filter_filter. apply list_filter_iff. intros d. tauto.
Qed.

(** *** Lists without dependencies among their tasks *)
Section no_dependencies.
Variable h : heap.
Variable tasks : list loc.
Variable alpha : Z.
Hypothesis Hnone :
  ∀ t d, t ∈ tasks → d ∈ dependencies (h t) → d ∉ tid h <$> tasks.

Lemma filter_all {A} (P : A → Prop) `{∀ x, Decision (P x)} (l : list A) :
  (∀ x, x ∈ l → P x) → filter P l = l.
Proof.
  induction l as [|x l IH]; [done|]. intros Hl.
  rewrite filter_cons_True by (apply Hl; by left).
  f_equal. apply IH. intros y Hy. apply Hl. by right.
Qed.

Lemma sum_over_zero (g : loc → Z) l :
  (∀ t, t ∈ l → g t = 0) → sum_over g l = 0.
Proof.
  induction l as [|t l IH]; [done|]. intros Hl. simpl.
  rewrite Hl by by left. rewrite IH; [done|]. intros t' Ht'. apply Hl. by right.
Qed.

Lemma nodeps_graph c : graph h tasks !!! c = [].
Proof.
  destruct (graph h tasks !!! c) as [|x l] eqn:E; [done|]. exfalso.
  assert (0 < occurrences x (graph h tasks !!! c)) as Hpos.
  { apply occurrences_pos. rewrite E. by left. }
  unfold graph, build in Hpos. rewrite build_graph in Hpos. simpl in Hpos.
  rewrite graph_init_total in Hpos. unfold occurrences at 1 in Hpos. simpl in Hpos.
  apply sum_over_pos in Hpos as (t & Ht & Hpos).
  destruct (decide (c ∈ tid h <$> tasks ∧ tid h t = x)) as [[Hc _]|]; [|lia].
  apply occurrences_pos in Hpos. by apply (Hnone t c).
Qed.

Lemma nodeps_in_degree t : t ∈ tasks → in_degree0 h tasks !!! tid h t = 0.
Proof.
  intros Ht. unfold in_degree0, build. rewrite build_deg. simpl.
  rewrite in_degree_init_total by by apply list_elem_of_fmap_2.
  rewrite sum_over_zero; [done|]. intros t' Ht'.
  destruct (decide (tid h t' = tid h t)); [|done].
  unfold present_deps. rewrite filter_none; [done|].
  intros d Hd. by apply (Hnone t' d).
Qed.

End no_dependencies.

Section py_no_dependencies.
Variable h : Py.heap.
Variable tasks : list loc.
Variable alpha : num.
Hypothesis Hnone :
  ∀ t d, t ∈ tasks → d ∈ Py.dependencies (h t) → d ∉ tid (Py.erase h) <$> tasks.

Lemma py_nodeps_loop pool :
  StronglySorted (in_order py_lt (Py.key h alpha)) pool →
  (∀ t, t ∈ pool → is_Some (Py.effective_deadline h alpha t)) →
  ∀ n deg sorted, (length pool ≤ n)%nat →
    order_loop (Py.sort_pool h alpha) (Py.erase h) tasks n (mkK deg pool sorted)
    = Return (mkK deg [] (sorted ++ pool)).
Proof.
  induction 1 as [|c rest Hs IH Hc]; intros Hkeys n deg sorted Hn.
  - rewrite app_nil_r. by destruct n.
  - destruct n as [|n]; [simpl in Hn; lia|]. simpl.
    unfold order_step. simpl.
    rewrite (nodeps_graph (Py.erase h) tasks Hnone). simpl.
    rewrite sort_pool_computable by (intros; apply Hkeys; by right).
    rewrite sort_by_id by done.
    rewrite IH; [by rewrite <- app_assoc| |simpl in Hn; lia].
    intros; apply Hkeys; by right.
Qed.

Lemma py_nodeps_sort :
  comparable_keys (Py.key h alpha <$> tasks) →
  (∀ t, t ∈ tasks → is_Some (Py.effective_deadline h alpha t)) →
  Py.topological_sort_with_priority h tasks alpha
  = Return (sort_by py_lt (Py.key h alpha) tasks).
Proof.
  intros Hcomp Hkeys.
  unfold Py.topological_sort_with_priority, order_with, order_init.
  rewrite filter_all
    by (intros t Ht; by apply (nodeps_in_degree (Py.erase h) tasks Hnone)).
  rewrite sort_pool_computable by done.
  rewrite py_nodeps_loop.
  - simpl. rewrite sort_by_length. by rewrite decide_False by (intros ?; done).
  - apply sorted_ascending_by, sort_by_ascending, py_lt_weak_order. done.
  - intros t Ht. rewrite sort_by_elem in Ht. by apply Hkeys.
  - by rewrite sort_by_length.
Qed.
End py_no_dependencies.

(** X1. When no task depends on a task of the list (no dependencies, or
    only entries that name no task of the list) and the keys are all ints
    or all floats other than NaN, the ordering engine returns the tasks in
    ascending order of the key [deadline - alpha * priority], tasks with
    tied keys in input order. *)
Theorem X1_order_without_dependencies (h : Py.heap) tasks alpha :
  (∀ t d, t ∈ tasks → d ∈ Py.dependencies (h t) →
          d ∉ tid (Py.erase h) <$> tasks) →
  comparable_keys (Py.key h alpha <$> tasks) →
  (∀ t, t ∈ tasks → is_Some (Py.effective_deadline h alpha t)) →
  ∃ out, Py.topological_sort_with_priority h tasks alpha = Return out ∧
         ascending_by py_lt (Py.key h alpha) out ∧
         keeps_ties_by py_lt (Py.key h alpha) tasks out.
Proof.
  intros Hnone Hcomp Hkeys. eexists. split; [by apply py_nodeps_sort|].
  pose proof (py_lt_weak_order (Py.key h alpha) tasks Hcomp).
  split; [by apply sort_by_ascending|by apply sort_by_keeps_ties].
Qed.

Lemma X1_witness :
  ∃ out, Py.topological_sort_with_priority (Py.of_ints Demo.raw)
           [0; 1; 2; 3; 4]%nat float_one = Return out ∧
         ascending_by py_lt (Py.key (Py.of_ints Demo.raw) float_one) out ∧
         keeps_ties_by py_lt (Py.key (Py.of_ints Demo.raw) float_one)
           [0; 1; 2; 3; 4]%nat out.
Proof.
  apply (X1_order_without_dependencies (Py.of_ints Demo.raw)
           [0; 1; 2; 3; 4]%nat float_one).
  - intros t d Ht. revert d. apply Forall_forall. revert t Ht. apply Forall_forall.
    by_compute.
  - right. vm_compute. reflexivity.
  - apply Forall_forall. by_compute.
Defined.

(** *** Tasks that are ready from the start *)
Section py_ready_order.
Variable h : Py.heap.
Variable tasks : list loc.
Variable alpha : num.
Variable a b : loc.
Hypothesis Hkeys : comparable_keys (Py.key h alpha <$> tasks).
Hypothesis Ha : a ∈ ready_at_start (Py.erase h) tasks.
Hypothesis Hb : b ∈ ready_at_start (Py.erase h) tasks.
Hypothesis Hlt : py_lt (Py.key h alpha a) (Py.key h alpha b) = true.

Lemma py_ready_order_inv s :
  order_reaches (Py.sort_pool h alpha) (Py.erase h) tasks s →
  a ∈ sorted_list s ++ zero_in_degree s ∧
  b ∈ sorted_list s ++ zero_in_degree s ∧
  ∀ j, sorted_list s !! j = Some b → ∃ i, (i < j)%nat ∧ sorted_list s !! i = Some a.
Proof.
  revert s. apply (order_reaches_ind (Py.sort_pool h alpha) (Py.erase h) tasks
    (fun s =>
       a ∈ sorted_list s ++ zero_in_degree s ∧
       b ∈ sorted_list s ++ zero_in_degree s ∧
       ∀ j, sorted_list s !! j = Some b →
            ∃ i, (i < j)%nat ∧ sorted_list s !! i = Some a)).
  - intros s0 Hs0. pose proof Hs0 as [E _]%py_order_init_pool.
    assert (sorted_list s0 = []) as Es.
    { revert Hs0. unfold order_init.
      destruct (Py.sort_pool h alpha _); [|done..]. by intros [= <-]. }
    rewrite Es, E. simpl. rewrite !sort_by_elem. split_and!; [done..|].
    intros j Hj. by rewrite lookup_nil in Hj.
  - intros s s' Hs Hstep (Hain & Hbin & Hord).
    pose proof (py_pool_ascending h tasks alpha Hkeys s Hs) as Hasc.
    apply py_order_iter_pool in Hstep as (c & rest & Ep & Es & E & _).
    rewrite Ep in Hain, Hbin, Hasc. rewrite Es, E.
    assert (∀ z, z ∈ sorted_list s ++ c :: rest →
                 z ∈ (sorted_list s ++ [c]) ++
                     sort_by py_lt (Py.key h alpha)
                       (rest ++ released (Py.erase h) tasks (in_degree s)
                                  (graph (Py.erase h) tasks !!! Py.id (h c))))
      as Hkeep.
    { intros z. rewrite !elem_of_app, sort_by_elem, elem_of_app, elem_of_cons,
        list_elem_of_singleton. tauto. }
    split_and!; [by apply Hkeep..|].
    intros j [[Hj Hjb]|[-> ->]]%lookup_snoc_Some.
    + destruct (Hord j Hjb) as (i & Hi & Hia). exists i. split; [done|].
      rewrite lookup_app_l; [done|]. by eapply lookup_lt_Some.
    + apply elem_of_app in Hain as [Hin|Hin].
      * apply list_elem_of_lookup_1 in Hin as [i Hi]. exists i.
        pose proof (lookup_lt_Some _ _ _ Hi). split; [done|].
        by rewrite lookup_app_l.
      * apply elem_of_cons in Hin as [Eab|Hin].
        -- pose proof (proj1 (py_lt_weak_order (Py.key h alpha) tasks Hkeys) a b)
             as Hirr.
           apply list_elem_of_filter in Ha as [_ Hat].
           apply list_elem_of_filter in Hb as [_ Hbt].
           specialize (Hirr Hat Hbt Hlt). rewrite Eab in Hlt. congruence.
        -- pose proof (ascending_by_head _ _ _ _ Hasc a Hin) as Hle.
           unfold in_order in Hle. congruence.
Qed.
End py_ready_order.

(** X9. Of two tasks that wait for no task of the list, the one whose key
    [deadline - alpha * priority] is smaller, as Python compares the
    computed keys, is emitted first (no task listed twice, keys all ints
    or all floats other than NaN). *)
Theorem X9_ready_tasks_by_effective_deadline (h : Py.heap) tasks alpha out a b :
  NoDup tasks →
  comparable_keys (Py.key h alpha <$> tasks) →
  Py.topological_sort_with_priority h tasks alpha = Return out →
  a ∈ tasks → b ∈ tasks →
  in_degree0 (Py.erase h) tasks !!! Py.id (h a) = 0 →
  in_degree0 (Py.erase h) tasks !!! Py.id (h b) = 0 →
  py_lt (Py.key h alpha a) (Py.key h alpha b) = true →
  strictly_before a b out.
Proof.
  intros Hnd Hkeys Hout Ha Hb Ha0 Hb0 Hlt.
  pose proof (order_with_NoDup _ _ _ (sort_pool_perm h alpha)
                (sort_pool_ends h alpha) out Hnd Hout) as Hnd'.
  apply order_with_Return in Hout as (s & Hs & Hend & <- & _);
    [|apply sort_pool_perm|apply sort_pool_ends].
  destruct (py_ready_order_inv h tasks alpha a b) with (s := s)
    as (Hain & Hbin & Hord); [done|by apply list_elem_of_filter..|done|done|].
  rewrite Hend, app_nil_r in Hain, Hbin.
  split_and!; [done..|]. intros i j Hi Hj.
  destruct (Hord j Hj) as (i' & Hlt' & Hi').
  by rewrite (NoDup_lookup _ _ _ _ Hnd' Hi Hi').
Qed.

Lemma X9_witness :
  strictly_before 0%nat 1%nat [0; 1; 3; 2; 5; 4]%nat.
Proof.
  apply (X9_ready_tasks_by_effective_deadline (Py.of_ints Demo.raw) Demo.raw_tasks
           float_one [0; 1; 3; 2; 5; 4]%nat 0%nat 1%nat).
  - by_compute.
  - right. vm_compute. reflexivity.
  - vm_compute. reflexivity.
  - by_compute.
  - by_compute.
  - vm_compute. reflexivity.
  - vm_compute. reflexivity.
  - vm_compute. reflexivity.
Defined.

(** With the default [alpha = 1.0] and int deadlines beyond 2^53 the
    computed keys round: in [Rounded] task 2 has the larger exact key and
    the smaller computed key, and is emitted first. *)
Example rounded_keys_order :
  Py.topological_sort_with_priority Rounded.store Rounded.tasks float_one
  = Return [1; 0]%nat ∧
  topological_sort_with_priority (Py.erase Rounded.store) Rounded.tasks 1
  = Return [0; 1]%nat.
Proof. split; vm_compute; reflexivity. Qed.

(** ** Int inputs: the two embeddings agree *)

(** *** The engine does not depend on the sort's name or on fields it
    does not read *)
Section order_congruence.
Variable sort_pool : list loc → outcome (list loc).
Variable h1 h2 : heap.
Variable tasks : list loc.
Hypothesis Hin : same_ordering_input h1 h2 tasks.

Lemma input_order_init :
  order_init sort_pool h1 tasks = order_init sort_pool h2 tasks.
Proof.
  unfold order_init, in_degree0. rewrite (input_build h1 h2 tasks Hin).
  by rewrite (list_filter_iff
                (fun t => (build h2 tasks).2 !!! tid h1 t = 0)
                (fun t => (build h2 tasks).2 !!! tid h2 t = 0))
    by (intros t; by rewrite (input_tid h1 h2 tasks Hin)).
Qed.

Lemma input_order_step s :
  order_step sort_pool h1 tasks s = order_step sort_pool h2 tasks s.
Proof.
  unfold order_step, graph. destruct (zero_in_degree s) as [|c rest]; [done|].
  by rewrite (input_build h1 h2 tasks Hin), (input_tid h1 h2 tasks Hin),
    (input_relax h1 h2 tasks Hin).
Qed.

Lemma input_order_loop n s :
  order_loop sort_pool h1 tasks n s = order_loop sort_pool h2 tasks n s.
Proof.
  revert s. induction n as [|n IH]; intros s; simpl; rewrite input_order_step;
    [done|].
  destruct (order_step sort_pool h2 tasks s) as [[s'| |]|]; [apply IH|done..].
Qed.

Lemma input_order_with :
  order_with sort_pool h1 tasks = order_with sort_pool h2 tasks.
Proof.
  unfold order_with. rewrite input_order_init.
  destruct (order_init sort_pool h2 tasks); [|done..].
  by rewrite input_order_loop.
Qed.
End order_congruence.

Section order_by_list_sort.
Variable sort_pool : list loc → outcome (list loc).
Variable h : heap.
Variable tasks : list loc.
Variable alpha : Z.
Hypothesis Hsort :
  ∀ l, sort_pool l = Return (list_sort (effective_deadline h alpha) l).

Lemma list_sort_order_step s :
  order_step sort_pool h tasks s = Return <$> kahn_step h tasks alpha s.
Proof.
  unfold order_step, kahn_step. destruct (zero_in_degree s); [done|].
  by rewrite Hsort.
Qed.

Lemma list_sort_order_loop n s :
  order_loop sort_pool h tasks n s
  = match kahn_loop h tasks alpha n s with
    | Some s' => Return s'
    | None => Timeout
    end.
Proof.
  revert s. induction n as [|n IH]; intros s; simpl;
    rewrite list_sort_order_step;
    destruct (kahn_step h tasks alpha s); simpl; try done.
Qed.

Lemma list_sort_order_with :
  order_with sort_pool h tasks = topological_sort_with_priority h tasks alpha.
Proof.
  unfold order_with, topological_sort_with_priority, order_init.
  rewrite Hsort. fold (kahn_init h tasks alpha). rewrite list_sort_order_loop.
  by destruct (kahn_loop h tasks alpha (length tasks) (kahn_init h tasks alpha)).
Qed.
End order_by_list_sort.

Section int_inputs.
Variable h : heap.
Variable alpha : Z.

Lemma erase_of_ints r : Py.erase (Py.of_ints h) r = h r.
Proof.
  unfold Py.erase, Py.of_ints, Py.erase_task, Py.of_int. simpl.
  destruct (h r) as [i d u p s deps [st|] [ft|]]; done.
Qed.

Lemma int_key t :
  Py.key (Py.of_ints h) (Int alpha) t = Int (effective_deadline h alpha t).
Proof. done. Qed.

Lemma int_sort_by l :
  sort_by py_lt (Py.key (Py.of_ints h) (Int alpha)) l
  = list_sort (effective_deadline h alpha) l.
Proof.
  induction l as [|x l IH]; simpl; [done|]. rewrite IH.
  generalize (list_sort (effective_deadline h alpha) l). intros l'.
  induction l' as [|y l' IH']; [done|].
  cbn [insert_by sort_insert]. rewrite IH', !int_key. cbn [py_lt].
  destruct (Z.ltb_spec (effective_deadline h alpha y) (effective_deadline h alpha x)),
           (Z.leb_spec (effective_deadline h alpha x) (effective_deadline h alpha y));
    try done; lia.
Qed.

Lemma int_sort_pool l :
  Py.sort_pool (Py.of_ints h) (Int alpha) l
  = Return (list_sort (effective_deadline h alpha) l).
Proof.
  rewrite sort_pool_computable by (intros; by eexists). by rewrite int_sort_by.
Qed.

(** On int inputs the ordering of the second part is the ordering of the
    first. *)
Lemma int_sort_agrees tasks :
  Py.topological_sort_with_priority (Py.of_ints h) tasks (Int alpha)
  = topological_sort_with_priority h tasks alpha.
Proof.
  unfold Py.topological_sort_with_priority.
  rewrite (input_order_with _ (Py.erase (Py.of_ints h)) h tasks).
  - apply list_sort_order_with, int_sort_pool.
  - intros r. by rewrite erase_of_ints.
Qed.

Lemma int_max_deadline l :
  Py.max_deadline (Py.of_ints h) l = Int <$> max_deadline h l.
Proof.
  destruct l as [|t l]; simpl; [done|]. f_equal. unfold py_max_from.
  generalize (deadline (h t)). induction l as [|x l IH]; intros m; simpl; [done|].
  rewrite <- IH. f_equal. destruct (Z.ltb_spec m (deadline (h x))); f_equal; lia.
Qed.

Lemma int_place (g : Py.heap) (hz : heap) c t :
  (∀ r, g r = Py.of_int (hz r)) →
  ∃ g', Py.place (g, Int c) t = Some (g', Int (place (hz, c) t).2) ∧
        ∀ r, g' r = Py.of_int ((place (hz, c) t).1 r).
Proof.
  intros Hg. unfold Py.place, place. simpl. rewrite Hg. simpl.
  assert (py_min (Int c) (Int (deadline (hz t))) = Int (Z.min c (deadline (hz t))))
    as ->.
  { unfold py_min. simpl. destruct (Z.ltb_spec (deadline (hz t)) c); f_equal; lia. }
  simpl. eexists. split; [done|]. intros r.
  unfold Py.set_times, set_times. destruct (decide (r = t)); [|done].
  by rewrite Hg.
Qed.

Lemma int_backward l :
  ∀ (g : Py.heap) (hz : heap) c,
    (∀ r, g r = Py.of_int (hz r)) →
    ∃ g', Py.backward (g, Int c) l = (Return tt, g') ∧
          ∀ r, g' r = Py.of_int ((foldl place (hz, c) l).1 r).
Proof.
  induction l as [|t l IH]; intros g hz c Hg.
  - exists g. by split.
  - destruct (int_place g hz c t Hg) as (g1 & E & Hg1).
    cbn [Py.backward foldl]. rewrite E.
    destruct (IH g1 (place (hz, c) t).1 (place (hz, c) t).2 Hg1) as (g' & Hb & Hg').
    exists g'. split; [done|]. by rewrite <- surjective_pairing in Hg'.
Qed.
End int_inputs.

(** X11. On int inputs the program on Python numbers does what the
    program on ints does: a call with an int [alpha] on objects whose
    fields are ints has the same outcome, and leaves every object with the
    same int fields. *)
Theorem X11_int_schedule_agrees h tasks alpha :
  ∃ g', Py.schedule_tasks_with_priority (Py.of_ints h) tasks (Int alpha)
        = ((schedule_tasks_with_priority h tasks alpha).1, g') ∧
        ∀ r, g' r = Py.of_int ((schedule_tasks_with_priority h tasks alpha).2 r).
Proof.
  unfold Py.schedule_tasks_with_priority, schedule_tasks_with_priority.
  change (Py.tasks_to_do (Py.of_ints h) tasks) with (tasks_to_do h tasks).
  destruct (tasks_to_do h tasks) as [|t l] eqn:E; [by eexists|].
  rewrite int_sort_agrees.
  destruct (topological_sort_with_priority h (t :: l) alpha) as [out| |];
    [|by eexists..].
  rewrite int_max_deadline.
  destruct (max_deadline h out) as [T|]; simpl; [|by eexists].
  destruct (int_backward (reverse out) (Py.of_ints h) h T) as (g' & -> & Hg');
    [done|].
  by exists g'.
Qed.
